(** * minimalist-todo: the todo store, its persistence and its derived views

    A shallow embedding of [src/hooks/useTodos.ts] (the module-level store
    and its five mutations), of the submit handler of
    [src/components/AddTodoForm.tsx] and of [sortTodos] from
    [src/components/TodoList.tsx], followed by the properties the
    specification states about them.

    Conventions of the embedding:
    - a JavaScript string is the list of its UTF-16 code units;
    - the [number] stored in [order] is an integer (the store only ever
      writes [Date.now()] and array indices there);
    - an optional field that may also be [null] is an [option (option _)]:
      [None] is [undefined], [Some None] is [null];
    - the module-level variables, [localStorage], the console and the calls
      made to subscribers form one [World] threaded through a state and
      exception monad;
    - [JSON.stringify], [JSON.parse], [String.prototype.trim],
      [Array.prototype.findIndex], [splice] and [sort] are written out after
      ECMAScript; the parsing and the formatting of dates are parameters of
      the definitions that use them;
    - the loader assigns whatever [JSON.parse] returns: the module is a
      [Store], either [Typed], with a list of todos in [todosCache], or
      [Raw], with another parsed value there; the mutations are those of
      the typed module. *)

From Stdlib Require Import List ZArith NArith Lia Bool String Ascii.
From Stdlib Require Import Permutation Sorted DecimalN.
Import ListNotations.

Local Open Scope Z_scope.

(** ** JavaScript strings *)

Definition jsstring := list N.

(** A literal of the source, as code units. *)
Definition str (s : string) : jsstring :=
  map N_of_ascii (list_ascii_of_string s).

Definition jsstring_eq_dec : forall a b : jsstring, {a = b} + {a <> b} :=
  list_eq_dec N.eq_dec.

(** [a === b] on strings. *)
Definition streq (a b : jsstring) : bool :=
  if jsstring_eq_dec a b then true else false.

(** A string is truthy when it is not empty. *)
Definition truthy (s : jsstring) : bool :=
  match s with [] => false | _ :: _ => true end.

(** The code points [String.prototype.trim] strips: ECMAScript's WhiteSpace
    and LineTerminator productions. *)
Definition isWhiteSpace (c : N) : bool :=
  ((9 <=? c) && (c <=? 13) || (c =? 32) || (c =? 160) || (c =? 5760)
   || (8192 <=? c) && (c <=? 8202) || (c =? 8232) || (c =? 8233)
   || (c =? 8239) || (c =? 8287) || (c =? 12288) || (c =? 65279))%N.

Fixpoint trimStart (s : jsstring) : jsstring :=
  match s with
  | c :: rest => if isWhiteSpace c then trimStart rest else s
  | [] => []
  end.

Definition trimEnd (s : jsstring) : jsstring := rev (trimStart (rev s)).

Definition trim (s : jsstring) : jsstring := trimEnd (trimStart s).

(** ** The data model ([types/todo.ts]) *)

Inductive Priority := low | medium | high.

Inductive Category := personal | work | shopping | health | other.

Record Todo := mkTodo {
  id : jsstring;
  title : jsstring;
  completed : bool;
  dueDate : option jsstring;
  category : option Category;
  priority : Priority;
  createdAt : jsstring;
  order : Z
}.

Record CreateTodoInput := mkCreate {
  c_title : jsstring;
  c_dueDate : option (option jsstring);
  c_category : option (option Category);
  c_priority : option Priority
}.

Record UpdateTodoInput := mkUpdate {
  u_id : jsstring;
  u_title : option jsstring;
  u_dueDate : option (option jsstring);
  u_category : option (option Category);
  u_priority : option Priority;
  u_completed : option bool
}.

Definition Priority_eq_dec : forall a b : Priority, {a = b} + {a <> b}.
Proof. decide equality. Defined.

Definition Category_eq_dec : forall a b : Category, {a = b} + {a <> b}.
Proof. decide equality. Defined.

(** [x ?? d] *)
Definition nullish {A} (x : option (option A)) : option A :=
  match x with Some (Some v) => Some v | _ => None end.

(** ** JSON values and [JSON.stringify] *)

#[local] Unset Elimination Schemes.
Inductive json :=
| JNull
| JBool (b : bool)
| JNum (z : Z)
| JFrac (lexeme : jsstring)
| JStr (s : jsstring)
| JArr (elems : list json)
| JObj (members : list (jsstring * json)).
#[local] Set Elimination Schemes.

Definition hexDigit (d : N) : N :=
  (if d <? 10 then 48 + d else 87 + d)%N.

(** [\uXXXX] with lower-case digits, as QuoteJSONString writes it. *)
Definition unicodeEscape (c : N) : jsstring :=
  [92; 117; hexDigit (c / 4096 mod 16); hexDigit (c / 256 mod 16);
   hexDigit (c / 16 mod 16); hexDigit (c mod 16)]%N.

Definition isLeadingSurrogate (c : N) : bool := ((55296 <=? c) && (c <=? 56319))%N.
Definition isTrailingSurrogate (c : N) : bool := ((56320 <=? c) && (c <=? 57343))%N.

(** One code unit that is not a surrogate. *)
Definition quoteUnit (c : N) : jsstring :=
  (if c =? 8 then [92; 98]
   else if c =? 9 then [92; 116]
   else if c =? 10 then [92; 110]
   else if c =? 12 then [92; 102]
   else if c =? 13 then [92; 114]
   else if c =? 34 then [92; 34]
   else if c =? 92 then [92; 92]
   else if c <? 32 then unicodeEscape c
   else [c])%N.

(** The body of a quoted string; [prevLead] tells whether the previous code
    unit was a leading surrogate, so that only unpaired surrogates are
    escaped. *)
Fixpoint quoteUnits (prevLead : bool) (s : jsstring) : jsstring :=
  match s with
  | [] => []
  | c :: rest =>
      (if isLeadingSurrogate c then
         match rest with
         | d :: _ => if isTrailingSurrogate d then [c] else unicodeEscape c
         | [] => unicodeEscape c
         end
       else if isTrailingSurrogate c then
         if prevLead then [c] else unicodeEscape c
       else quoteUnit c)
      ++ quoteUnits (isLeadingSurrogate c) rest
  end.

Definition quoteJSONString (s : jsstring) : jsstring :=
  (34 :: quoteUnits false s ++ [34])%N.

Fixpoint digitsOfUint (d : Decimal.uint) : jsstring :=
  match d with
  | Decimal.Nil => []
  | Decimal.D0 r => 48%N :: digitsOfUint r
  | Decimal.D1 r => 49%N :: digitsOfUint r
  | Decimal.D2 r => 50%N :: digitsOfUint r
  | Decimal.D3 r => 51%N :: digitsOfUint r
  | Decimal.D4 r => 52%N :: digitsOfUint r
  | Decimal.D5 r => 53%N :: digitsOfUint r
  | Decimal.D6 r => 54%N :: digitsOfUint r
  | Decimal.D7 r => 55%N :: digitsOfUint r
  | Decimal.D8 r => 56%N :: digitsOfUint r
  | Decimal.D9 r => 57%N :: digitsOfUint r
  end.

(** Number::toString on an integer: decimal digits, a minus sign when
    negative. *)
Definition numberToString (z : Z) : jsstring :=
  match z with
  | Z0 => [48%N]
  | Zpos p => digitsOfUint (N.to_uint (Npos p))
  | Zneg p => 45%N :: digitsOfUint (N.to_uint (Npos p))
  end.

Section Serialize.
Variable serialize : json -> jsstring.

Fixpoint serializeElements (l : list json) : jsstring :=
  match l with
  | [] => []
  | [v] => serialize v
  | v :: rest => serialize v ++ 44%N :: serializeElements rest
  end.

Fixpoint serializeMembers (l : list (jsstring * json)) : jsstring :=
  match l with
  | [] => []
  | [(k, v)] => quoteJSONString k ++ 58%N :: serialize v
  | (k, v) :: rest =>
      quoteJSONString k ++ 58%N :: serialize v ++ 44%N :: serializeMembers rest
  end.
End Serialize.

(** SerializeJSONProperty without indentation. *)
Fixpoint serializeJSON (v : json) : jsstring :=
  match v with
  | JNull => str "null"
  | JBool true => str "true"
  | JBool false => str "false"
  | JNum z => numberToString z
  | JFrac lexeme => lexeme
  | JStr s => quoteJSONString s
  | JArr elems => 91%N :: serializeElements serializeJSON elems ++ [93%N]
  | JObj members => 123%N :: serializeMembers serializeJSON members ++ [125%N]
  end.

Definition jsonOfPriority (p : Priority) : json :=
  JStr (match p with low => str "low" | medium => str "medium" | high => str "high" end).

Definition jsonOfCategory (c : Category) : json :=
  JStr (match c with
        | personal => str "personal" | work => str "work"
        | shopping => str "shopping" | health => str "health"
        | other => str "other"
        end).

Definition jsonOfNullable {A} (f : A -> json) (x : option A) : json :=
  match x with Some v => f v | None => JNull end.

(** A [Todo] as the object [JSON.stringify] walks.  The record does not
    keep the order of the keys: it is that of the object literal of
    [addTodo], which the spreads of the mutations and [JSON.parse] of such a
    text preserve. *)
Definition jsonOfTodo (t : Todo) : json :=
  JObj [ (str "id", JStr (id t));
         (str "title", JStr (title t));
         (str "completed", JBool (completed t));
         (str "dueDate", jsonOfNullable JStr (dueDate t));
         (str "category", jsonOfNullable jsonOfCategory (category t));
         (str "priority", jsonOfPriority (priority t));
         (str "createdAt", JStr (createdAt t));
         (str "order", JNum (order t)) ].

(** [JSON.stringify(todos)] *)
Definition JSON_stringify (todos : list Todo) : jsstring :=
  serializeJSON (JArr (map jsonOfTodo todos)).

Arguments str : simpl never.
Arguments JSON_stringify : simpl never.

(** ** The world around the store *)

Inductive exn := QuotaExceededError | ReferenceError | SyntaxError | TypeError.

(** [localStorage]: string keys to string values, and the room the origin
    has, counted in code units of keys and values. *)
Record Storage := mkStorage {
  entries : list (jsstring * jsstring);
  quota : N
}.

Definition storageSize (l : list (jsstring * jsstring)) : N :=
  fold_right
    (fun e acc => (N.of_nat (List.length (fst e)) + N.of_nat (List.length (snd e)) + acc)%N)
    0%N l.

(** [getItem]: the value, or [None] for [null]. *)
Definition getItem (key : jsstring) (s : Storage) : option jsstring :=
  match find (fun e => streq (fst e) key) (entries s) with
  | Some e => Some (snd e)
  | None => None
  end.

(** [setItem]: the updated storage, or [None] when the value does not fit
    and the call throws. *)
Definition setItem (key value : jsstring) (s : Storage) : option Storage :=
  let es := (key, value) :: filter (fun e => negb (streq (fst e) key)) (entries s) in
  if (storageSize es <=? quota s)%N
  then Some {| entries := es; quota := quota s |}
  else None.

(** A subscriber is known by the identity of its callback. *)
Definition Listener := nat.

(** What the store does to the outside, in the order it does it. *)
Inductive Event :=
| SetItem (key value : jsstring)
| ConsoleError (message : jsstring) (error : exn)
| Called (listener : Listener).

Record World := mkWorld {
  todosCache : list Todo;
  listeners : list Listener;
  hasWindow : bool;
  localStorage : Storage;
  events : list Event
}.

(** ** A state and exception monad over the world *)

(** A computation returns or throws. *)
Inductive Result (A : Type) :=
| Returned (a : A)
| Thrown (e : exn).
Arguments Returned {A} a.
Arguments Thrown {A} e.

(** A computation over a state [S]. *)
Definition St (S A : Type) := S -> Result A * S.

(** The computations of the store: the state is the world, with a list of
    todos in [todosCache]. *)
Definition M (A : Type) := St World A.

Definition ret {S A} (a : A) : St S A := fun w => (Returned a, w).

Definition bind {S A B} (m : St S A) (k : A -> St S B) : St S B :=
  fun w =>
    match m w with
    | (Returned a, w') => k a w'
    | (Thrown e, w') => (Thrown e, w')
    end.

Definition throw {S A} (e : exn) : St S A := fun w => (Thrown e, w).

Definition tryCatch {S A} (body : St S A) (handler : exn -> St S A) : St S A :=
  fun w =>
    match body w with
    | (Returned a, w') => (Returned a, w')
    | (Thrown e, w') => handler e w'
    end.

Notation "x <- m ;; k" := (bind m (fun x => k))
  (at level 61, m at next level, right associativity).
Notation "m ;; k" := (bind m (fun _ => k))
  (at level 61, right associativity).

Definition getTodosCache : M (list Todo) := fun w => (Returned (todosCache w), w).

Definition setTodosCache (todos : list Todo) : M unit :=
  fun w => (Returned tt,
            {| todosCache := todos; listeners := listeners w;
               hasWindow := hasWindow w; localStorage := localStorage w;
               events := events w |}).

Definition emit (e : Event) : M unit :=
  fun w => (Returned tt,
            {| todosCache := todosCache w; listeners := listeners w;
               hasWindow := hasWindow w; localStorage := localStorage w;
               events := events w ++ [e] |}).

Definition console_error (message : jsstring) (error : exn) : M unit :=
  emit (ConsoleError message error).

(** [typeof window === 'undefined'] *)
Definition windowUndefined : M bool := fun w => (Returned (negb (hasWindow w)), w).

(** [localStorage.getItem(key)]; without a window the name [localStorage]
    is unbound. *)
Definition localStorage_getItem (key : jsstring) : M (option jsstring) :=
  fun w =>
    if hasWindow w then (Returned (getItem key (localStorage w)), w)
    else (Thrown ReferenceError, w).

(** [localStorage.setItem(key, value)] *)
Definition localStorage_setItem (key value : jsstring) : M unit :=
  fun w =>
    if hasWindow w then
      let w1 := snd (emit (SetItem key value) w) in
      match setItem key value (localStorage w) with
      | Some s =>
          (Returned tt,
           {| todosCache := todosCache w1; listeners := listeners w1;
              hasWindow := hasWindow w1; localStorage := s;
              events := events w1 |})
      | None => (Thrown QuotaExceededError, w1)
      end
    else (Thrown ReferenceError, w).

Fixpoint forEach {A} (f : A -> M unit) (l : list A) : M unit :=
  match l with
  | [] => ret tt
  | x :: rest => f x ;; forEach f rest
  end.

(** ** The store ([hooks/useTodos.ts]) *)

Definition STORAGE_KEY : jsstring := str "minimalist-todos".

(** Calling a subscriber; what the callback itself does is outside the
    store and leaves the store's variables alone. *)
Definition callListener (l : Listener) : M unit := emit (Called l).

Definition emitChange : M unit :=
  fun w => forEach callListener (listeners w) w.

(** [Set.prototype.add] keeps the first insertion. *)
Definition setAdd (l : Listener) (s : list Listener) : list Listener :=
  if existsb (Nat.eqb l) s then s else s ++ [l].

Definition setDelete (l : Listener) (s : list Listener) : list Listener :=
  filter (fun x => negb (Nat.eqb l x)) s.

Definition setListeners (ls : list Listener) : M unit :=
  fun w => (Returned tt,
            {| todosCache := todosCache w; listeners := ls;
               hasWindow := hasWindow w; localStorage := localStorage w;
               events := events w |}).

Definition subscribe (listener : Listener) : M unit :=
  fun w => setListeners (setAdd listener (listeners w)) w.

(** The function [subscribe] returns. *)
Definition unsubscribe (listener : Listener) : M bool :=
  fun w =>
    (Returned (existsb (Nat.eqb listener) (listeners w)),
     snd (setListeners (setDelete listener (listeners w)) w)).

Definition getSnapshot : M (list Todo) := getTodosCache.

Definition getServerSnapshot : M (list Todo) := ret [].

Definition persistToStorage (todos : list Todo) : M unit :=
  setTodosCache todos ;;
  tryCatch
    (localStorage_setItem STORAGE_KEY (JSON_stringify todos))
    (fun error => console_error (str "Failed to save todos to localStorage:") error) ;;
  emitChange.

(** What the runtime hands to one call of [addTodo]: the result of
    [crypto.randomUUID()], of [new Date().toISOString()] and of
    [Date.now()]. *)
Record Env := mkEnv {
  randomUUID : jsstring;
  nowISO : jsstring;
  nowMs : Z
}.

Definition addTodo (env : Env) (input : CreateTodoInput) : M Todo :=
  let newTodo :=
    {| id := randomUUID env;
       title := c_title input;
       completed := false;
       dueDate := nullish (c_dueDate input);
       category := nullish (c_category input);
       priority := match c_priority input with Some p => p | None => medium end;
       createdAt := nowISO env;
       order := nowMs env |} in
  cache <- getTodosCache ;;
  persistToStorage (cache ++ [newTodo]) ;;
  ret newTodo.

(** The object spread of [updateTodo]: a field of the input overrides the
    todo's when it is not [undefined]. *)
Definition applyUpdate (input : UpdateTodoInput) (todo : Todo) : Todo :=
  {| id := id todo;
     title := match u_title input with Some v => v | None => title todo end;
     completed := match u_completed input with Some v => v | None => completed todo end;
     dueDate := match u_dueDate input with Some v => v | None => dueDate todo end;
     category := match u_category input with Some v => v | None => category todo end;
     priority := match u_priority input with Some v => v | None => priority todo end;
     createdAt := createdAt todo;
     order := order todo |}.

Definition updateTodo (input : UpdateTodoInput) : M unit :=
  cache <- getTodosCache ;;
  let updated :=
    map (fun todo => if streq (id todo) (u_id input) then applyUpdate input todo else todo)
        cache in
  persistToStorage updated.

Definition deleteTodo (id' : jsstring) : M unit :=
  cache <- getTodosCache ;;
  persistToStorage (filter (fun todo => negb (streq (id todo) id')) cache).

Definition setCompleted (b : bool) (todo : Todo) : Todo :=
  {| id := id todo; title := title todo; completed := b;
     dueDate := dueDate todo; category := category todo;
     priority := priority todo; createdAt := createdAt todo;
     order := order todo |}.

Definition toggleTodo (id' : jsstring) : M unit :=
  cache <- getTodosCache ;;
  let updated :=
    map (fun todo =>
           if streq (id todo) id' then setCompleted (negb (completed todo)) todo else todo)
        cache in
  persistToStorage updated.

(** [Array.prototype.findIndex]: the first index whose element passes, or
    [-1]. *)
Fixpoint findIndex {A} (p : A -> bool) (l : list A) : Z :=
  match l with
  | [] => -1
  | x :: rest =>
      if p x then 0
      else let i := findIndex p rest in if i =? -1 then -1 else i + 1
  end.

(** [Array.prototype.splice(start, deleteCount, ...items)]: the removed
    elements and the array afterwards. *)
Definition splice {A} (l : list A) (start deleteCount : Z) (items : list A)
  : list A * list A :=
  let len := Z.of_nat (List.length l) in
  let actualStart := if start <? 0 then Z.max (len + start) 0 else Z.min start len in
  let actualDeleteCount := Z.min (Z.max deleteCount 0) (len - actualStart) in
  let s := Z.to_nat actualStart in
  let d := Z.to_nat actualDeleteCount in
  (firstn d (skipn s l), firstn s l ++ items ++ skipn (s + d) l).

(** [array.map((x, index) => f x index)], counting from [i]. *)
Fixpoint mapFrom {A B} (f : A -> Z -> B) (i : Z) (l : list A) : list B :=
  match l with
  | [] => []
  | x :: rest => f x i :: mapFrom f (i + 1) rest
  end.

Definition mapIndexed {A B} (f : A -> Z -> B) (l : list A) : list B := mapFrom f 0 l.

Definition setOrder (todo : Todo) (index : Z) : Todo :=
  {| id := id todo; title := title todo; completed := completed todo;
     dueDate := dueDate todo; category := category todo;
     priority := priority todo; createdAt := createdAt todo;
     order := index |}.

Definition reorderTodos (activeId overId : jsstring) : M unit :=
  cache <- getTodosCache ;;
  let oldIndex := findIndex (fun t => streq (id t) activeId) cache in
  let newIndex := findIndex (fun t => streq (id t) overId) cache in
  if (oldIndex =? -1) || (newIndex =? -1) then ret tt
  else
    let result := cache in
    let (removedElements, result) := splice result oldIndex 1 [] in
    match removedElements with
    | removed :: _ =>
        let (_, result) := splice result newIndex 0 [removed] in
        let reordered := mapIndexed setOrder result in
        persistToStorage reordered
    | [] =>
        (* not reached: [oldIndex] is an index of [cache], so one element
           is removed ([splice_at_index] below) *)
        ret tt
    end.

(** ** [JSON.parse] *)

Definition isJSONWhiteSpace (c : N) : bool :=
  ((c =? 32) || (c =? 9) || (c =? 10) || (c =? 13))%N.

Fixpoint skipWs (s : jsstring) : jsstring :=
  match s with
  | c :: rest => if isJSONWhiteSpace c then skipWs rest else s
  | [] => []
  end.

Definition isDigit (c : N) : bool := ((48 <=? c) && (c <=? 57))%N.

Definition hexValue (c : N) : option N :=
  (if (48 <=? c) && (c <=? 57) then Some (c - 48)
   else if (97 <=? c) && (c <=? 102) then Some (c - 87)
   else if (65 <=? c) && (c <=? 70) then Some (c - 55)
   else None)%N.

(** The character a single-letter escape stands for. *)
Definition simpleEscape (c : N) : option N :=
  (if c =? 34 then Some 34
   else if c =? 92 then Some 92
   else if c =? 47 then Some 47
   else if c =? 98 then Some 8
   else if c =? 102 then Some 12
   else if c =? 110 then Some 10
   else if c =? 114 then Some 13
   else if c =? 116 then Some 9
   else None)%N.

Definition consResult {A B} (x : A) (r : option (list A * B)) : option (list A * B) :=
  match r with
  | Some (l, rest) => Some (x :: l, rest)
  | None => None
  end.

(** The characters of a string literal after its opening quote, up to and
    including the closing quote. *)
Fixpoint parseChars (s : jsstring) : option (jsstring * jsstring) :=
  match s with
  | [] => None
  | c :: rest =>
      if (c =? 34)%N then Some ([], rest)
      else if (c =? 92)%N then
        match rest with
        | [] => None
        | e :: rest1 =>
            if (e =? 117)%N then
              match rest1 with
              | h1 :: h2 :: h3 :: h4 :: rest2 =>
                  match hexValue h1, hexValue h2, hexValue h3, hexValue h4 with
                  | Some a, Some b, Some c', Some d =>
                      consResult (a * 4096 + b * 256 + c' * 16 + d)%N (parseChars rest2)
                  | _, _, _, _ => None
                  end
              | _ => None
              end
            else
              match simpleEscape e with
              | Some c' => consResult c' (parseChars rest1)
              | None => None
              end
        end
      else if (c <? 32)%N then None
      else consResult c (parseChars rest)
  end.

Fixpoint takeDigits (s : jsstring) : jsstring * jsstring :=
  match s with
  | c :: rest =>
      if isDigit c then let (ds, r) := takeDigits rest in (c :: ds, r) else ([], s)
  | [] => ([], [])
  end.

Fixpoint uintOfDigits (ds : jsstring) : Decimal.uint :=
  match ds with
  | [] => Decimal.Nil
  | c :: rest =>
      let r := uintOfDigits rest in
      (if c =? 48 then Decimal.D0 r
       else if c =? 49 then Decimal.D1 r
       else if c =? 50 then Decimal.D2 r
       else if c =? 51 then Decimal.D3 r
       else if c =? 52 then Decimal.D4 r
       else if c =? 53 then Decimal.D5 r
       else if c =? 54 then Decimal.D6 r
       else if c =? 55 then Decimal.D7 r
       else if c =? 56 then Decimal.D8 r
       else Decimal.D9 r)%N
  end.

(** The optional fraction of a number: [None] when malformed, else the
    characters it takes and what follows. *)
Definition parseFraction (s : jsstring) : option (jsstring * jsstring) :=
  match s with
  | c :: rest =>
      if (c =? 46)%N then
        match takeDigits rest with
        | ([], _) => None
        | (ds, r) => Some (c :: ds, r)
        end
      else Some ([], s)
  | [] => Some ([], [])
  end.

Definition parseExponent (s : jsstring) : option (jsstring * jsstring) :=
  match s with
  | c :: rest =>
      if ((c =? 101) || (c =? 69))%N then
        let (sign, rest1) :=
          match rest with
          | d :: rest' => if ((d =? 43) || (d =? 45))%N then ([d], rest') else ([], rest)
          | [] => ([], rest)
          end in
        match takeDigits rest1 with
        | ([], _) => None
        | (ds, r) => Some (c :: sign ++ ds, r)
        end
      else Some ([], s)
  | [] => Some ([], [])
  end.

(** A number token.  An integer literal is [JNum]; a literal with a
    fraction or an exponent is kept as its lexeme. *)
Definition parseNumber (s : jsstring) : option (json * jsstring) :=
  let (negative, s1) :=
    match s with
    | c :: rest => if (c =? 45)%N then (true, rest) else (false, s)
    | [] => (false, s)
    end in
  match takeDigits s1 with
  | ([], _) => None
  | (d :: ds, r) =>
      if (d =? 48)%N && negb (match ds with [] => true | _ :: _ => false end) then None
      else
        match parseFraction r with
        | None => None
        | Some (frac, r1) =>
            match parseExponent r1 with
            | None => None
            | Some (ex, r2) =>
                match frac, ex with
                | [], [] =>
                    let n := Z.of_N (N.of_uint (uintOfDigits (d :: ds))) in
                    Some (JNum (if negative then - n else n), r2)
                | _, _ =>
                    Some (JFrac ((if negative then [45%N] else []) ++ d :: ds ++ frac ++ ex), r2)
                end
            end
        end
  end.

(** [s] begins with the literal [lit]: what follows it. *)
Fixpoint expect (lit s : jsstring) : option jsstring :=
  match lit with
  | [] => Some s
  | c :: lit' =>
      match s with
      | d :: s' => if (c =? d)%N then expect lit' s' else None
      | [] => None
      end
  end.

Fixpoint parseValue (fuel : nat) (s : jsstring) {struct fuel} : option (json * jsstring) :=
  match fuel with
  | O => None
  | S fuel' =>
      match skipWs s with
      | [] => None
      | c :: rest =>
          if (c =? 34)%N then
            match parseChars rest with
            | Some (chars, r) => Some (JStr chars, r)
            | None => None
            end
          else if (c =? 91)%N then
            match skipWs rest with
            | d :: r =>
                if (d =? 93)%N then Some (JArr [], r)
                else match parseElements fuel' rest with
                     | Some (vs, r') => Some (JArr vs, r')
                     | None => None
                     end
            | [] => None
            end
          else if (c =? 123)%N then
            match skipWs rest with
            | d :: r =>
                if (d =? 125)%N then Some (JObj [], r)
                else match parseMembers fuel' rest with
                     | Some (ms, r') => Some (JObj ms, r')
                     | None => None
                     end
            | [] => None
            end
          else if (c =? 110)%N then
            match expect (str "ull") rest with Some r => Some (JNull, r) | None => None end
          else if (c =? 116)%N then
            match expect (str "rue") rest with Some r => Some (JBool true, r) | None => None end
          else if (c =? 102)%N then
            match expect (str "alse") rest with Some r => Some (JBool false, r) | None => None end
          else if (c =? 45)%N || isDigit c then parseNumber (c :: rest)
          else None
      end
  end

with parseElements (fuel : nat) (s : jsstring) {struct fuel}
  : option (list json * jsstring) :=
  match fuel with
  | O => None
  | S fuel' =>
      match parseValue fuel' s with
      | None => None
      | Some (v, r) =>
          match skipWs r with
          | c :: r' =>
              if (c =? 44)%N then consResult v (parseElements fuel' r')
              else if (c =? 93)%N then Some ([v], r')
              else None
          | [] => None
          end
      end
  end

with parseMembers (fuel : nat) (s : jsstring) {struct fuel}
  : option (list (jsstring * json) * jsstring) :=
  match fuel with
  | O => None
  | S fuel' =>
      match skipWs s with
      | c :: r =>
          if (c =? 34)%N then
            match parseChars r with
            | None => None
            | Some (key, r1) =>
                match skipWs r1 with
                | c1 :: r2 =>
                    if (c1 =? 58)%N then
                      match parseValue fuel' r2 with
                      | None => None
                      | Some (v, r3) =>
                          match skipWs r3 with
                          | c3 :: r4 =>
                              if (c3 =? 44)%N then consResult (key, v) (parseMembers fuel' r4)
                              else if (c3 =? 125)%N then Some ([(key, v)], r4)
                              else None
                          | [] => None
                          end
                      end
                    else None
                | [] => None
                end
            end
          else None
      | [] => None
      end
  end.

(** [JSON.parse(text)]; [None] is a SyntaxError.  The parsers are given
    twice the length of the text as fuel: of two nested calls at least one is
    on a shorter text, and no larger amount changes the answer
    ([JSON_parse_fuel] below). *)
Definition JSON_parse (text : jsstring) : option json :=
  match parseValue (2 * List.length text + 2) text with
  | Some (v, r) => match skipWs r with [] => Some v | _ :: _ => None end
  | None => None
  end.

(** Reading a property: with a repeated key the last member counts. *)
Fixpoint getProperty (key : jsstring) (members : list (jsstring * json)) : option json :=
  match members with
  | [] => None
  | (k, v) :: rest =>
      match getProperty key rest with
      | Some v' => Some v'
      | None => if streq k key then Some v else None
      end
  end.

Definition priorityOfJson (v : json) : option Priority :=
  match v with
  | JStr s =>
      if streq s (str "low") then Some low
      else if streq s (str "medium") then Some medium
      else if streq s (str "high") then Some high
      else None
  | _ => None
  end.

Definition categoryOfJson (v : json) : option (option Category) :=
  match v with
  | JNull => Some None
  | JStr s =>
      if streq s (str "personal") then Some (Some personal)
      else if streq s (str "work") then Some (Some work)
      else if streq s (str "shopping") then Some (Some shopping)
      else if streq s (str "health") then Some (Some health)
      else if streq s (str "other") then Some (Some other)
      else None
  | _ => None
  end.

(** The digits after the letter of an exponent part, as a number; zero
    for no exponent part. *)
Definition exponentValue (ex : jsstring) : Z :=
  match ex with
  | [] => 0
  | _ :: rest =>
      match rest with
      | sign :: ds =>
          if (sign =? 45)%N then - Z.of_N (N.of_uint (uintOfDigits ds))
          else if (sign =? 43)%N then Z.of_N (N.of_uint (uintOfDigits ds))
          else Z.of_N (N.of_uint (uintOfDigits rest))
      | [] => 0
      end
  end.

(** The value of a number written with a fraction or an exponent, when it
    is an integer of magnitude at most 2^53 (the number [JSON.parse] makes
    of it is then that integer exactly); [None] otherwise. *)
Definition lexemeInteger (lexeme : jsstring) : option Z :=
  let (negative, s1) :=
    match lexeme with
    | c :: rest => if (c =? 45)%N then (true, rest) else (false, lexeme)
    | [] => (false, lexeme)
    end in
  match takeDigits s1 with
  | ([], _) => None
  | (ints, r) =>
      match parseFraction r with
      | None => None
      | Some (frac, r1) =>
          match parseExponent r1 with
          | None => None
          | Some (ex, r2) =>
              match r2 with
              | _ :: _ => None
              | [] =>
                  let digits := ints ++ tl frac in
                  let mantissa := Z.of_N (N.of_uint (uintOfDigits digits)) in
                  let k := exponentValue ex - Z.of_nat (List.length (tl frac)) in
                  let signed := fun v : Z => if negative then - v else v in
                  if mantissa =? 0 then Some 0
                  else if 0 <=? k then
                    if k <=? 16 then
                      let v := mantissa * 10 ^ k in
                      if v <=? 2 ^ 53 then Some (signed v) else None
                    else None
                  else if - k <=? Z.of_nat (List.length digits) then
                    if mantissa mod 10 ^ (- k) =? 0 then
                      let v := mantissa / 10 ^ (- k) in
                      if v <=? 2 ^ 53 then Some (signed v) else None
                    else None
                  else None
              end
          end
      end
  end.

(** The parsed number seen as an [order]. *)
Definition orderOfJson (v : json) : option Z :=
  match v with
  | JNum z => Some z
  | JFrac lexeme => lexemeInteger lexeme
  | _ => None
  end.

(** The parsed value seen as a [Todo]: [None] when it does not have the
    shape of the interface.  Properties the interface does not name are
    dropped. *)
Definition todoOfJson (v : json) : option Todo :=
  match v with
  | JObj ms =>
      match getProperty (str "id") ms, getProperty (str "title") ms,
            getProperty (str "completed") ms, getProperty (str "dueDate") ms,
            getProperty (str "category") ms, getProperty (str "priority") ms,
            getProperty (str "createdAt") ms, getProperty (str "order") ms with
      | Some (JStr i), Some (JStr t), Some (JBool c), Some d,
        Some cat, Some p, Some (JStr ca), Some n =>
          match (match d with
                 | JNull => Some None
                 | JStr s => Some (Some s)
                 | _ => None
                 end), categoryOfJson cat, priorityOfJson p, orderOfJson n with
          | Some d', Some cat', Some p', Some o =>
              Some {| id := i; title := t; completed := c; dueDate := d';
                      category := cat'; priority := p'; createdAt := ca;
                      order := o |}
          | _, _, _, _ => None
          end
      | _, _, _, _, _, _, _, _ => None
      end
  | _ => None
  end.

Fixpoint allSome {A} (l : list (option A)) : option (list A) :=
  match l with
  | [] => Some []
  | Some x :: rest =>
      match allSome rest with Some xs => Some (x :: xs) | None => None end
  | None :: _ => None
  end.

Definition todosOfJson (v : json) : option (list Todo) :=
  match v with
  | JArr elems => allSome (map todoOfJson elems)
  | _ => None
  end.

(** ** Loading ([initializeFromStorage]) *)

(** What the module holds in its variable [todosCache].  The cast in
    [JSON.parse(stored) as Todo[]] is not checked, so a load can leave any
    parsed value there: [Typed w] is the module with the list of todos
    [todosCache w]; [Raw v w] is the module with the parsed value [v], one
    that [todosOfJson] does not read as a list of todos (it is no array, an
    element lacks a field of the interface or has it with another type, or
    an [order] is not an integer), and everything else as in [w], whose
    [todosCache] field is then empty and not read. *)
Inductive Store :=
| Typed (w : World)
| Raw (v : json) (w : World).

Definition world (s : Store) : World :=
  match s with
  | Typed w => w
  | Raw _ w => w
  end.

(** A computation of the store that does not touch [todosCache], run in
    the module. *)
Definition inWorld {A} (m : M A) : St Store A :=
  fun s =>
    match s with
    | Typed w => let (r, w') := m w in (r, Typed w')
    | Raw v w => let (r, w') := m w in (r, Raw v w')
    end.

(** [JSON.parse(stored)] *)
Definition parseTodos (stored : jsstring) : St Store json :=
  match JSON_parse stored with
  | None => throw SyntaxError
  | Some v => ret v
  end.

(** [todosCache = v] for a parsed value [v]. *)
Definition assignTodosCache (v : json) : St Store unit :=
  fun s =>
    (Returned tt,
     match todosOfJson v with
     | Some todos => Typed (snd (setTodosCache todos (world s)))
     | None => Raw v (snd (setTodosCache [] (world s)))
     end).

Section Loading.
(** [x > 0] for a parsed value [x], as ECMAScript compares: ToPrimitive,
    ToNumber, then the comparison of numbers; [None] when ToPrimitive throws
    a TypeError. *)
Variable above0 : json -> option bool.

(** [todosCache.length > 0].  Reading a property of [null] throws a
    TypeError ([None]); a number or a boolean has no [length], and
    [undefined > 0] is false; a string and an array have their length; an
    object has the property only as a member of its own. *)
Definition cacheLengthAbove0 (s : Store) : option bool :=
  match s with
  | Typed w => Some (0 <? List.length (todosCache w))%nat
  | Raw JNull _ => None
  | Raw (JBool _) _ => Some false
  | Raw (JNum _) _ => Some false
  | Raw (JFrac _) _ => Some false
  | Raw (JStr chars) _ => Some (0 <? List.length chars)%nat
  | Raw (JArr elems) _ => Some (0 <? List.length elems)%nat
  | Raw (JObj members) _ =>
      match getProperty (str "length") members with
      | Some x => above0 x
      | None => Some false
      end
  end.

Definition todosCacheNotEmpty : St Store bool :=
  fun s =>
    match cacheLengthAbove0 s with
    | Some b => (Returned b, s)
    | None => (Thrown TypeError, s)
    end.

Definition initializeFromStorage : St Store unit :=
  noWindow <- inWorld windowUndefined ;;
  if noWindow then ret tt
  else
    notEmpty <- todosCacheNotEmpty ;;
    if notEmpty then ret tt
    else
      tryCatch
        (stored <- inWorld (localStorage_getItem STORAGE_KEY) ;;
         match stored with
         | Some text =>
             if truthy text then
               v <- parseTodos text ;;
               assignTodosCache v
             else ret tt
         | None => ret tt
         end)
        (fun error =>
           inWorld (console_error (str "Failed to load todos from localStorage:")
                                  error)).
End Loading.

(** The module as it is when first imported in a browser whose storage is
    [s]. *)
Definition freshStore (s : Storage) : World :=
  {| todosCache := []; listeners := []; hasWindow := true;
     localStorage := s; events := [] |}.

(** ** The form ([components/AddTodoForm.tsx]) *)

Record FormState := mkForm {
  f_title : jsstring;
  f_dueDate : option Z;
  f_category : option Category;
  f_priority : Priority
}.

Definition emptyForm : FormState :=
  {| f_title := []; f_dueDate := None; f_category := None; f_priority := medium |}.

Section Form.
(** [Date.prototype.toISOString], on the time value of the date picked. *)
Variable Date_toISOString : Z -> jsstring.

(** [handleSubmit]: the state of the form afterwards. *)
Definition handleSubmit (env : Env) (form : FormState) : M FormState :=
  if negb (truthy (trim (f_title form))) then ret form
  else
    addTodo env
      {| c_title := trim (f_title form);
         c_dueDate := Some (option_map Date_toISOString (f_dueDate form));
         c_category := Some (f_category form);
         c_priority := Some (f_priority form) |} ;;
    ret emptyForm.
End Form.

(** ** The list ([components/TodoList.tsx]) *)

Inductive SortOption := SortOrder | SortDueDate | SortPriority | SortCreatedAt.

Inductive CompletionFilter := FilterAll | FilterActive | FilterCompleted.

Definition PRIORITY_ORDER (p : Priority) : Z :=
  match p with high => 0 | medium => 1 | low => 2 end.

(** [!d] on a [string | null]. *)
Definition falsy (d : option jsstring) : bool :=
  match d with
  | None => true
  | Some s => negb (truthy s)
  end.

(** The item has a due date, as the comparator sees it. *)
Definition hasDueDate (t : Todo) : bool := negb (falsy (dueDate t)).

Definition hasPriority (p : Priority) (t : Todo) : bool :=
  if Priority_eq_dec (priority t) p then true else false.

(** Subtraction of two numbers of which either may be [NaN] ([None]). *)
Definition numSub (a b : option Z) : option Z :=
  match a, b with
  | Some x, Some y => Some (x - y)
  | _, _ => None
  end.

Section Sort.
Context {A : Type}.
(** The comparator handed to [sort]; [None] is [NaN]. *)
Variable compareFn : A -> A -> option Z.

(** [a] goes behind [b] when the comparator is positive; [NaN] counts as
    zero. *)
Definition after (a b : A) : bool :=
  match compareFn a b with
  | Some v => 0 <? v
  | None => false
  end.

Fixpoint insertSorted (x : A) (l : list A) : list A :=
  match l with
  | [] => [x]
  | y :: rest => if after x y then y :: insertSorted x rest else x :: l
  end.

(** [Array.prototype.sort], which is stable: each element, from the last
    to the first, is put in front of the elements already sorted and moves
    behind those the comparator puts it after.  With a comparator that
    orders the elements consistently the algorithm does not matter: every
    stable sorting returns this list ([stable_sorted_unique] below). *)
Definition arraySort (l : list A) : list A := fold_right insertSorted [] l.
End Sort.

Section TodoList.
(** [new Date(s).getTime()] on a string; [None] is [NaN], the time value
    of an invalid date. *)
Variable Date_getTime : jsstring -> option Z.

(** [new Date(d).getTime()] on a [string | null]: [new Date(null)] is the
    epoch. *)
Definition getTime (d : option jsstring) : option Z :=
  match d with
  | None => Some 0
  | Some s => Date_getTime s
  end.

Definition compareTodos (sortBy : SortOption) (a b : Todo) : option Z :=
  match sortBy with
  | SortDueDate =>
      if falsy (dueDate a) && falsy (dueDate b) then Some 0
      else if falsy (dueDate a) then Some 1
      else if falsy (dueDate b) then Some (-1)
      else numSub (getTime (dueDate a)) (getTime (dueDate b))
  | SortPriority => Some (PRIORITY_ORDER (priority a) - PRIORITY_ORDER (priority b))
  | SortCreatedAt =>
      numSub (Date_getTime (createdAt b)) (Date_getTime (createdAt a))
  | SortOrder => Some (order a - order b)
  end.

Definition sortTodos (todos : list Todo) (sortBy : SortOption) : list Todo :=
  arraySort (compareTodos sortBy) todos.

(** The due date of [t] is what the interface documents, an ISO date
    string: when present it denotes an instant. *)
Definition dueDateValid (t : Todo) : Prop :=
  hasDueDate t = true -> getTime (dueDate t) <> None.

(** The instant of a due date, zero when there is none to read. *)
Definition dueTime (t : Todo) : Z :=
  match getTime (dueDate t) with
  | Some x => x
  | None => 0
  end.

(** The order the due-date comparator realises on valid items: by instant
    among those that have a due date, all of them before those that lack
    one. *)
Definition dueLe (a b : Todo) : Prop :=
  if falsy (dueDate b) then True
  else if falsy (dueDate a) then False
  else dueTime a <= dueTime b.

(** Two items the due-date order does not tell apart: both without a due
    date, or both with one and at the same instant. *)
Definition dueEqv (a b : Todo) : bool :=
  if falsy (dueDate a) then falsy (dueDate b)
  else negb (falsy (dueDate b)) && (dueTime a =? dueTime b).


(** The order the priority comparator realises. *)
Definition priorityLe (a b : Todo) : Prop :=
  PRIORITY_ORDER (priority a) <= PRIORITY_ORDER (priority b).

(** The memoised view of [TodoList]; [None] as category filter is
    ['all']. *)
Definition filteredAndSortedTodos (todos : list Todo)
    (categoryFilter : option Category) (completionFilter : CompletionFilter)
    (sortBy : SortOption) : list Todo :=
  let result := todos in
  let result :=
    match categoryFilter with
    | Some c =>
        filter (fun todo =>
                  match category todo with
                  | Some c' => if Category_eq_dec c' c then true else false
                  | None => false
                  end) result
    | None => result
    end in
  let result :=
    match completionFilter with
    | FilterActive => filter (fun todo => negb (completed todo)) result
    | FilterCompleted => filter (fun todo => completed todo) result
    | FilterAll => result
    end in
  sortTodos result sortBy.
End TodoList.

(** [handleDragEnd]: [over] is [None] when the drag ends over nothing. *)
Definition handleDragEnd (active : jsstring) (over : option jsstring) : M unit :=
  match over with
  | Some overId => if negb (streq active overId) then reorderTodos active overId else ret tt
  | None => ret tt
  end.

(** ** Measures on JSON values, for the round trip *)

Section OverChildren.
Variable fuelOf : json -> nat.
Variable holds : json -> Prop.

Fixpoint fuelForElements (l : list json) : nat :=
  match l with
  | [] => 0%nat
  | v :: rest => S (fuelOf v + fuelForElements rest)
  end.

Fixpoint fuelForMembers (l : list (jsstring * json)) : nat :=
  match l with
  | [] => 0%nat
  | (_, v) :: rest => S (fuelOf v + fuelForMembers rest)
  end.

Fixpoint allElements (l : list json) : Prop :=
  match l with
  | [] => True
  | v :: rest => holds v /\ allElements rest
  end.

Fixpoint allMembers (l : list (jsstring * json)) : Prop :=
  match l with
  | [] => True
  | (_, v) :: rest => holds v /\ allMembers rest
  end.
End OverChildren.

(** Fuel with which [parseValue] reads the serialization of [v] back. *)
Fixpoint fuelFor (v : json) : nat :=
  match v with
  | JArr elems => S (fuelForElements fuelFor elems)
  | JObj members => S (fuelForMembers fuelFor members)
  | _ => 1%nat
  end.

(** Every number in [v] is an integer. *)
Fixpoint integral (v : json) : Prop :=
  match v with
  | JFrac _ => False
  | JArr elems => allElements integral elems
  | JObj members => allMembers integral members
  | _ => True
  end.

(** What may follow a value in a text: nothing, a comma or a closing
    bracket. *)
Definition endsValue (rest : jsstring) : Prop :=
  match rest with
  | [] => True
  | c :: _ => c = 44%N \/ c = 93%N \/ c = 125%N
  end.

(** The first character of a serialized value: it is not white space and
    closes nothing. *)
Definition startsValue (s : jsstring) : Prop :=
  match s with
  | [] => False
  | c :: _ => isJSONWhiteSpace c = false /\ c <> 93%N /\ c <> 125%N
  end.

(** The round-trip property of one value, as the induction carries it. *)
Definition readsBack (v : json) : Prop :=
  integral v ->
  forall fuel rest,
    (fuelFor v <= fuel)%nat -> endsValue rest ->
    parseValue fuel (serializeJSON v ++ rest) = Some (v, rest).

(** ** Observations used in the statements *)

(** How many times [l] is called in a run of events. *)
Fixpoint timesCalled (l : Listener) (es : list Event) : nat :=
  match es with
  | [] => 0%nat
  | Called l' :: rest =>
      if Nat.eqb l l' then S (timesCalled l rest) else timesCalled l rest
  | _ :: rest => timesCalled l rest
  end.

(** The calls to [localStorage.setItem] in a run of events. *)
Fixpoint writes (es : list Event) : list (jsstring * jsstring) :=
  match es with
  | [] => []
  | SetItem k v :: rest => (k, v) :: writes rest
  | _ :: rest => writes rest
  end.

(** The console errors in a run of events. *)
Fixpoint errorsLogged (es : list Event) : list exn :=
  match es with
  | [] => []
  | ConsoleError _ e :: rest => e :: errorsLogged rest
  | _ :: rest => errorsLogged rest
  end.

(** What one call of [persistToStorage todos] adds to the events of [w]. *)
Definition persistEvents (todos : list Todo) (w : World) : list Event :=
  (if hasWindow w then
     SetItem STORAGE_KEY (JSON_stringify todos)
     :: match setItem STORAGE_KEY (JSON_stringify todos) (localStorage w) with
        | Some _ => []
        | None => [ConsoleError (str "Failed to save todos to localStorage:")
                                QuotaExceededError]
        end
   else [ConsoleError (str "Failed to save todos to localStorage:") ReferenceError])
  ++ map Called (listeners w).

(** The storage after one call of [persistToStorage todos] in [w]. *)
Definition persistStorage (todos : list Todo) (w : World) : Storage :=
  if hasWindow w then
    match setItem STORAGE_KEY (JSON_stringify todos) (localStorage w) with
    | Some s => s
    | None => localStorage w
    end
  else localStorage w.

(** The ids of a collection, in order. *)
Definition ids (todos : list Todo) : list jsstring := map id todos.

(** The operations of the store, as data, so that statements can range
    over them and over sequences of them. *)
Inductive Operation :=
| Create (env : Env) (input : CreateTodoInput)
| Update (input : UpdateTodoInput)
| Delete (id' : jsstring)
| Toggle (id' : jsstring)
| Reorder (activeId overId : jsstring).

Definition perform (op : Operation) : M unit :=
  match op with
  | Create env input => addTodo env input ;; ret tt
  | Update input => updateTodo input
  | Delete id' => deleteTodo id'
  | Toggle id' => toggleTodo id'
  | Reorder activeId overId => reorderTodos activeId overId
  end.

Fixpoint performAll (ops : list Operation) : M unit :=
  match ops with
  | [] => ret tt
  | op :: rest => perform op ;; performAll rest
  end.

(** The id an update, a delete or a toggle looks for. *)
Definition lookedUp (op : Operation) : option jsstring :=
  match op with
  | Update input => Some (u_id input)
  | Delete id' => Some id'
  | Toggle id' => Some id'
  | Create _ _ => None
  | Reorder _ _ => None
  end.

(** Every [Create] of the run draws an id that no item of the collection
    has at that moment. *)
Fixpoint drawsFreshIds (ops : list Operation) (w : World) : Prop :=
  match ops with
  | [] => True
  | op :: rest =>
      match op with
      | Create env _ => ~ In (randomUUID env) (ids (todosCache w))
      | _ => True
      end
      /\ drawsFreshIds rest (snd (perform op w))
  end.

(** A world, field by field. *)
Definition setWorld (todos : list Todo) (ls : list Listener) (h : bool)
    (s : Storage) (es : list Event) : World :=
  {| todosCache := todos; listeners := ls; hasWindow := h;
     localStorage := s; events := es |}.

(** The same world with another [localStorage]. *)
Definition withStorage (s : Storage) (w : World) : World :=
  {| todosCache := todosCache w; listeners := listeners w;
     hasWindow := hasWindow w; localStorage := s; events := events w |}.

(** The events a computation adds to those of [w]. *)
Definition added {A} (m : M A) (w : World) : list Event :=
  skipn (List.length (events w)) (events (snd (m w))).

(** The specification's words for a move: take the element at index [i]
    out, then put [x] in at index [j]. *)
Definition removeAt {A} (i : nat) (l : list A) : list A :=
  firstn i l ++ skipn (S i) l.

Definition insertAt {A} (j : nat) (x : A) (l : list A) : list A :=
  firstn j l ++ x :: skipn j l.

(** The index of the first item whose id is [id']. *)
Fixpoint position (id' : jsstring) (todos : list Todo) : option nat :=
  match todos with
  | [] => None
  | t :: rest =>
      if streq (id t) id' then Some 0%nat
      else option_map S (position id' rest)
  end.

(** The collection a mutation is to leave in memory: what it computes
    from the collection it finds there, with the specification's words for
    the move of a reorder. *)
Definition mutated (op : Operation) (cache : list Todo) : list Todo :=
  match op with
  | Create env input =>
      cache ++ [{| id := randomUUID env; title := c_title input;
                   completed := false;
                   dueDate := nullish (c_dueDate input);
                   category := nullish (c_category input);
                   priority := match c_priority input with
                               | Some p => p
                               | None => medium
                               end;
                   createdAt := nowISO env; order := nowMs env |}]
  | Update input =>
      map (fun todo => if streq (id todo) (u_id input)
                       then applyUpdate input todo else todo) cache
  | Delete id' => filter (fun todo => negb (streq (id todo) id')) cache
  | Toggle id' =>
      map (fun todo => if streq (id todo) id'
                       then setCompleted (negb (completed todo)) todo
                       else todo) cache
  | Reorder activeId overId =>
      match position activeId cache, position overId cache with
      | Some i, Some j =>
          match nth_error cache i with
          | Some moved => mapIndexed setOrder (insertAt j moved (removeAt i cache))
          | None => cache
          end
      | _, _ => cache
      end
  end.

(** ** The rest of the list and the list item *)

(** [handleUpdate] of [TodoList]: a rename. *)
Definition handleUpdate (id' title' : jsstring) : M unit :=
  updateTodo {| u_id := id'; u_title := Some title'; u_dueDate := None;
                u_category := None; u_priority := None; u_completed := None |}.

(** The two filters of [TodoList] as one test. *)
Definition passesFilters (categoryFilter : option Category)
    (completionFilter : CompletionFilter) (todo : Todo) : bool :=
  match categoryFilter with
  | Some c =>
      match category todo with
      | Some c' => if Category_eq_dec c' c then true else false
      | None => false
      end
  | None => true
  end
  &&
  match completionFilter with
  | FilterActive => negb (completed todo)
  | FilterCompleted => completed todo
  | FilterAll => true
  end.

(** The local state of a [TodoItem] ([components/TodoItem.tsx]). *)
Record ItemState := mkItemState {
  isEditing : bool;
  editValue : jsstring
}.

Section TodoItem.
(** The props of the component. *)
Variable todo : Todo.
Variable onUpdate : jsstring -> jsstring -> M unit.

Definition handleDoubleClick (st : ItemState) : ItemState :=
  if negb (completed todo)
  then {| isEditing := true; editValue := title todo |}
  else st.

Definition handleEditClick (st : ItemState) : ItemState :=
  {| isEditing := true; editValue := title todo |}.

Definition handleSave (st : ItemState) : M ItemState :=
  let trimmed := trim (editValue st) in
  if truthy trimmed && negb (streq trimmed (title todo)) then
    onUpdate (id todo) trimmed ;;
    ret {| isEditing := false; editValue := editValue st |}
  else
    ret {| isEditing := false; editValue := title todo |}.

(** [handleKeyDown], on the [key] of the event. *)
Definition handleKeyDown (key : jsstring) (st : ItemState) : M ItemState :=
  if streq key (str "Enter") then handleSave st
  else if streq key (str "Escape") then
    ret {| isEditing := false; editValue := title todo |}
  else ret st.
End TodoItem.

(** What the user can do to the store through the components. *)
Inductive Gesture :=
| SubmitForm (env : Env) (form : FormState)
| BlurEdit (todo : Todo) (st : ItemState)
| KeyDownEdit (todo : Todo) (st : ItemState) (key : jsstring)
| ClickCheckbox (todo : Todo)
| ClickDelete (todo : Todo)
| DragEnd (active : jsstring) (over : option jsstring).

Section Gestures.
Variable Date_toISOString : Z -> jsstring.

(** The handler each gesture runs, with the props [TodoList] passes to
    [TodoItem]; the local state a handler returns is dropped. *)
Definition runGesture (g : Gesture) : M unit :=
  match g with
  | SubmitForm env form => handleSubmit Date_toISOString env form ;; ret tt
  | BlurEdit todo st => handleSave todo handleUpdate st ;; ret tt
  | KeyDownEdit todo st key => handleKeyDown todo handleUpdate key st ;; ret tt
  | ClickCheckbox todo => toggleTodo (id todo)
  | ClickDelete todo => deleteTodo (id todo)
  | DragEnd active over => handleDragEnd active over
  end.

Fixpoint runGestures (gs : list Gesture) : M unit :=
  match gs with
  | [] => ret tt
  | g :: rest => runGesture g ;; runGestures rest
  end.
End Gestures.

(** ** Further observations *)

(** No title of the collection is blank. *)
Definition titlesNotBlank (todos : list Todo) : Prop :=
  Forall (fun t => trim (title t) <> []) todos.

(** The module after the loader has logged a failure to parse. *)
Definition logLoadError (s : Store) : Store :=
  snd (inWorld (console_error (str "Failed to load todos from localStorage:")
                              SyntaxError) s).

(** What [todosCache] holds, apart from the rest of the module. *)
Inductive Cache :=
| TodoList (todos : list Todo)
| Parsed (v : json).

Definition cacheOf (s : Store) : Cache :=
  match s with
  | Typed w => TodoList (todosCache w)
  | Raw v _ => Parsed v
  end.

(** The events a computation of the module adds. *)
Definition addedIn {A} (m : St Store A) (s : Store) : list Event :=
  skipn (List.length (events (world s))) (events (world (snd (m s)))).

(** The storage holds the serialization of the collection in memory. *)
Definition synced (w : World) : Prop :=
  getItem STORAGE_KEY (localStorage w) = Some (JSON_stringify (todosCache w)).

(** The listeners called in a run of events, in the order of the calls. *)
Fixpoint calls (es : list Event) : list Listener :=
  match es with
  | [] => []
  | Called l :: rest => l :: calls rest
  | _ :: rest => calls rest
  end.


Section SortOrders.
Variable Date_getTime : jsstring -> option Z.

(** The creation stamp of [t] is what the interface documents, an ISO date
    string. *)
Definition createdAtValid (t : Todo) : Prop := Date_getTime (createdAt t) <> None.

Definition createdTime (t : Todo) : Z :=
  match Date_getTime (createdAt t) with
  | Some x => x
  | None => 0
  end.

(** The dates the comparator of [sortBy] reads are valid. *)
Definition comparable (sortBy : SortOption) (todos : list Todo) : Prop :=
  match sortBy with
  | SortDueDate => Forall (dueDateValid Date_getTime) todos
  | SortCreatedAt => Forall createdAtValid todos
  | SortOrder => True
  | SortPriority => True
  end.

(** The order each sort option realises. *)
Definition sortLe (sortBy : SortOption) (a b : Todo) : Prop :=
  match sortBy with
  | SortDueDate => dueLe Date_getTime a b
  | SortPriority => priorityLe a b
  | SortCreatedAt => createdTime b <= createdTime a
  | SortOrder => order a <= order b
  end.
(** What [comparable] asks of a list, item by item. *)
Definition comparableItem (sortBy : SortOption) (t : Todo) : Prop :=
  match sortBy with
  | SortDueDate => dueDateValid Date_getTime t
  | SortCreatedAt => createdAtValid t
  | SortOrder => True
  | SortPriority => True
  end.
End SortOrders.

(** ** A comparison with zero for the examples *)

(** [x > 0] on [null], booleans and numbers written as integers.  Any
    other value counts as not above zero here (ECMAScript first turns a
    string or an array into a number, and throws for an object that has a
    property [toString] of its own); no example reaches those. *)
Definition above0_plain (x : json) : option bool :=
  match x with
  | JBool b => Some b
  | JNum z => Some (0 <? z)
  | _ => Some false
  end.

(** ** A date parser for the examples *)

(** The number a run of decimal digits writes, or [None]. *)
Fixpoint digitsValue (acc : Z) (ds : jsstring) : option Z :=
  match ds with
  | [] => Some acc
  | c :: rest =>
      if isDigit c then digitsValue (10 * acc + Z.of_N (c - 48)) rest else None
  end.

Definition isLeapYear (y : Z) : bool :=
  ((y mod 4 =? 0) && negb (y mod 100 =? 0)) || (y mod 400 =? 0).

Definition daysInMonth (y m : Z) : Z :=
  if m =? 2 then (if isLeapYear y then 29 else 28)
  else if (m =? 4) || (m =? 6) || (m =? 9) || (m =? 11) then 30
  else 31.

(** Days from 1970-01-01 to the civil date [y]-[m]-[d]. *)
Definition daysFromCivil (y m d : Z) : Z :=
  let y' := if m <=? 2 then y - 1 else y in
  let era := y' / 400 in
  let yoe := y' - era * 400 in
  let doy := (153 * (if 2 <? m then m - 3 else m + 9) + 2) / 5 + d - 1 in
  let doe := yoe * 365 + yoe / 4 - yoe / 100 + doy in
  era * 146097 + doe - 719468.

(** The time value of a string in the form [Date.prototype.toISOString]
    writes, [YYYY-MM-DDTHH:mm:ss.sssZ]; any other string counts as an
    invalid date here (engines accept further forms). *)
Definition Date_getTime_iso (s : jsstring) : option Z :=
  match s with
  | [y1; y2; y3; y4; d1; m1; m2; d2; a1; a2; t; h1; h2; c1; n1; n2; c2; s1; s2;
     dot; f1; f2; f3; z] =>
      if ((d1 =? 45) && (d2 =? 45) && (t =? 84) && (c1 =? 58) && (c2 =? 58)
          && (dot =? 46) && (z =? 90))%N then
        match digitsValue 0 [y1; y2; y3; y4], digitsValue 0 [m1; m2],
              digitsValue 0 [a1; a2], digitsValue 0 [h1; h2],
              digitsValue 0 [n1; n2], digitsValue 0 [s1; s2],
              digitsValue 0 [f1; f2; f3] with
        | Some y, Some m, Some d, Some h, Some mi, Some se, Some ms =>
            if (1 <=? m) && (m <=? 12) && (1 <=? d) && (d <=? daysInMonth y m)
               && (h <=? 23) && (mi <=? 59) && (se <=? 59)
            then Some ((((daysFromCivil y m d * 24 + h) * 60 + mi) * 60 + se) * 1000 + ms)
            else None
        | _, _, _, _, _, _, _ => None
        end
      else None
  | _ => None
  end.

(** ** Sample values *)

Definition sampleEnv (uuid : string) (ms : Z) : Env :=
  {| randomUUID := str uuid; nowISO := str "2024-05-01T10:00:00.000Z"; nowMs := ms |}.

Definition sampleInput (t : string) : CreateTodoInput :=
  {| c_title := str t; c_dueDate := None; c_category := None; c_priority := None |}.

Definition sampleTodo (i : string) (o : Z) : Todo :=
  {| id := str i; title := str "task"; completed := false; dueDate := None;
     category := None; priority := medium;
     createdAt := str "2024-05-01T10:00:00.000Z"; order := o |}.

(** A browser storage with room for five million code units. *)
Definition roomyStorage : Storage := {| entries := []; quota := 5000000 |}.

(** A storage with no room left. *)
Definition fullStorage : Storage := {| entries := []; quota := 0 |}.

Definition dueTodo (i : string) (due : option string) (p : Priority) : Todo :=
  {| id := str i; title := str "task"; completed := false;
     dueDate := option_map str due; category := None; priority := p;
     createdAt := str "2024-05-01T10:00:00.000Z"; order := 0 |}.

Definition sampleWorld (todos : list Todo) (s : Storage) : World :=
  {| todosCache := todos; listeners := [1%nat; 2%nat]; hasWindow := true;
     localStorage := s; events := [] |}.

(** ** The monad and [persistToStorage] *)

Lemma forEach_callListener (ls : list Listener) (w : World) :
  forEach callListener ls w =
  (Returned tt,
   {| todosCache := todosCache w; listeners := listeners w;
      hasWindow := hasWindow w; localStorage := localStorage w;
      events := events w ++ map Called ls |}).
Proof.
  revert w. induction ls as [|l ls IH]; intros w; simpl.
  - unfold ret. rewrite app_nil_r. destruct w; reflexivity.
  - unfold bind, callListener, emit. rewrite IH. simpl.
    rewrite <- app_assoc. reflexivity.
Qed.

(** One call of [persistToStorage] returns, with the cache replaced, the
    write attempted and every subscriber called. *)
Lemma persistToStorage_run (todos : list Todo) (w : World) :
  persistToStorage todos w =
  (Returned tt,
   {| todosCache := todos; listeners := listeners w;
      hasWindow := hasWindow w; localStorage := persistStorage todos w;
      events := events w ++ persistEvents todos w |}).
Proof.
  unfold persistToStorage, persistEvents, persistStorage, bind, tryCatch,
    setTodosCache, localStorage_setItem, console_error, emit, emitChange.
  simpl. destruct (hasWindow w) eqn:Hw; simpl.
  - destruct (setItem STORAGE_KEY (JSON_stringify todos) (localStorage w)) eqn:Hs;
      simpl; rewrite forEach_callListener; simpl; rewrite ?Hw;
      rewrite <- ?app_assoc; reflexivity.
  - rewrite forEach_callListener; simpl. rewrite ?Hw.
    rewrite <- ?app_assoc. reflexivity.
Qed.

Lemma timesCalled_app (l : Listener) (es1 es2 : list Event) :
  timesCalled l (es1 ++ es2) = (timesCalled l es1 + timesCalled l es2)%nat.
Proof.
  induction es1 as [|e es1 IH]; simpl; [reflexivity|].
  destruct e; try assumption.
  destruct (Nat.eqb l listener); simpl; congruence.
Qed.

Lemma timesCalled_map_Called (l : Listener) (ls : list Listener) :
  timesCalled l (map Called ls) = count_occ Nat.eq_dec ls l.
Proof.
  induction ls as [|x ls IH]; simpl; [reflexivity|].
  destruct (Nat.eqb_spec l x) as [->|Hne].
  - destruct (Nat.eq_dec x x); congruence.
  - destruct (Nat.eq_dec x l); congruence.
Qed.

Lemma timesCalled_persistEvents (todos : list Todo) (w : World) (l : Listener) :
  timesCalled l (persistEvents todos w) = count_occ Nat.eq_dec (listeners w) l.
Proof.
  unfold persistEvents. rewrite timesCalled_app, timesCalled_map_Called.
  destruct (hasWindow w); simpl;
    [destruct (setItem _ _ _)|]; reflexivity.
Qed.

Lemma writes_app (es1 es2 : list Event) :
  writes (es1 ++ es2) = writes es1 ++ writes es2.
Proof.
  induction es1 as [|e es1 IH]; simpl; [reflexivity|].
  destruct e; simpl; congruence.
Qed.

Lemma writes_map_Called (ls : list Listener) : writes (map Called ls) = [].
Proof. induction ls; simpl; auto. Qed.

Lemma writes_persistEvents (todos : list Todo) (w : World) :
  hasWindow w = true ->
  writes (persistEvents todos w) = [(STORAGE_KEY, JSON_stringify todos)].
Proof.
  intros Hw. unfold persistEvents. rewrite Hw, writes_app, writes_map_Called.
  simpl. destruct (setItem _ _ _); reflexivity.
Qed.

Lemma streq_true (a b : jsstring) : streq a b = true <-> a = b.
Proof. unfold streq. destruct (jsstring_eq_dec a b); split; congruence. Qed.

Lemma streq_false (a b : jsstring) : streq a b = false <-> a <> b.
Proof. unfold streq. destruct (jsstring_eq_dec a b); split; congruence. Qed.

Lemma streq_refl (a : jsstring) : streq a a = true.
Proof. apply streq_true. reflexivity. Qed.

Lemma added_persist (todos : list Todo) (w : World) :
  added (persistToStorage todos) w = persistEvents todos w.
Proof.
  unfold added. rewrite persistToStorage_run. simpl.
  rewrite skipn_app, skipn_all, Nat.sub_diag. reflexivity.
Qed.

(** *** The four list-replacing mutations, run *)

Lemma addTodo_run (env : Env) (input : CreateTodoInput) (w : World) :
  let newTodo :=
    {| id := randomUUID env; title := c_title input; completed := false;
       dueDate := nullish (c_dueDate input);
       category := nullish (c_category input);
       priority := match c_priority input with Some p => p | None => medium end;
       createdAt := nowISO env; order := nowMs env |} in
  addTodo env input w =
  (Returned newTodo, snd (persistToStorage (todosCache w ++ [newTodo]) w)).
Proof.
  simpl. unfold addTodo, bind, getTodosCache, ret.
  rewrite persistToStorage_run. reflexivity.
Qed.

Lemma updateTodo_run (input : UpdateTodoInput) (w : World) :
  updateTodo input w =
  persistToStorage
    (map (fun todo => if streq (id todo) (u_id input) then applyUpdate input todo else todo)
         (todosCache w)) w.
Proof. reflexivity. Qed.

Lemma deleteTodo_run (id' : jsstring) (w : World) :
  deleteTodo id' w =
  persistToStorage (filter (fun todo => negb (streq (id todo) id')) (todosCache w)) w.
Proof. reflexivity. Qed.

Lemma toggleTodo_run (id' : jsstring) (w : World) :
  toggleTodo id' w =
  persistToStorage
    (map (fun todo =>
            if streq (id todo) id' then setCompleted (negb (completed todo)) todo else todo)
         (todosCache w)) w.
Proof. reflexivity. Qed.

Lemma map_unknown_id (f : Todo -> Todo) (id' : jsstring) (todos : list Todo) :
  ~ In id' (ids todos) ->
  map (fun todo => if streq (id todo) id' then f todo else todo) todos = todos.
Proof.
  induction todos as [|t todos IH]; simpl; intros Hn; [reflexivity|].
  destruct (streq (id t) id') eqn:E.
  - apply streq_true in E. tauto.
  - f_equal. apply IH. tauto.
Qed.

Lemma filter_unknown_id (id' : jsstring) (todos : list Todo) :
  ~ In id' (ids todos) ->
  filter (fun todo => negb (streq (id todo) id')) todos = todos.
Proof.
  induction todos as [|t todos IH]; simpl; intros Hn; [reflexivity|].
  destruct (streq (id t) id') eqn:E; simpl.
  - apply streq_true in E. tauto.
  - f_equal. apply IH. tauto.
Qed.

(** An update, a delete or a toggle of an id the collection does not have
    persists the collection it found. *)
Lemma perform_unknown_id (op : Operation) (id' : jsstring) (w : World) :
  lookedUp op = Some id' ->
  ~ In id' (ids (todosCache w)) ->
  perform op w = persistToStorage (todosCache w) w.
Proof.
  intros Hop Hn. destruct op; simpl in Hop; try discriminate;
    injection Hop as <-; simpl.
  - rewrite updateTodo_run, map_unknown_id; auto.
  - rewrite deleteTodo_run, filter_unknown_id; auto.
  - rewrite toggleTodo_run, map_unknown_id; auto.
Qed.

(** C4.  An update, a delete or a toggle that names an id absent from the
    collection returns normally and leaves the collection as it was, item
    by item. *)
Theorem unknown_id_is_noop (op : Operation) (id' : jsstring) (w : World) :
  lookedUp op = Some id' ->
  ~ In id' (ids (todosCache w)) ->
  fst (perform op w) = Returned tt /\
  todosCache (snd (perform op w)) = todosCache w.
Proof.
  intros Hop Hn. rewrite (perform_unknown_id op id' w Hop Hn).
  rewrite persistToStorage_run. split; reflexivity.
Qed.

(** C10.  In a browser, an update, a delete or a toggle that names an
    absent id still calls [localStorage.setItem] once, with the storage key
    and the serialized unchanged collection, and calls each registered
    subscriber exactly once. *)
Theorem unknown_id_still_persists_and_notifies
    (op : Operation) (id' : jsstring) (w : World) :
  lookedUp op = Some id' ->
  ~ In id' (ids (todosCache w)) ->
  hasWindow w = true ->
  NoDup (listeners w) ->
  todosCache (snd (perform op w)) = todosCache w /\
  events (snd (perform op w)) = events w ++ added (perform op) w /\
  writes (added (perform op) w) = [(STORAGE_KEY, JSON_stringify (todosCache w))] /\
  (forall l, In l (listeners w) -> timesCalled l (added (perform op) w) = 1%nat) /\
  (forall l, ~ In l (listeners w) -> timesCalled l (added (perform op) w) = 0%nat).
Proof.
  intros Hop Hn Hw Hnd.
  assert (Ha : added (perform op) w = persistEvents (todosCache w) w).
  { unfold added. rewrite (perform_unknown_id op id' w Hop Hn).
    apply added_persist. }
  rewrite Ha. rewrite (perform_unknown_id op id' w Hop Hn).
  rewrite persistToStorage_run. simpl.
  repeat split.
  - apply writes_persistEvents; assumption.
  - intros l Hl. rewrite timesCalled_persistEvents.
    apply NoDup_count_occ'; assumption.
  - intros l Hl. rewrite timesCalled_persistEvents.
    apply count_occ_not_In; assumption.
Qed.

(** *** [findIndex], [splice] and the indexed [map] *)

Lemma findIndex_position (id' : jsstring) (todos : list Todo) :
  findIndex (fun t => streq (id t) id') todos =
  match position id' todos with
  | Some i => Z.of_nat i
  | None => -1
  end.
Proof.
  induction todos as [|t todos IH]; simpl; [reflexivity|].
  destruct (streq (id t) id'); [reflexivity|].
  rewrite IH. destruct (position id' todos) as [i|]; simpl.
  - destruct (Z.eqb_spec (Z.of_nat i) (-1)); lia.
  - reflexivity.
Qed.

Lemma position_None (id' : jsstring) (todos : list Todo) :
  position id' todos = None <-> ~ In id' (ids todos).
Proof.
  induction todos as [|t todos IH]; simpl; [tauto|].
  destruct (streq (id t) id') eqn:E.
  - apply streq_true in E. split; [discriminate|tauto].
  - apply streq_false in E.
    destruct (position id' todos); simpl; split; intros H;
      try discriminate; try tauto.
    exfalso. apply H. right. apply Decidable.not_not.
    + destruct (in_dec jsstring_eq_dec id' (ids todos)); [left|right]; assumption.
    + intros Hn. apply IH in Hn. discriminate.
Qed.

Lemma position_Some (id' : jsstring) (todos : list Todo) (i : nat) :
  position id' todos = Some i ->
  (exists t, nth_error todos i = Some t /\ id t = id') /\
  (forall k t, (k < i)%nat -> nth_error todos k = Some t -> id t <> id').
Proof.
  revert i. induction todos as [|t todos IH]; simpl; intros i H; [discriminate|].
  destruct (streq (id t) id') eqn:E.
  - injection H as <-. apply streq_true in E. split.
    + exists t. split; [reflexivity|assumption].
    + intros k t' Hk. lia.
  - destruct (position id' todos) as [i'|] eqn:P; [|discriminate].
    injection H as <-. destruct (IH i' eq_refl) as [Hex Hbefore]. split.
    + exact Hex.
    + intros [|k] t' Hk Hnth; simpl in Hnth.
      * injection Hnth as <-. apply streq_false in E. exact E.
      * apply (Hbefore k); [lia|assumption].
Qed.


Lemma splice_at_index {A} (l : list A) (i : nat) (x : A) :
  nth_error l i = Some x ->
  splice l (Z.of_nat i) 1 [] = ([x], removeAt i l).
Proof.
  intros Hnth.
  assert (Hlt : (i < List.length l)%nat) by (apply nth_error_Some; congruence).
  unfold splice, removeAt.
  destruct (Z.ltb_spec (Z.of_nat i) 0) as [Hneg|_]; [lia|].
  rewrite (Z.min_l (Z.of_nat i)) by lia.
  rewrite (Z.max_l 1 0) by lia.
  rewrite (Z.min_l 1) by lia.
  rewrite Nat2Z.id. change (Z.to_nat 1) with 1%nat.
  replace (i + 1)%nat with (S i) by lia. simpl app. f_equal.
  apply nth_error_split in Hnth. destruct Hnth as (l1 & l2 & -> & <-).
  rewrite skipn_app, skipn_all, Nat.sub_diag. reflexivity.
Qed.

Lemma splice_insert {A} (l : list A) (j : nat) (x : A) :
  (j <= List.length l)%nat ->
  splice l (Z.of_nat j) 0 [x] = ([], insertAt j x l).
Proof.
  intros Hle. unfold splice, insertAt.
  destruct (Z.ltb_spec (Z.of_nat j) 0) as [Hneg|_]; [lia|].
  rewrite (Z.min_l (Z.of_nat j)) by lia.
  rewrite (Z.max_l 0 0) by lia.
  rewrite (Z.min_l 0) by lia.
  rewrite Nat2Z.id. change (Z.to_nat 0) with 0%nat.
  rewrite Nat.add_0_r. reflexivity.
Qed.

Lemma removeAt_length {A} (l : list A) (i : nat) :
  (i < List.length l)%nat -> List.length (removeAt i l) = (List.length l - 1)%nat.
Proof.
  intros Hlt. unfold removeAt.
  rewrite length_app, length_firstn, length_skipn. lia.
Qed.




Lemma ids_mapFrom_setOrder (i : Z) (l : list Todo) :
  ids (mapFrom setOrder i l) = ids l.
Proof.
  revert i. induction l as [|x l IH]; simpl; intros i; [reflexivity|].
  f_equal. apply IH.
Qed.

(** [reorderTodos] when both ids are found: one element leaves index [i],
    enters at index [j], and the indexed map rewrites the orders. *)
Lemma reorderTodos_found (activeId overId : jsstring) (w : World)
    (i j : nat) (moved : Todo) :
  position activeId (todosCache w) = Some i ->
  position overId (todosCache w) = Some j ->
  nth_error (todosCache w) i = Some moved ->
  reorderTodos activeId overId w =
  persistToStorage
    (mapIndexed setOrder (insertAt j moved (removeAt i (todosCache w)))) w.
Proof.
  intros Pi Pj Hnth.
  unfold reorderTodos, bind, getTodosCache.
  rewrite !findIndex_position, Pi, Pj.
  destruct (Z.eqb_spec (Z.of_nat i) (-1)); [lia|].
  destruct (Z.eqb_spec (Z.of_nat j) (-1)); [lia|]. simpl orb. cbv iota.
  rewrite (splice_at_index _ _ _ Hnth).
  rewrite splice_insert; [reflexivity|].
  destruct (position_Some _ _ _ Pj) as [(t & Ht & _) _].
  assert ((j < List.length (todosCache w))%nat) by (apply nth_error_Some; congruence).
  assert ((i < List.length (todosCache w))%nat) by (apply nth_error_Some; congruence).
  rewrite removeAt_length; lia.
Qed.

Lemma reorderTodos_not_found (activeId overId : jsstring) (w : World) :
  position activeId (todosCache w) = None \/ position overId (todosCache w) = None ->
  reorderTodos activeId overId w = (Returned tt, w).
Proof.
  intros H. unfold reorderTodos, bind, getTodosCache.
  rewrite !findIndex_position.
  destruct H as [-> | ->]; simpl.
  - reflexivity.
  - rewrite orb_true_r. reflexivity.
Qed.


Lemma removeAt_split {A} (l : list A) (i : nat) (x : A) :
  nth_error l i = Some x ->
  exists l1 l2, l = l1 ++ x :: l2 /\ removeAt i l = l1 ++ l2.
Proof.
  intros Hnth. apply nth_error_split in Hnth.
  destruct Hnth as (l1 & l2 & -> & <-). exists l1, l2. split; [reflexivity|].
  unfold removeAt.
  replace (S (List.length l1)) with (List.length l1 + 1)%nat by lia.
  rewrite firstn_app, firstn_all, Nat.sub_diag. simpl firstn.
  rewrite app_nil_r, skipn_app, skipn_all2 by lia.
  replace (List.length l1 + 1 - List.length l1)%nat with 1%nat by lia.
  reflexivity.
Qed.

Lemma move_Permutation {A} (l : list A) (i j : nat) (x : A) :
  nth_error l i = Some x -> Permutation (insertAt j x (removeAt i l)) l.
Proof.
  intros Hnth. destruct (removeAt_split l i x Hnth) as (l1 & l2 & -> & ->).
  unfold insertAt. symmetry.
  etransitivity; [symmetry; apply Permutation_middle|].
  etransitivity; [|apply Permutation_middle].
  constructor. rewrite firstn_skipn. reflexivity.
Qed.


(** *** What every operation does with the world *)

(** An operation reads the collection and nothing else: it either hands a
    new collection to [persistToStorage] or returns at once. *)
Lemma perform_reads_cache (op : Operation) (cache : list Todo) :
  exists next : option (list Todo),
    forall ls h s es,
      perform op (setWorld cache ls h s es) =
      match next with
      | Some todos => persistToStorage todos (setWorld cache ls h s es)
      | None => (Returned tt, setWorld cache ls h s es)
      end.
Proof.
  destruct op as [env input|input|id'|id'|activeId overId].
  - exists (Some (cache ++
                  [{| id := randomUUID env; title := c_title input;
                      completed := false;
                      dueDate := nullish (c_dueDate input);
                      category := nullish (c_category input);
                      priority := match c_priority input with
                                  | Some p => p
                                  | None => medium
                                  end;
                      createdAt := nowISO env; order := nowMs env |}])).
    intros. simpl. unfold bind.
    rewrite addTodo_run. simpl. rewrite !persistToStorage_run. reflexivity.
  - exists (Some (map (fun todo => if streq (id todo) (u_id input)
                                   then applyUpdate input todo else todo) cache)).
    intros. reflexivity.
  - exists (Some (filter (fun todo => negb (streq (id todo) id')) cache)).
    intros. reflexivity.
  - exists (Some (map (fun todo => if streq (id todo) id'
                                   then setCompleted (negb (completed todo)) todo
                                   else todo) cache)).
    intros. reflexivity.
  - simpl. destruct (position activeId cache) as [i|] eqn:Pi.
    + destruct (position overId cache) as [j|] eqn:Pj.
      * destruct (position_Some _ _ _ Pi) as [(moved & Hm & _) _].
        exists (Some (mapIndexed setOrder (insertAt j moved (removeAt i cache)))).
        intros.
        apply (reorderTodos_found activeId overId (setWorld cache ls h s es) i j moved);
          assumption.
      * exists None. intros. apply reorderTodos_not_found. right. exact Pj.
    + exists None. intros. apply reorderTodos_not_found. left. exact Pi.
Qed.

Lemma world_eta (w : World) :
  w = setWorld (todosCache w) (listeners w) (hasWindow w) (localStorage w) (events w).
Proof. destruct w; reflexivity. Qed.

Lemma perform_returns (op : Operation) (w : World) :
  fst (perform op w) = Returned tt.
Proof.
  destruct (perform_reads_cache op (todosCache w)) as [next Hn].
  generalize (Hn (listeners w) (hasWindow w) (localStorage w) (events w)).
  rewrite <- world_eta. intros ->. destruct next; [|reflexivity].
  rewrite persistToStorage_run. reflexivity.
Qed.

Lemma errorsLogged_app (es1 es2 : list Event) :
  errorsLogged (es1 ++ es2) = errorsLogged es1 ++ errorsLogged es2.
Proof.
  induction es1 as [|e es1 IH]; simpl; [reflexivity|].
  destruct e; simpl; congruence.
Qed.

Lemma errorsLogged_map_Called (ls : list Listener) : errorsLogged (map Called ls) = [].
Proof. induction ls; simpl; auto. Qed.

(** A mutation hands the collection it computed to [persistToStorage], or,
    for a reorder that misses an id, computes the collection it found and
    returns at once. *)
Lemma perform_mutated (op : Operation) (w : World) :
  perform op w = persistToStorage (mutated op (todosCache w)) w \/
  (perform op w = (Returned tt, w) /\ mutated op (todosCache w) = todosCache w).
Proof.
  destruct op as [env input|input|id'|id'|activeId overId]; cbn [perform mutated].
  - left. unfold bind. rewrite addTodo_run. cbn [fst snd].
    rewrite persistToStorage_run. reflexivity.
  - left. reflexivity.
  - left. reflexivity.
  - left. reflexivity.
  - destruct (position activeId (todosCache w)) as [i|] eqn:Pi.
    + destruct (position overId (todosCache w)) as [j|] eqn:Pj.
      * destruct (position_Some _ _ _ Pi) as [(moved & Hm & _) _]. rewrite Hm.
        left. apply (reorderTodos_found _ _ _ _ _ _ Pi Pj Hm).
      * right. split; [|reflexivity]. apply reorderTodos_not_found. right. exact Pj.
    + right. split; [|reflexivity]. apply reorderTodos_not_found. left. exact Pi.
Qed.

(** C8.  When the write of the collection a mutation computed does not fit
    in the storage, the operation still returns normally and the collection
    in memory is the one it computed (the item added, edited, removed or
    moved), not the one before; it is also the one the same operation
    leaves with any other storage; the storage keeps its content, and each
    attempted write is matched by one logged error. *)
Theorem failed_write_keeps_mutation (op : Operation) (w : World) :
  hasWindow w = true ->
  setItem STORAGE_KEY (JSON_stringify (mutated op (todosCache w)))
          (localStorage w) = None ->
  fst (perform op w) = Returned tt /\
  todosCache (snd (perform op w)) = mutated op (todosCache w) /\
  (forall s, todosCache (snd (perform op w))
             = todosCache (snd (perform op (withStorage s w)))) /\
  localStorage (snd (perform op w)) = localStorage w /\
  errorsLogged (added (perform op) w)
  = map (fun _ => QuotaExceededError) (writes (added (perform op) w)).
Proof.
  intros Hw Hfail. unfold added.
  assert (Hs : forall s, todosCache (snd (perform op (withStorage s w)))
                         = mutated op (todosCache w)).
  { intros s. destruct (perform_mutated op (withStorage s w)) as [E|[E Hm]];
      rewrite E; [rewrite persistToStorage_run|]; cbn [snd todosCache withStorage];
      [reflexivity|symmetry; exact Hm]. }
  destruct (perform_mutated op w) as [E|[E Hm]]; rewrite E.
  - rewrite persistToStorage_run. cbn [fst snd todosCache localStorage events].
    split; [reflexivity|]. split; [reflexivity|]. split; [|split].
    + intros s. symmetry. apply Hs.
    + unfold persistStorage. rewrite Hw, Hfail. reflexivity.
    + rewrite skipn_app, skipn_all, Nat.sub_diag. cbn [skipn app].
      unfold persistEvents. rewrite Hw, Hfail. cbn [app writes errorsLogged map].
      rewrite errorsLogged_map_Called, writes_map_Called. reflexivity.
  - cbn [fst snd]. split; [reflexivity|]. split; [symmetry; exact Hm|].
    split; [|split].
    + intros s. rewrite Hs. symmetry. exact Hm.
    + reflexivity.
    + rewrite skipn_all. reflexivity.
Qed.

(** *** The subscriber set and the event log *)

Lemma setAdd_NoDup (l : Listener) (s : list Listener) :
  NoDup s -> NoDup (setAdd l s).
Proof.
  intros Hnd. unfold setAdd. destruct (existsb (Nat.eqb l) s) eqn:E; [exact Hnd|].
  apply NoDup_app; [exact Hnd|repeat constructor; simpl; tauto|].
  intros x Hx [<-|[]].
  assert (Hex : existsb (Nat.eqb l) s = true).
  { apply existsb_exists. exists l. split; [exact Hx|apply Nat.eqb_refl]. }
  congruence.
Qed.

Lemma setDelete_NoDup (l : Listener) (s : list Listener) :
  NoDup s -> NoDup (setDelete l s).
Proof. intros Hnd. unfold setDelete. apply NoDup_filter. exact Hnd. Qed.

(** Subscribing and unsubscribing keep the listeners a set. *)
Lemma subscribe_keeps_set (l : Listener) (w : World) :
  NoDup (listeners w) ->
  NoDup (listeners (snd (subscribe l w))) /\
  NoDup (listeners (snd (unsubscribe l w))).
Proof.
  intros Hnd. split; simpl; [apply setAdd_NoDup|apply setDelete_NoDup]; exact Hnd.
Qed.

(** An operation leaves the listeners alone and only adds to the events. *)
Lemma perform_keeps_listeners (op : Operation) (w : World) :
  listeners (snd (perform op w)) = listeners w /\
  events (snd (perform op w)) = events w ++ added (perform op) w.
Proof.
  unfold added.
  destruct (perform_reads_cache op (todosCache w)) as [next Hn].
  generalize (Hn (listeners w) (hasWindow w) (localStorage w) (events w)).
  rewrite <- world_eta. intros ->. destruct next as [todos|].
  - rewrite persistToStorage_run. cbn [snd listeners events].
    rewrite skipn_app, skipn_all, Nat.sub_diag. auto.
  - cbn [snd]. rewrite skipn_all, app_nil_r. auto.
Qed.

(** *** Creation *)

(** C3 as stated fails: two [addTodo] calls within the same millisecond
    give the second item the order of the first, not a greater one. *)
Lemma addTodo_same_millisecond :
  let w1 := snd (addTodo (sampleEnv "id-1" 1714557600000) (sampleInput "first")
                         (sampleWorld [] roomyStorage)) in
  let t := {| id := str "id-2"; title := str "second"; completed := false;
              dueDate := None; category := None; priority := medium;
              createdAt := str "2024-05-01T10:00:00.000Z";
              order := 1714557600000 |} in
  fst (addTodo (sampleEnv "id-2" 1714557600000) (sampleInput "second") w1)
  = Returned t /\
  trim (title t) <> [] /\
  ~ Forall (fun x => order x < order t) (todosCache w1).
Proof.
  split; [|split].
  - vm_compute. reflexivity.
  - vm_compute. discriminate.
  - intros H. apply Forall_inv in H. vm_compute in H. discriminate.
Qed.

(** C3, amended.  [addTodo] returns an item that is not completed, has the
    given priority or [medium], carries the clock reading [Date.now()] as
    its order, and is the last element of the collection it leaves; that
    order is above every order already there exactly when the clock
    reading is. *)
Theorem addTodo_appends_with_clock_order
    (env : Env) (input : CreateTodoInput) (w : World) :
  exists t,
    fst (addTodo env input w) = Returned t /\
    id t = randomUUID env /\
    title t = c_title input /\
    completed t = false /\
    priority t = match c_priority input with Some p => p | None => medium end /\
    order t = nowMs env /\
    todosCache (snd (addTodo env input w)) = todosCache w ++ [t] /\
    (Forall (fun x => order x < order t) (todosCache w) <->
     Forall (fun x => order x < nowMs env) (todosCache w)).
Proof.
  rewrite addTodo_run, persistToStorage_run. cbn [fst snd todosCache].
  eexists. split; [reflexivity|]. cbn [id title completed priority order].
  repeat split; auto.
Qed.

(** C1 as stated fails: [addTodo] itself takes a blank title and admits the
    item. *)
Lemma addTodo_admits_blank_title :
  let w := sampleWorld [] roomyStorage in
  let input := sampleInput "   " in
  let w' := snd (addTodo (sampleEnv "id-1" 1714557600000) input w) in
  let t := {| id := str "id-1"; title := str "   "; completed := false;
              dueDate := None; category := None; priority := medium;
              createdAt := str "2024-05-01T10:00:00.000Z";
              order := 1714557600000 |} in
  trim (c_title input) = [] /\
  todosCache w = [] /\
  todosCache w' = [t] /\
  trim (title t) = [].
Proof.
  repeat split; vm_compute; reflexivity.
Qed.

Lemma trimStart_idempotent (s : jsstring) : trimStart (trimStart s) = trimStart s.
Proof.
  induction s as [|c s IH]; simpl; [reflexivity|].
  destruct (isWhiteSpace c) eqn:E; [exact IH|].
  simpl. rewrite E. reflexivity.
Qed.

Lemma trimStart_snoc (l : jsstring) (c : N) :
  isWhiteSpace c = false -> exists l', trimStart (l ++ [c]) = l' ++ [c].
Proof.
  intros Hc. induction l as [|d l IH]; simpl.
  - rewrite Hc. exists []. reflexivity.
  - destruct (isWhiteSpace d); [exact IH|].
    exists (d :: l). reflexivity.
Qed.

Lemma trimStart_fixed (s : jsstring) :
  trimStart s = s <-> match s with [] => True | c :: _ => isWhiteSpace c = false end.
Proof.
  destruct s as [|c s]; simpl; [tauto|].
  destruct (isWhiteSpace c) eqn:E; split; intros H; try congruence.
  exfalso.
  assert (Hlen : forall l, (List.length (trimStart l) <= List.length l)%nat).
  { induction l as [|d l IH]; simpl; [lia|].
    destruct (isWhiteSpace d); simpl; lia. }
  specialize (Hlen s). rewrite H in Hlen. simpl in Hlen. lia.
Qed.

Lemma trimEnd_keeps_head (s : jsstring) :
  trimStart s = s -> trimStart (trimEnd s) = trimEnd s.
Proof.
  intros H. apply trimStart_fixed in H. apply trimStart_fixed.
  destruct s as [|c s]; [exact I|].
  unfold trimEnd. simpl rev.
  destruct (trimStart_snoc (rev s) c H) as [l' ->].
  rewrite rev_app_distr. simpl. exact H.
Qed.

Lemma trim_idempotent (s : jsstring) : trim (trim s) = trim s.
Proof.
  unfold trim.
  rewrite (trimEnd_keeps_head (trimStart s) (trimStart_idempotent s)).
  unfold trimEnd. rewrite rev_involutive, trimStart_idempotent. reflexivity.
Qed.

Lemma truthy_false (s : jsstring) : truthy s = false <-> s = [].
Proof. destruct s; simpl; split; congruence. Qed.

(** C1, amended.  The guard against blank titles is in the form's submit
    handler, the caller of [addTodo]: with a title that trims to nothing it
    returns without touching the world, and any item it does admit carries
    the trimmed title, which is not blank. *)
Theorem handleSubmit_rejects_blank_title
    (Date_toISOString : Z -> jsstring) (env : Env) (form : FormState) (w : World) :
  (trim (f_title form) = [] ->
   handleSubmit Date_toISOString env form w = (Returned form, w)) /\
  (forall t,
     In t (todosCache (snd (handleSubmit Date_toISOString env form w))) ->
     In t (todosCache w) \/
     (title t = trim (f_title form) /\ trim (title t) <> [])).
Proof.
  unfold handleSubmit. split.
  - intros ->. reflexivity.
  - intros t. destruct (truthy (trim (f_title form))) eqn:E; cbn [negb].
    + unfold bind. rewrite addTodo_run. cbn [fst snd].
      rewrite persistToStorage_run. unfold ret. cbn [fst snd todosCache].
      intros Hin. apply in_app_or in Hin. destruct Hin as [Hin|[<-|[]]].
      * left. exact Hin.
      * right. cbn [title c_title]. split; [reflexivity|].
        rewrite trim_idempotent. intros H. rewrite H in E. discriminate.
    + intros Hin. left. exact Hin.
Qed.

(** *** Identity *)

Lemma ids_map_cond (c : Todo -> bool) (f : Todo -> Todo) (todos : list Todo) :
  (forall t, id (f t) = id t) ->
  ids (map (fun todo => if c todo then f todo else todo) todos) = ids todos.
Proof.
  intros Hf. induction todos as [|t todos IH]; simpl; [reflexivity|].
  f_equal; [destruct (c t); auto|exact IH].
Qed.

Lemma NoDup_ids_filter (p : Todo -> bool) (todos : list Todo) :
  NoDup (ids todos) -> NoDup (ids (filter p todos)).
Proof.
  induction todos as [|t todos IH]; simpl; intros Hnd; [constructor|].
  inversion Hnd as [|x l Hnotin Hrest]; subst.
  destruct (p t); simpl; [|auto].
  constructor; [|auto].
  intros Hin. apply Hnotin. unfold ids in *.
  apply in_map_iff in Hin. destruct Hin as (t' & Hid & Hin).
  apply filter_In in Hin. apply in_map_iff. exists t'. tauto.
Qed.

Lemma NoDup_ids_snoc (todos : list Todo) (t : Todo) :
  NoDup (ids todos) -> ~ In (id t) (ids todos) -> NoDup (ids (todos ++ [t])).
Proof.
  intros Hnd Hfresh. unfold ids. rewrite map_app. simpl.
  apply NoDup_app; [exact Hnd|repeat constructor; simpl; tauto|].
  intros x Hx [<-|[]]. exact (Hfresh Hx).
Qed.

(** One operation keeps the ids of the collection pairwise distinct,
    provided a [Create] draws an id the collection does not have. *)
Lemma perform_keeps_ids_distinct (op : Operation) (w : World) :
  NoDup (ids (todosCache w)) ->
  match op with
  | Create env _ => ~ In (randomUUID env) (ids (todosCache w))
  | _ => True
  end ->
  NoDup (ids (todosCache (snd (perform op w)))).
Proof.
  intros Hnd Hfresh.
  destruct op as [env input|input|id'|id'|activeId overId]; simpl.
  - unfold bind. rewrite addTodo_run. cbn [fst snd].
    rewrite persistToStorage_run. unfold ret. cbn [snd todosCache].
    apply NoDup_ids_snoc; assumption.
  - rewrite updateTodo_run, persistToStorage_run. cbn [snd todosCache].
    rewrite (ids_map_cond (fun todo => streq (id todo) (u_id input))); auto.
  - rewrite deleteTodo_run, persistToStorage_run. cbn [snd todosCache].
    apply NoDup_ids_filter. exact Hnd.
  - rewrite toggleTodo_run, persistToStorage_run. cbn [snd todosCache].
    rewrite (ids_map_cond (fun todo => streq (id todo) id')
                          (fun todo => setCompleted (negb (completed todo)) todo)); auto.
  - destruct (position activeId (todosCache w)) as [i|] eqn:Pi;
      [destruct (position overId (todosCache w)) as [j|] eqn:Pj|].
    + destruct (position_Some _ _ _ Pi) as [(moved & Hm & _) _].
      rewrite (reorderTodos_found _ _ _ _ _ _ Pi Pj Hm), persistToStorage_run.
      cbn [snd todosCache]. unfold mapIndexed. rewrite ids_mapFrom_setOrder.
      apply (Permutation_NoDup (l := ids (todosCache w))); [|exact Hnd].
      symmetry. unfold ids. apply Permutation_map, move_Permutation. exact Hm.
    + rewrite reorderTodos_not_found by (right; exact Pj). exact Hnd.
    + rewrite reorderTodos_not_found by (left; exact Pi). exact Hnd.
Qed.

Lemma performAll_cons (op : Operation) (rest : list Operation) (w : World) :
  performAll (op :: rest) w = performAll rest (snd (perform op w)).
Proof.
  simpl. unfold bind. pose proof (perform_returns op w) as Hr.
  destruct (perform op w) as [r w']. simpl in Hr. subst r. reflexivity.
Qed.

Lemma performAll_keeps_ids_distinct (ops : list Operation) (w : World) :
  NoDup (ids (todosCache w)) ->
  drawsFreshIds ops w ->
  fst (performAll ops w) = Returned tt /\
  NoDup (ids (todosCache (snd (performAll ops w)))).
Proof.
  revert w. induction ops as [|op ops IH]; intros w Hnd Hfresh.
  - split; [reflexivity|exact Hnd].
  - rewrite performAll_cons. destruct Hfresh as [Hop Hrest].
    apply IH; [|exact Hrest].
    apply perform_keeps_ids_distinct; assumption.
Qed.

(** C5.  After any finite sequence of operations on an initially empty
    collection in which every creation draws an id the collection does not
    hold, each id of the resulting snapshot occurs in it exactly once. *)
Theorem ids_stay_unique (ops : list Operation) (w : World) :
  todosCache w = [] ->
  drawsFreshIds ops w ->
  fst (performAll ops w) = Returned tt /\
  NoDup (ids (todosCache (snd (performAll ops w)))) /\
  (forall i, In i (ids (todosCache (snd (performAll ops w)))) ->
             count_occ jsstring_eq_dec
               (ids (todosCache (snd (performAll ops w)))) i = 1%nat).
Proof.
  intros Hempty Hfresh.
  destruct (performAll_keeps_ids_distinct ops w) as [Hr Hnd].
  - rewrite Hempty. constructor.
  - exact Hfresh.
  - repeat split; [exact Hr|exact Hnd|].
    intros i Hi. apply NoDup_count_occ'; assumption.
Qed.

(** ** Sorting *)

Section SortFacts.
Context {A : Type}.
Variable compareFn : A -> A -> option Z.

Lemma insertSorted_Permutation (x : A) (l : list A) :
  Permutation (insertSorted compareFn x l) (x :: l).
Proof.
  induction l as [|y l IH]; simpl; [reflexivity|].
  destruct (after compareFn x y); [|reflexivity].
  rewrite IH. apply perm_swap.
Qed.

Lemma arraySort_Permutation (l : list A) : Permutation (arraySort compareFn l) l.
Proof.
  induction l as [|x l IH]; simpl; [reflexivity|].
  rewrite insertSorted_Permutation. constructor. exact IH.
Qed.

(** Stability: elements of a class within which the comparator never says
    "behind" keep their order. *)
Lemma insertSorted_filter (p : A -> bool) (x : A) (l : list A) :
  (forall a b, p a = true -> p b = true -> after compareFn a b = false) ->
  filter p (insertSorted compareFn x l) = filter p (x :: l).
Proof.
  intros Htier. induction l as [|y l IH]; [reflexivity|].
  cbn [insertSorted]. destruct (after compareFn x y) eqn:E; [|reflexivity].
  cbn [filter] in *. rewrite IH.
  destruct (p x) eqn:Px, (p y) eqn:Py; try reflexivity.
  rewrite (Htier x y Px Py) in E. discriminate.
Qed.

Lemma arraySort_filter (p : A -> bool) (l : list A) :
  (forall a b, p a = true -> p b = true -> after compareFn a b = false) ->
  filter p (arraySort compareFn l) = filter p l.
Proof.
  intros Htier. induction l as [|x l IH]; [reflexivity|].
  cbn [arraySort fold_right]. fold (arraySort compareFn l).
  rewrite insertSorted_filter by exact Htier.
  cbn [filter]. rewrite IH. reflexivity.
Qed.

(** Sortedness, for a comparator that agrees with a transitive relation on
    the elements satisfying [ok]. *)
Variable le : A -> A -> Prop.
Variable ok : A -> Prop.
Hypothesis le_trans : forall a b c, le a b -> le b c -> le a c.
Hypothesis not_after_le : forall a b, ok a -> ok b -> after compareFn a b = false -> le a b.
Hypothesis after_le : forall a b, ok a -> ok b -> after compareFn a b = true -> le b a.

Lemma insertSorted_Forall (P : A -> Prop) (x : A) (l : list A) :
  P x -> Forall P l -> Forall P (insertSorted compareFn x l).
Proof.
  intros Hx Hl. rewrite insertSorted_Permutation. constructor; assumption.
Qed.

Lemma insertSorted_sorted (x : A) (l : list A) :
  ok x -> Forall ok l -> StronglySorted le l ->
  StronglySorted le (insertSorted compareFn x l).
Proof.
  intros Hx Hok Hs. induction l as [|y l IH]; simpl.
  - constructor; constructor.
  - inversion Hs as [|y' l' Hsl Hall]; subst.
    inversion Hok as [|y' l' Hy Hokl]; subst.
    destruct (after compareFn x y) eqn:E.
    + constructor; [apply IH; assumption|].
      apply insertSorted_Forall; [|exact Hall].
      apply after_le; assumption.
    + constructor; [exact Hs|].
      assert (Hxy : le x y) by (apply not_after_le; assumption).
      constructor; [exact Hxy|].
      eapply Forall_impl; [|exact Hall].
      intros z Hyz. exact (le_trans _ _ _ Hxy Hyz).
Qed.

Lemma arraySort_sorted (l : list A) :
  Forall ok l -> StronglySorted le (arraySort compareFn l).
Proof.
  induction l as [|x l IH]; intros Hok; simpl; [constructor|].
  inversion Hok as [|x' l' Hx Hl]; subst.
  apply insertSorted_sorted; [exact Hx| |apply IH; exact Hl].
  rewrite arraySort_Permutation. exact Hl.
Qed.
End SortFacts.

Section StableUnique.
Context {A : Type}.
Variable le : A -> A -> Prop.
Variable eqv : A -> A -> bool.
Hypothesis le_refl : forall a, le a a.
Hypothesis eqv_spec : forall a b, eqv a b = true <-> le a b /\ le b a.

(** Two stable sortings of one list are the same list: the result of a
    stable sort does not depend on the algorithm. *)
Lemma stable_sorted_unique (l1 l2 : list A) :
  Permutation l1 l2 ->
  StronglySorted le l1 -> StronglySorted le l2 ->
  (forall x, filter (eqv x) l1 = filter (eqv x) l2) ->
  l1 = l2.
Proof.
  revert l2. induction l1 as [|a t1 IH]; intros l2 Hp Hs1 Hs2 Hf.
  - apply Permutation_nil in Hp. congruence.
  - destruct l2 as [|b t2].
    + apply Permutation_sym, Permutation_nil in Hp. discriminate.
    + inversion Hs1 as [|? ? Hst1 Ha]; subst.
      inversion Hs2 as [|? ? Hst2 Hb]; subst.
      rewrite Forall_forall in Ha, Hb.
      assert (Hab : le a b).
      { assert (Hin : In b (a :: t1)).
        { apply (Permutation_in b (Permutation_sym Hp)). left. reflexivity. }
        destruct Hin as [<-|Hin]; [apply le_refl|apply Ha; exact Hin]. }
      assert (Hba : le b a).
      { assert (Hin : In a (b :: t2)).
        { apply (Permutation_in a Hp). left. reflexivity. }
        destruct Hin as [<-|Hin]; [apply le_refl|apply Hb; exact Hin]. }
      assert (Eaa : eqv a a = true) by (apply eqv_spec; split; apply le_refl).
      assert (Eab : eqv a b = true) by (apply eqv_spec; split; assumption).
      pose proof (Hf a) as Hfa. cbn [filter] in Hfa. rewrite Eaa, Eab in Hfa.
      injection Hfa as <- _.
      f_equal. apply IH; [|exact Hst1|exact Hst2|].
      * apply (Permutation_cons_inv Hp).
      * intros x. pose proof (Hf x) as Hfx. cbn [filter] in Hfx.
        destruct (eqv x a); [injection Hfx as Hfx|]; exact Hfx.
Qed.
End StableUnique.

Lemma StronglySorted_nth_error {A} (R : A -> A -> Prop) (l : list A) :
  StronglySorted R l ->
  forall i j a b,
    (i < j)%nat -> nth_error l i = Some a -> nth_error l j = Some b -> R a b.
Proof.
  induction 1 as [|x l Hs IH Hall]; intros i j a b Hij Ha Hb.
  - destruct i; discriminate.
  - destruct j as [|j]; [lia|]. simpl in Hb. destruct i as [|i]; simpl in Ha.
    + injection Ha as <-. rewrite Forall_forall in Hall.
      apply Hall. eapply nth_error_In. exact Hb.
    + apply (IH i j); [lia|assumption|assumption].
Qed.

(** In a sorted list, an element strictly below another stands before it. *)
Lemma StronglySorted_precedes {A} (R : A -> A -> Prop) (l : list A) :
  StronglySorted R l ->
  forall i j a b,
    nth_error l i = Some a -> nth_error l j = Some b ->
    ~ R b a -> (forall c, R c c) -> (i < j)%nat.
Proof.
  intros Hs i j a b Ha Hb Hnot Hrefl.
  destruct (Nat.lt_trichotomy i j) as [Hlt|[Heq|Hgt]]; [exact Hlt| |].
  - subst j. rewrite Ha in Hb. injection Hb as <-. destruct (Hnot (Hrefl a)).
  - destruct Hnot. exact (StronglySorted_nth_error R l Hs j i b a Hgt Hb Ha).
Qed.

Section SortTodosFacts.
Variable Date_getTime : jsstring -> option Z.

Lemma after_dueDate (a b : Todo) :
  dueDateValid Date_getTime a -> dueDateValid Date_getTime b ->
  after (compareTodos Date_getTime SortDueDate) a b =
  if falsy (dueDate a) then negb (falsy (dueDate b))
  else if falsy (dueDate b) then false
  else dueTime Date_getTime b <? dueTime Date_getTime a.
Proof.
  unfold dueDateValid, hasDueDate, after, compareTodos, dueTime. intros Ha Hb.
  destruct (falsy (dueDate a)) eqn:Fa, (falsy (dueDate b)) eqn:Fb; simpl;
    try reflexivity.
  destruct (getTime Date_getTime (dueDate a)) as [x|]; [|destruct (Ha eq_refl eq_refl)].
  destruct (getTime Date_getTime (dueDate b)) as [y|]; [|destruct (Hb eq_refl eq_refl)].
  simpl. destruct (Z.ltb_spec 0 (x - y)), (Z.ltb_spec y x); lia || reflexivity.
Qed.

Lemma dueLe_trans (a b c : Todo) :
  dueLe Date_getTime a b -> dueLe Date_getTime b c -> dueLe Date_getTime a c.
Proof.
  unfold dueLe.
  destruct (falsy (dueDate a)), (falsy (dueDate b)), (falsy (dueDate c));
    try tauto; lia.
Qed.

Lemma sortTodos_dueDate_sorted (todos : list Todo) :
  Forall (dueDateValid Date_getTime) todos ->
  StronglySorted (dueLe Date_getTime) (sortTodos Date_getTime todos SortDueDate).
Proof.
  intros Hv. unfold sortTodos.
  apply (arraySort_sorted _ (dueLe Date_getTime) (dueDateValid Date_getTime)); [| | |exact Hv].
  - exact dueLe_trans.
  - intros a b Ha Hb. rewrite (after_dueDate a b Ha Hb). unfold dueLe.
    destruct (falsy (dueDate a)), (falsy (dueDate b)); simpl;
      try tauto; try discriminate.
    intros H. apply Z.ltb_ge in H. exact H.
  - intros a b Ha Hb. rewrite (after_dueDate a b Ha Hb). unfold dueLe.
    destruct (falsy (dueDate a)), (falsy (dueDate b)); simpl;
      try tauto; try discriminate.
    intros H. apply Z.ltb_lt in H. lia.
Qed.

Lemma after_priority (a b : Todo) :
  after (compareTodos Date_getTime SortPriority) a b =
  (PRIORITY_ORDER (priority b) <? PRIORITY_ORDER (priority a)).
Proof.
  unfold after, compareTodos.
  destruct (Z.ltb_spec 0 (PRIORITY_ORDER (priority a) - PRIORITY_ORDER (priority b))),
    (Z.ltb_spec (PRIORITY_ORDER (priority b)) (PRIORITY_ORDER (priority a)));
    lia || reflexivity.
Qed.

Lemma sortTodos_priority_sorted (todos : list Todo) :
  StronglySorted priorityLe (sortTodos Date_getTime todos SortPriority).
Proof.
  unfold sortTodos.
  apply (arraySort_sorted _ priorityLe (fun _ => True)).
  - unfold priorityLe. intros a b c. lia.
  - intros a b _ _. rewrite after_priority. unfold priorityLe.
    intros H. apply Z.ltb_ge in H. exact H.
  - intros a b _ _. rewrite after_priority. unfold priorityLe.
    intros H. apply Z.ltb_lt in H. lia.
  - apply Forall_forall. intros; exact I.
Qed.

Lemma sortTodos_priority_stable (todos : list Todo) (p : Priority) :
  filter (hasPriority p) (sortTodos Date_getTime todos SortPriority)
  = filter (hasPriority p) todos.
Proof.
  apply arraySort_filter. intros a b Pa Pb.
  rewrite after_priority. unfold hasPriority in *.
  destruct (Priority_eq_dec (priority a) p) as [Ea|]; [|discriminate].
  destruct (Priority_eq_dec (priority b) p) as [Eb|]; [|discriminate].
  apply Z.ltb_ge. rewrite Ea, Eb. lia.
Qed.

(** Whatever algorithm sorts by priority, if it is stable it returns the
    list [sortTodos] returns. *)
Lemma sortTodos_priority_unique (todos sorted : list Todo) :
  Permutation sorted todos ->
  StronglySorted priorityLe sorted ->
  (forall p, filter (hasPriority p) sorted = filter (hasPriority p) todos) ->
  sorted = sortTodos Date_getTime todos SortPriority.
Proof.
  intros Hp Hs Hf.
  apply (stable_sorted_unique priorityLe (fun a b => hasPriority (priority a) b)).
  - intros a. unfold priorityLe. lia.
  - intros a b. unfold hasPriority, priorityLe.
    destruct (Priority_eq_dec (priority b) (priority a)) as [E|E].
    + rewrite E. split; [lia|reflexivity].
    + split; [discriminate|]. intros [H1 H2]. exfalso. apply E.
      destruct (priority a), (priority b); simpl in *; lia || reflexivity.
  - rewrite Hp. symmetry. apply arraySort_Permutation.
  - exact Hs.
  - apply sortTodos_priority_sorted.
  - intros x. rewrite Hf, sortTodos_priority_stable. reflexivity.
Qed.

Lemma sortTodos_dueDate_stable (todos : list Todo) (x : Todo) :
  filter (dueEqv Date_getTime x) (sortTodos Date_getTime todos SortDueDate)
  = filter (dueEqv Date_getTime x) todos.
Proof.
  apply arraySort_filter. intros a b.
  unfold dueEqv, dueTime, after, compareTodos.
  destruct (falsy (dueDate x)).
  - intros -> ->. reflexivity.
  - intros Ha Hb. apply andb_true_iff in Ha, Hb.
    destruct Ha as [Fa Ta], Hb as [Fb Tb].
    apply negb_true_iff in Fa, Fb. rewrite Fa, Fb. simpl.
    apply Z.eqb_eq in Ta, Tb.
    destruct (getTime Date_getTime (dueDate a)) as [ta|],
             (getTime Date_getTime (dueDate b)) as [tb|]; simpl; try reflexivity.
    apply Z.ltb_ge. lia.
Qed.

(** Whatever algorithm sorts valid items by due date, if it is stable it
    returns the list [sortTodos] returns. *)
Lemma sortTodos_dueDate_unique (todos sorted : list Todo) :
  Forall (dueDateValid Date_getTime) todos ->
  Permutation sorted todos ->
  StronglySorted (dueLe Date_getTime) sorted ->
  (forall x, filter (dueEqv Date_getTime x) sorted
             = filter (dueEqv Date_getTime x) todos) ->
  sorted = sortTodos Date_getTime todos SortDueDate.
Proof.
  intros Hv Hp Hs Hf.
  apply (stable_sorted_unique (dueLe Date_getTime) (dueEqv Date_getTime)).
  - intros a. unfold dueLe. destruct (falsy (dueDate a)); [exact I|lia].
  - intros a b. unfold dueLe, dueEqv.
    destruct (falsy (dueDate a)), (falsy (dueDate b)); simpl;
      try (split; [discriminate|tauto]); try tauto.
    rewrite Z.eqb_eq. lia.
  - rewrite Hp. symmetry. apply arraySort_Permutation.
  - exact Hs.
  - apply sortTodos_dueDate_sorted. exact Hv.
  - intros x. rewrite Hf, sortTodos_dueDate_stable. reflexivity.
Qed.




(** C7.  Sorting by priority: the result holds the same items; each high
    item stands before each medium item and each medium item before each
    low item; the items of one priority keep their relative order. *)
Theorem sort_by_priority (todos : list Todo) :
  let sorted := sortTodos Date_getTime todos SortPriority in
  Permutation sorted todos /\
  (forall i j a b,
     nth_error sorted i = Some a -> nth_error sorted j = Some b ->
     (priority a = high /\ priority b = medium) \/
     (priority a = medium /\ priority b = low) \/
     (priority a = high /\ priority b = low) ->
     (i < j)%nat) /\
  (forall p, filter (hasPriority p) sorted = filter (hasPriority p) todos).
Proof.
  intros sorted.
  pose proof (sortTodos_priority_sorted todos) as Hs. fold sorted in Hs.
  split; [apply arraySort_Permutation|]. split.
  - intros i j a b Ha Hb Hp.
    apply (StronglySorted_precedes _ _ Hs i j a b Ha Hb).
    + unfold priorityLe.
      destruct Hp as [[-> ->]|[[-> ->]|[-> ->]]]; simpl; lia.
    + intros c. unfold priorityLe. lia.
  - intros p. apply sortTodos_priority_stable.
Qed.

(** Outside that domain the comparator answers [NaN] for a due date that
    does not parse, and the items around it are left as they stood. *)
Remark unparseable_dueDate_is_not_ordered (a x b : Todo) (ta tb : Z) :
  hasDueDate a = true -> hasDueDate x = true -> hasDueDate b = true ->
  getTime Date_getTime (dueDate a) = Some ta ->
  getTime Date_getTime (dueDate x) = None ->
  getTime Date_getTime (dueDate b) = Some tb ->
  sortTodos Date_getTime [a; x; b] SortDueDate = [a; x; b].
Proof.
  unfold hasDueDate. intros Da Dx Db Ta Tx Tb.
  apply negb_true_iff in Da, Dx, Db.
  assert (Hxb : after (compareTodos Date_getTime SortDueDate) x b = false).
  { unfold after, compareTodos. rewrite Dx, Db, Tx. reflexivity. }
  assert (Hax : after (compareTodos Date_getTime SortDueDate) a x = false).
  { unfold after, compareTodos. rewrite Da, Dx, Ta, Tx. reflexivity. }
  unfold sortTodos, arraySort. cbn [fold_right insertSorted].
  rewrite Hxb. cbn [insertSorted]. rewrite Hax. reflexivity.
Qed.
End SortTodosFacts.


(** ** The JSON round trip *)

Lemma hexValue_hexDigit (d : N) : (d < 16)%N -> hexValue (hexDigit d) = Some d.
Proof.
  intros Hd. unfold hexDigit, hexValue.
  destruct (N.ltb_spec d 10).
  - replace ((48 <=? 48 + d) && (48 + d <=? 57))%N with true.
    + f_equal. lia.
    + symmetry. apply andb_true_iff. split; apply N.leb_le; lia.
  - replace ((48 <=? 87 + d) && (87 + d <=? 57))%N with false.
    + replace ((97 <=? 87 + d) && (87 + d <=? 102))%N with true.
      * f_equal. lia.
      * symmetry. apply andb_true_iff. split; apply N.leb_le; lia.
    + symmetry. apply andb_false_iff. right. apply N.leb_gt. lia.
Qed.

Lemma hex_recompose (c : N) :
  (c < 65536)%N ->
  (c / 4096 mod 16 * 4096 + c / 256 mod 16 * 256 + c / 16 mod 16 * 16 + c mod 16 = c)%N.
Proof.
  intros Hc.
  pose proof (N.div_mod c 16 ltac:(lia)) as H1.
  pose proof (N.div_mod (c / 16) 16 ltac:(lia)) as H2.
  pose proof (N.div_mod (c / 16 / 16) 16 ltac:(lia)) as H3.
  rewrite N.Div0.div_div in H2, H3. rewrite N.Div0.div_div in H3.
  change (16 * 16)%N with 256%N in *. change (256 * 16)%N with 4096%N in *.
  assert (H4 : (c / 4096 < 16)%N) by (apply N.Div0.div_lt_upper_bound; lia).
  rewrite (N.mod_small (c / 4096) 16 H4). lia.
Qed.

Lemma parseChars_unicodeEscape (c : N) (tail : jsstring) :
  (c < 65536)%N ->
  parseChars (unicodeEscape c ++ tail) = consResult c (parseChars tail).
Proof.
  intros Hc. unfold unicodeEscape. cbn [app parseChars].
  change (92 =? 34)%N with false. change (92 =? 92)%N with true.
  change (117 =? 117)%N with true. cbv iota.
  rewrite !hexValue_hexDigit by (apply N.mod_lt; lia).
  rewrite hex_recompose by exact Hc. reflexivity.
Qed.

Lemma parseChars_raw (c : N) (tail : jsstring) :
  (32 <= c)%N -> c <> 34%N -> c <> 92%N ->
  parseChars (c :: tail) = consResult c (parseChars tail).
Proof.
  intros H32 H34 H92. cbn [parseChars].
  destruct (N.eqb_spec c 34); [contradiction|].
  destruct (N.eqb_spec c 92); [contradiction|].
  destruct (N.ltb_spec c 32); [lia|]. reflexivity.
Qed.

Lemma parseChars_quoteUnit (c : N) (tail : jsstring) :
  parseChars (quoteUnit c ++ tail) = consResult c (parseChars tail).
Proof.
  unfold quoteUnit.
  destruct (N.eqb_spec c 8) as [->|]; [reflexivity|].
  destruct (N.eqb_spec c 9) as [->|]; [reflexivity|].
  destruct (N.eqb_spec c 10) as [->|]; [reflexivity|].
  destruct (N.eqb_spec c 12) as [->|]; [reflexivity|].
  destruct (N.eqb_spec c 13) as [->|]; [reflexivity|].
  destruct (N.eqb_spec c 34) as [->|]; [reflexivity|].
  destruct (N.eqb_spec c 92) as [->|]; [reflexivity|].
  destruct (N.ltb_spec c 32).
  - apply parseChars_unicodeEscape. lia.
  - apply parseChars_raw; assumption.
Qed.

Lemma surrogate_range (c : N) :
  isLeadingSurrogate c = true \/ isTrailingSurrogate c = true ->
  (55296 <= c <= 57343)%N.
Proof.
  unfold isLeadingSurrogate, isTrailingSurrogate.
  intros [H|H]; apply andb_true_iff in H; destruct H as [H1 H2];
    apply N.leb_le in H1, H2; lia.
Qed.

(** Reading back the body of a quoted string gives the string. *)
Lemma parseChars_quoteUnits (s : jsstring) (prevLead : bool) (rest : jsstring) :
  parseChars (quoteUnits prevLead s ++ 34%N :: rest) = Some (s, rest).
Proof.
  revert prevLead. induction s as [|c s IH]; intros prevLead.
  - reflexivity.
  - cbn [quoteUnits]. rewrite <- app_assoc.
    assert (Hsur : isLeadingSurrogate c = true \/ isTrailingSurrogate c = true ->
                   parseChars ([c] ++ quoteUnits (isLeadingSurrogate c) s ++ 34%N :: rest)
                   = Some (c :: s, rest) /\
                   parseChars (unicodeEscape c ++ quoteUnits (isLeadingSurrogate c) s
                                 ++ 34%N :: rest) = Some (c :: s, rest)).
    { intros H. apply surrogate_range in H. split.
      - cbn [app]. rewrite parseChars_raw by lia. rewrite IH. reflexivity.
      - rewrite parseChars_unicodeEscape by lia. rewrite IH. reflexivity. }
    destruct (isLeadingSurrogate c) eqn:Lc.
    + destruct (Hsur (or_introl eq_refl)) as [Hraw Hesc].
      destruct s as [|d s']; [exact Hesc|].
      destruct (isTrailingSurrogate d); [exact Hraw|exact Hesc].
    + destruct (isTrailingSurrogate c) eqn:Tc.
      * destruct (Hsur (or_intror eq_refl)) as [Hraw Hesc].
        destruct prevLead; [exact Hraw|exact Hesc].
      * rewrite parseChars_quoteUnit. rewrite IH. reflexivity.
Qed.

Lemma skipWs_head (c : N) (s : jsstring) :
  isJSONWhiteSpace c = false -> skipWs (c :: s) = c :: s.
Proof. intros H. simpl. rewrite H. reflexivity. Qed.

(** *** Numbers *)

Lemma digitsOfUint_digits (u : Decimal.uint) : Forall (fun c => isDigit c = true) (digitsOfUint u).
Proof. induction u; simpl; constructor; auto. Qed.

Lemma uintOfDigits_digitsOfUint (u : Decimal.uint) : uintOfDigits (digitsOfUint u) = u.
Proof. induction u; simpl; congruence. Qed.

Lemma takeDigits_app (ds rest : jsstring) :
  Forall (fun c => isDigit c = true) ds ->
  endsValue rest ->
  takeDigits (ds ++ rest) = (ds, rest).
Proof.
  intros Hds Hrest. induction Hds as [|c ds Hc _ IH]; simpl.
  - destruct rest as [|c rest]; [reflexivity|]. simpl in Hrest.
    destruct Hrest as [->|[->| ->]]; reflexivity.
  - rewrite Hc, IH. reflexivity.
Qed.

Lemma to_uint_pos_head (p : positive) :
  exists d ds, digitsOfUint (N.to_uint (Npos p)) = d :: ds /\
               isDigit d = true /\ d <> 48%N.
Proof.
  pose proof (DecimalPos.Unsigned.to_uint_nonzero p) as Hnz.
  pose proof (DecimalPos.Unsigned.to_uint_nonnil p) as Hnn.
  pose proof (DecimalN.Unsigned.to_of (N.to_uint (Npos p))) as Hnorm.
  rewrite DecimalN.Unsigned.of_to in Hnorm.
  change (N.to_uint (N.pos p)) with (Pos.to_uint p) in *.
  remember (Pos.to_uint p) as u eqn:Eu. clear Eu.
  assert (Hnzh : Decimal.nzhead u <> Decimal.Nil).
  { intros Hnil. apply Hnz. rewrite Hnorm. apply DecimalFacts.unorm_0. exact Hnil. }
  pose proof (DecimalFacts.unorm_nzhead u Hnzh) as Hun.
  assert (Hhead : forall r, u <> Decimal.D0 r).
  { intros r Hr. apply (DecimalFacts.nzhead_nonzero u r).
    rewrite <- Hun, <- Hnorm. exact Hr. }
  destruct u as [|r|r|r|r|r|r|r|r|r|r]; simpl;
    try (eexists; eexists; split; [reflexivity|split; [reflexivity|discriminate]]).
  - destruct (Hnn eq_refl).
  - destruct (Hhead r eq_refl).
Qed.

Lemma parseNumber_digits (d : N) (ds rest : jsstring) (negative : bool) :
  Forall (fun c => isDigit c = true) (d :: ds) ->
  (d = 48%N -> ds = []) ->
  endsValue rest ->
  parseNumber ((if negative then [45%N] else []) ++ (d :: ds) ++ rest)
  = Some (JNum (let n := Z.of_N (N.of_uint (uintOfDigits (d :: ds))) in
                if negative then - n else n), rest).
Proof.
  intros Hds Hzero Hrest. unfold parseNumber.
  assert (Hd : d <> 45%N).
  { inversion Hds as [|? ? Hd _]; subst. intros ->. discriminate. }
  destruct negative; cbn [app].
  - change (45 =? 45)%N with true. cbv iota.
    change (d :: ds ++ rest) with ((d :: ds) ++ rest).
    rewrite (takeDigits_app _ _ Hds Hrest).
    destruct (N.eqb_spec d 48) as [E|E].
    + rewrite (Hzero E). cbn [negb andb].
      destruct rest as [|c rest]; [reflexivity|].
      simpl in Hrest. destruct Hrest as [->|[->| ->]]; reflexivity.
    + cbn [andb].
      destruct rest as [|c rest]; [reflexivity|].
      simpl in Hrest. destruct Hrest as [->|[->| ->]]; reflexivity.
  - destruct (N.eqb_spec d 45); [contradiction|].
    change (d :: ds ++ rest) with ((d :: ds) ++ rest).
    rewrite (takeDigits_app _ _ Hds Hrest).
    destruct (N.eqb_spec d 48) as [E|E].
    + rewrite (Hzero E). cbn [negb andb].
      destruct rest as [|c rest]; [reflexivity|].
      simpl in Hrest. destruct Hrest as [->|[->| ->]]; reflexivity.
    + cbn [andb].
      destruct rest as [|c rest]; [reflexivity|].
      simpl in Hrest. destruct Hrest as [->|[->| ->]]; reflexivity.
Qed.

Lemma parseNumber_numberToString (z : Z) (rest : jsstring) :
  endsValue rest ->
  parseNumber (numberToString z ++ rest) = Some (JNum z, rest).
Proof.
  intros Hrest. destruct z as [|p|p]; unfold numberToString.
  - apply (parseNumber_digits 48%N [] rest false); auto.
  - destruct (to_uint_pos_head p) as (d & ds & Hu & Hd & Hnz).
    pose proof (digitsOfUint_digits (N.to_uint (Npos p))) as Hall.
    rewrite Hu in *.
    pose proof (parseNumber_digits d ds rest false Hall) as H.
    cbn [app] in *. rewrite H; [|tauto|exact Hrest].
    rewrite <- Hu, uintOfDigits_digitsOfUint, DecimalN.Unsigned.of_to.
    reflexivity.
  - destruct (to_uint_pos_head p) as (d & ds & Hu & Hd & Hnz).
    pose proof (digitsOfUint_digits (N.to_uint (Npos p))) as Hall.
    rewrite Hu in *.
    pose proof (parseNumber_digits d ds rest true Hall) as H.
    cbn [app] in *. rewrite H; [|tauto|exact Hrest].
    rewrite <- Hu, uintOfDigits_digitsOfUint, DecimalN.Unsigned.of_to.
    reflexivity.
Qed.

(** *** Values *)

Lemma json_induction (P : json -> Prop) :
  P JNull ->
  (forall b, P (JBool b)) ->
  (forall z, P (JNum z)) ->
  (forall lexeme, P (JFrac lexeme)) ->
  (forall s, P (JStr s)) ->
  (forall elems, Forall P elems -> P (JArr elems)) ->
  (forall members, Forall (fun kv => P (snd kv)) members -> P (JObj members)) ->
  forall v, P v.
Proof.
  intros Hnull Hbool Hnum Hfrac Hstr Harr Hobj.
  fix IH 1. intros v. destruct v as [|b|z|lexeme|s|elems|members].
  - exact Hnull.
  - apply Hbool.
  - apply Hnum.
  - apply Hfrac.
  - apply Hstr.
  - apply Harr. induction elems as [|x l IHl]; constructor; [apply IH|exact IHl].
  - apply Hobj. induction members as [|[k x] l IHl]; constructor;
      [apply IH|exact IHl].
Qed.

Lemma parseValue_S (fuel : nat) (s : jsstring) :
  parseValue (S fuel) s =
  match skipWs s with
  | [] => None
  | c :: rest =>
      if (c =? 34)%N then
        match parseChars rest with
        | Some (chars, r) => Some (JStr chars, r)
        | None => None
        end
      else if (c =? 91)%N then
        match skipWs rest with
        | d :: r =>
            if (d =? 93)%N then Some (JArr [], r)
            else match parseElements fuel rest with
                 | Some (vs, r') => Some (JArr vs, r')
                 | None => None
                 end
        | [] => None
        end
      else if (c =? 123)%N then
        match skipWs rest with
        | d :: r =>
            if (d =? 125)%N then Some (JObj [], r)
            else match parseMembers fuel rest with
                 | Some (ms, r') => Some (JObj ms, r')
                 | None => None
                 end
        | [] => None
        end
      else if (c =? 110)%N then
        match expect (str "ull") rest with Some r => Some (JNull, r) | None => None end
      else if (c =? 116)%N then
        match expect (str "rue") rest with Some r => Some (JBool true, r) | None => None end
      else if (c =? 102)%N then
        match expect (str "alse") rest with Some r => Some (JBool false, r) | None => None end
      else if (c =? 45)%N || isDigit c then parseNumber (c :: rest)
      else None
  end.
Proof. reflexivity. Qed.

Lemma parseElements_S (fuel : nat) (s : jsstring) :
  parseElements (S fuel) s =
  match parseValue fuel s with
  | None => None
  | Some (v, r) =>
      match skipWs r with
      | c :: r' =>
          if (c =? 44)%N then consResult v (parseElements fuel r')
          else if (c =? 93)%N then Some ([v], r')
          else None
      | [] => None
      end
  end.
Proof. reflexivity. Qed.

Lemma parseMembers_S (fuel : nat) (s : jsstring) :
  parseMembers (S fuel) s =
  match skipWs s with
  | c :: r =>
      if (c =? 34)%N then
        match parseChars r with
        | None => None
        | Some (key, r1) =>
            match skipWs r1 with
            | c1 :: r2 =>
                if (c1 =? 58)%N then
                  match parseValue fuel r2 with
                  | None => None
                  | Some (v, r3) =>
                      match skipWs r3 with
                      | c3 :: r4 =>
                          if (c3 =? 44)%N then consResult (key, v) (parseMembers fuel r4)
                          else if (c3 =? 125)%N then Some ([(key, v)], r4)
                          else None
                      | [] => None
                      end
                  end
                else None
            | [] => None
            end
        end
      else None
  | [] => None
  end.
Proof. reflexivity. Qed.

Lemma numberToString_head (z : Z) :
  exists c s, numberToString z = c :: s /\ ((c =? 45)%N || isDigit c = true).
Proof.
  destruct z as [|p|p]; unfold numberToString.
  - exists 48%N, []. split; reflexivity.
  - destruct (to_uint_pos_head p) as (d & ds & -> & Hd & _).
    exists d, ds. split; [reflexivity|]. rewrite Hd. apply orb_true_r.
  - eexists. eexists. split; reflexivity.
Qed.

Lemma number_head_chain (c : N) :
  (c =? 45)%N || isDigit c = true ->
  (c =? 34)%N = false /\ (c =? 91)%N = false /\ (c =? 123)%N = false /\
  (c =? 110)%N = false /\ (c =? 116)%N = false /\ (c =? 102)%N = false /\
  isJSONWhiteSpace c = false /\ c <> 93%N /\ c <> 125%N.
Proof.
  intros H. apply orb_true_iff in H.
  assert (Hc : c = 45%N \/ (48 <= c <= 57)%N).
  { destruct H as [H|H].
    - left. apply N.eqb_eq. exact H.
    - right. unfold isDigit in H. apply andb_true_iff in H.
      destruct H as [H1 H2]. apply N.leb_le in H1, H2. lia. }
  unfold isJSONWhiteSpace.
  repeat split;
    try (apply N.eqb_neq; lia); try lia.
  repeat (apply orb_false_iff; split); apply N.eqb_neq; lia.
Qed.

Lemma serializeJSON_starts (v : json) : integral v -> startsValue (serializeJSON v).
Proof.
  destruct v as [|[|]|z|lexeme|s|elems|members]; simpl; intros Hi;
    try (repeat split; discriminate).
  - destruct (numberToString_head z) as (c & s & -> & Hc).
    apply number_head_chain in Hc. simpl. tauto.
  - destruct Hi.
Qed.

Lemma parseValue_number (fuel : nat) (z : Z) (rest : jsstring) :
  endsValue rest ->
  parseValue (S fuel) (numberToString z ++ rest) = Some (JNum z, rest).
Proof.
  intros Hrest. rewrite parseValue_S.
  pose proof (parseNumber_numberToString z rest Hrest) as Hp.
  destruct (numberToString_head z) as (c & s & E & Hc).
  rewrite E in *. cbn [app] in *.
  pose proof (number_head_chain c Hc) as (H1 & H2 & H3 & H4 & H5 & H6 & Hw & _).
  rewrite (skipWs_head _ _ Hw), H1, H2, H3, H4, H5, H6, Hc. exact Hp.
Qed.

(** The parser looks at a known character [c] that is not white space and
    finds the character it tests for. *)
Ltac read c :=
  rewrite skipWs_head by reflexivity;
  change (c =? c)%N with true; cbv iota.

Lemma startsValue_app (s t : jsstring) : startsValue s -> startsValue (s ++ t).
Proof. destruct s; simpl; tauto. Qed.

Lemma startsValue_skipWs (s : jsstring) :
  startsValue s ->
  exists c r, s = c :: r /\ skipWs s = c :: r /\ c <> 93%N /\ c <> 125%N.
Proof.
  destruct s as [|c r]; simpl; [tauto|]. intros (Hw & H1 & H2).
  exists c, r. rewrite Hw. auto.
Qed.

Lemma parseElements_serializeElements (elems : list json) :
  Forall readsBack elems ->
  elems <> [] ->
  allElements integral elems ->
  forall fuel rest,
    (fuelForElements fuelFor elems <= fuel)%nat ->
    parseElements fuel (serializeElements serializeJSON elems ++ 93%N :: rest)
    = Some (elems, rest).
Proof.
  induction 1 as [|x l Hx Hl IH]; intros Hne Hint fuel rest Hfuel; [congruence|].
  destruct Hint as [Hix Hil]. cbn [fuelForElements] in Hfuel.
  destruct fuel as [|fuel]; [lia|]. rewrite parseElements_S.
  destruct l as [|y l'].
  - cbn [serializeElements].
    rewrite (Hx Hix fuel (93%N :: rest)); [reflexivity|lia|simpl; auto].
  - change (serializeElements serializeJSON (x :: y :: l'))
      with (serializeJSON x ++ 44%N :: serializeElements serializeJSON (y :: l')).
    rewrite <- app_assoc. cbn [app].
    rewrite (Hx Hix fuel); [|lia|simpl; auto].
    read 44%N.
    rewrite IH; [reflexivity|discriminate|exact Hil|lia].
Qed.

Lemma parseMembers_serializeMembers (members : list (jsstring * json)) :
  Forall (fun kv => readsBack (snd kv)) members ->
  members <> [] ->
  allMembers integral members ->
  forall fuel rest,
    (fuelForMembers fuelFor members <= fuel)%nat ->
    parseMembers fuel (serializeMembers serializeJSON members ++ 125%N :: rest)
    = Some (members, rest).
Proof.
  induction 1 as [|[k x] l Hx Hl IH]; intros Hne Hint fuel rest Hfuel; [congruence|].
  destruct Hint as [Hix Hil]. cbn [fuelForMembers] in Hfuel. cbn [snd] in Hx.
  destruct fuel as [|fuel]; [lia|]. rewrite parseMembers_S.
  destruct l as [|[k' y] l'].
  - cbn [serializeMembers]. unfold quoteJSONString.
    cbn [app]. rewrite <- !app_assoc. cbn [app].
    read 34%N.
    rewrite parseChars_quoteUnits.
    read 58%N.
    rewrite (Hx Hix fuel (125%N :: rest)); [reflexivity|lia|simpl; auto].
  - change (serializeMembers serializeJSON ((k, x) :: (k', y) :: l'))
      with (quoteJSONString k ++ 58%N :: serializeJSON x
              ++ 44%N :: serializeMembers serializeJSON ((k', y) :: l')).
    unfold quoteJSONString at 1.
    cbn [app]. rewrite <- !app_assoc. cbn [app].
    read 34%N.
    rewrite parseChars_quoteUnits.
    read 58%N.
    rewrite <- app_assoc. cbn [app].
    rewrite (Hx Hix fuel); [|lia|simpl; auto].
    read 44%N.
    rewrite IH; [reflexivity|discriminate|exact Hil|lia].
Qed.

Lemma serializeElements_starts (elems : list json) (tail : jsstring) :
  elems <> [] -> allElements integral elems ->
  startsValue (serializeElements serializeJSON elems ++ tail).
Proof.
  destruct elems as [|x l]; [congruence|]. intros _ [Hx _].
  apply startsValue_app.
  destruct l; cbn [serializeElements];
    [|apply startsValue_app]; apply serializeJSON_starts; exact Hx.
Qed.

(** Reading the serialization of a value gives the value back, whatever
    follows it in the text. *)
Lemma parseValue_serializeJSON (v : json) : readsBack v.
Proof.
  induction v as [|b|z|lexeme|s|elems IH|members IH] using json_induction;
    intros Hint fuel rest Hfuel Hrest;
    (destruct fuel as [|fuel]; [simpl in Hfuel; lia|]).
  - reflexivity.
  - destruct b; reflexivity.
  - apply parseValue_number. exact Hrest.
  - destruct Hint.
  - rewrite parseValue_S. cbn [serializeJSON]. unfold quoteJSONString.
    cbn [app]. rewrite <- app_assoc. cbn [app].
    read 34%N.
    rewrite parseChars_quoteUnits. reflexivity.
  - rewrite parseValue_S. cbn [serializeJSON app]. rewrite <- app_assoc.
    cbn [app]. rewrite skipWs_head by reflexivity.
    change (91 =? 34)%N with false. change (91 =? 91)%N with true. cbv iota.
    destruct elems as [|x l]; [reflexivity|].
    assert (Hne : x :: l <> []) by discriminate.
    destruct (startsValue_skipWs _
                (serializeElements_starts (x :: l) (93%N :: rest) Hne Hint))
      as (c & r & E & -> & Hc & _).
    destruct (N.eqb_spec c 93); [contradiction|].
    rewrite parseElements_serializeElements; auto.
    cbn [fuelFor] in Hfuel. lia.
  - rewrite parseValue_S. cbn [serializeJSON app]. rewrite <- app_assoc.
    cbn [app]. rewrite skipWs_head by reflexivity.
    change (123 =? 34)%N with false. change (123 =? 91)%N with false.
    change (123 =? 123)%N with true. cbv iota.
    destruct members as [|[k x] l]; [reflexivity|].
    assert (Hne : (k, x) :: l <> []) by discriminate.
    assert (Hs : exists r,
               skipWs (serializeMembers serializeJSON ((k, x) :: l) ++ 125%N :: rest)
               = 34%N :: r).
    { destruct l as [|[k' y] l']; cbn [serializeMembers]; unfold quoteJSONString;
        cbn [app]; rewrite skipWs_head by reflexivity; eexists; reflexivity. }
    destruct Hs as [r ->]. change (34 =? 125)%N with false. cbv iota.
    rewrite parseMembers_serializeMembers; auto.
    cbn [fuelFor] in Hfuel. lia.
Qed.

(** *** Enough fuel *)

Lemma numberToString_length (z : Z) : (1 <= List.length (numberToString z))%nat.
Proof.
  destruct (numberToString_head z) as (c & s & -> & _). simpl. lia.
Qed.

Lemma fuelFor_length (v : json) :
  integral v -> (fuelFor v <= List.length (serializeJSON v))%nat.
Proof.
  induction v as [|b|z|lexeme|s|elems IH|members IH] using json_induction;
    intros Hint.
  - simpl. lia.
  - destruct b; simpl; lia.
  - apply numberToString_length.
  - destruct Hint.
  - simpl. lia.
  - cbn [fuelFor serializeJSON]. cbn [List.length]. rewrite length_app.
    cbn [List.length].
    assert (H : (fuelForElements fuelFor elems
                 <= S (List.length (serializeElements serializeJSON elems)))%nat).
    { induction IH as [|x l Hx Hl IHl]; [simpl; lia|].
      destruct Hint as [Hix Hil]. specialize (Hx Hix). specialize (IHl Hil).
      destruct l as [|y l'].
      - simpl in *. lia.
      - change (serializeElements serializeJSON (x :: y :: l'))
          with (serializeJSON x ++ 44%N :: serializeElements serializeJSON (y :: l')).
        rewrite length_app. cbn [List.length fuelForElements] in *. lia. }
    lia.
  - cbn [fuelFor serializeJSON]. cbn [List.length]. rewrite length_app.
    cbn [List.length].
    assert (H : (fuelForMembers fuelFor members
                 <= S (List.length (serializeMembers serializeJSON members)))%nat).
    { induction IH as [|[k x] l Hx Hl IHl]; [simpl; lia|].
      destruct Hint as [Hix Hil]. cbn [snd] in Hx.
      specialize (Hx Hix). specialize (IHl Hil).
      destruct l as [|[k' y] l'].
      - cbn [serializeMembers fuelForMembers]. rewrite length_app.
        cbn [List.length]. lia.
      - change (serializeMembers serializeJSON ((k, x) :: (k', y) :: l'))
          with (quoteJSONString k ++ 58%N :: serializeJSON x
                  ++ 44%N :: serializeMembers serializeJSON ((k', y) :: l')).
        rewrite length_app. cbn [List.length]. rewrite length_app.
        cbn [List.length fuelForMembers] in *. lia. }
    lia.
Qed.

(** [JSON.parse] undoes the serialization of every value whose numbers are
    integers. *)
Lemma JSON_parse_serializeJSON (v : json) :
  integral v -> JSON_parse (serializeJSON v) = Some v.
Proof.
  intros Hint. unfold JSON_parse.
  pose proof (parseValue_serializeJSON v Hint
                (2 * List.length (serializeJSON v) + 2)%nat []) as H.
  rewrite app_nil_r in H. rewrite H; [reflexivity| |exact I].
  pose proof (fuelFor_length v Hint). lia.
Qed.

(** *** Todos *)

Lemma todoOfJson_jsonOfTodo (t : Todo) : todoOfJson (jsonOfTodo t) = Some t.
Proof.
  destruct t as [i ti c [d|] [[]|] [] ca o]; reflexivity.
Qed.

Lemma integral_jsonOfTodo (t : Todo) : integral (jsonOfTodo t).
Proof.
  destruct t as [i ti c [d|] [[]|] [] ca o]; simpl; tauto.
Qed.

Lemma todosOfJson_jsonOfTodos (todos : list Todo) :
  todosOfJson (JArr (map jsonOfTodo todos)) = Some todos.
Proof.
  simpl. induction todos as [|t l IH]; [reflexivity|].
  cbn [map allSome]. rewrite todoOfJson_jsonOfTodo, IH. reflexivity.
Qed.

Lemma integral_jsonOfTodos (todos : list Todo) :
  integral (JArr (map jsonOfTodo todos)).
Proof.
  simpl. induction todos as [|t l IH]; [exact I|].
  split; [apply integral_jsonOfTodo|exact IH].
Qed.

(** [JSON.parse(JSON.stringify(todos))] is [todos] again, field by field. *)
Lemma parseTodos_JSON_stringify (todos : list Todo) (s : Store) :
  parseTodos (JSON_stringify todos) s = (Returned (JArr (map jsonOfTodo todos)), s).
Proof.
  unfold parseTodos, JSON_stringify.
  rewrite JSON_parse_serializeJSON by apply integral_jsonOfTodos.
  reflexivity.
Qed.

Lemma getItem_setItem (key value : jsstring) (s s' : Storage) :
  setItem key value s = Some s' -> getItem key s' = Some value.
Proof.
  unfold setItem, getItem.
  destruct (storageSize _ <=? quota s)%N; [|discriminate].
  intros [= <-]. simpl. rewrite streq_refl. reflexivity.
Qed.

Lemma JSON_stringify_truthy (todos : list Todo) : truthy (JSON_stringify todos) = true.
Proof. reflexivity. Qed.

(** Loading, in a fresh store, a storage that holds the serialization of
    [todos] under the storage key. *)
Lemma initializeFromStorage_fresh (above0 : json -> option bool)
    (todos : list Todo) (s : Storage) :
  getItem STORAGE_KEY s = Some (JSON_stringify todos) ->
  initializeFromStorage above0 (Typed (freshStore s)) =
  (Returned tt,
   Typed {| todosCache := todos; listeners := []; hasWindow := true;
            localStorage := s; events := [] |}).
Proof.
  intros Hget.
  unfold initializeFromStorage, bind, inWorld, windowUndefined, todosCacheNotEmpty,
    tryCatch, localStorage_getItem, freshStore.
  cbn [hasWindow negb cacheLengthAbove0 todosCache localStorage].
  change (0 <? List.length (@nil Todo))%nat with false. cbv beta iota.
  cbn [hasWindow localStorage]. rewrite Hget. cbv beta iota.
  rewrite JSON_stringify_truthy. rewrite parseTodos_JSON_stringify.
  unfold assignTodosCache. rewrite todosOfJson_jsonOfTodos. reflexivity.
Qed.

(** C9.  When [persistToStorage] writes a collection and the write fits,
    a fresh store that loads from the storage it leaves holds the same
    collection: the same items, each with the same fields, in the same
    order. *)
Theorem reload_gives_back_collection (above0 : json -> option bool)
    (todos : list Todo) (w : World) :
  hasWindow w = true ->
  setItem STORAGE_KEY (JSON_stringify todos) (localStorage w) <> None ->
  let saved := localStorage (snd (persistToStorage todos w)) in
  getItem STORAGE_KEY saved = Some (JSON_stringify todos) /\
  fst (initializeFromStorage above0 (Typed (freshStore saved))) = Returned tt /\
  cacheOf (snd (initializeFromStorage above0 (Typed (freshStore saved))))
  = TodoList todos.
Proof.
  intros Hw Hfits saved.
  assert (Hget : getItem STORAGE_KEY saved = Some (JSON_stringify todos)).
  { unfold saved. rewrite persistToStorage_run. cbn [snd localStorage].
    unfold persistStorage. rewrite Hw.
    destruct (setItem STORAGE_KEY (JSON_stringify todos) (localStorage w)) as [s'|] eqn:E;
      [|congruence].
    exact (getItem_setItem _ _ _ _ E). }
  rewrite (initializeFromStorage_fresh above0 todos saved Hget).
  split; [exact Hget|]. split; reflexivity.
Qed.

(** *** The fuel of [JSON_parse] *)

Lemma consResult_Some {A B} (x : A) (r : option (list A * B)) (l : list A) (b : B) :
  consResult x r = Some (l, b) -> exists l', r = Some (l', b) /\ l = x :: l'.
Proof.
  destruct r as [[l' b']|]; simpl; [|discriminate].
  intros [= <- <-]. exists l'. auto.
Qed.

(** More fuel does not change a result. *)
Lemma parse_fuel_monotone (fuel : nat) :
  (forall s r, parseValue fuel s = Some r -> parseValue (S fuel) s = Some r) /\
  (forall s r, parseElements fuel s = Some r -> parseElements (S fuel) s = Some r) /\
  (forall s r, parseMembers fuel s = Some r -> parseMembers (S fuel) s = Some r).
Proof.
  induction fuel as [|fuel (IHv & IHe & IHm)].
  - repeat split; intros s r H; discriminate H.
  - repeat split; intros s r H.
    + rewrite parseValue_S in H. rewrite parseValue_S.
      destruct (skipWs s) as [|c rest]; [discriminate|].
      destruct (c =? 34)%N; [exact H|].
      destruct (c =? 91)%N.
      { destruct (skipWs rest) as [|d r0]; [discriminate|].
        destruct (d =? 93)%N; [exact H|].
        destruct (parseElements fuel rest) as [[vs r']|] eqn:E; [|discriminate].
        rewrite (IHe _ _ E). exact H. }
      destruct (c =? 123)%N.
      { destruct (skipWs rest) as [|d r0]; [discriminate|].
        destruct (d =? 125)%N; [exact H|].
        destruct (parseMembers fuel rest) as [[ms r']|] eqn:E; [|discriminate].
        rewrite (IHm _ _ E). exact H. }
      exact H.
    + rewrite parseElements_S in H. rewrite parseElements_S.
      destruct (parseValue fuel s) as [[v r0]|] eqn:E; [|discriminate].
      rewrite (IHv _ _ E).
      destruct (skipWs r0) as [|c r']; [discriminate|].
      destruct (c =? 44)%N; [|exact H].
      destruct r as [l b]. apply consResult_Some in H.
      destruct H as (l' & E' & ->). rewrite (IHe _ _ E'). reflexivity.
    + rewrite parseMembers_S in H. rewrite parseMembers_S.
      destruct (skipWs s) as [|c r0]; [discriminate|].
      destruct (c =? 34)%N; [|discriminate].
      destruct (parseChars r0) as [[key r1]|]; [|discriminate].
      destruct (skipWs r1) as [|c1 r2]; [discriminate|].
      destruct (c1 =? 58)%N; [|discriminate].
      destruct (parseValue fuel r2) as [[v r3]|] eqn:E; [|discriminate].
      rewrite (IHv _ _ E).
      destruct (skipWs r3) as [|c3 r4]; [discriminate|].
      destruct (c3 =? 44)%N; [|exact H].
      destruct r as [l b]. apply consResult_Some in H.
      destruct H as (l' & E' & ->). rewrite (IHm _ _ E'). reflexivity.
Qed.

Lemma skipWs_length (s : jsstring) : (List.length (skipWs s) <= List.length s)%nat.
Proof.
  induction s as [|c s IH]; simpl; [lia|].
  destruct (isJSONWhiteSpace c); simpl; lia.
Qed.

Lemma parseChars_length (s chars r : jsstring) :
  parseChars s = Some (chars, r) -> (List.length r < List.length s)%nat.
Proof.
  assert (Hn : forall n s chars r,
             (List.length s <= n)%nat -> parseChars s = Some (chars, r) ->
             (List.length r < List.length s)%nat);
    [|exact (Hn (List.length s) s chars r (Nat.le_refl _))].
  clear s chars r. induction n as [|n IHn]; intros s chars r Hlen H;
    (destruct s as [|c rest]; [discriminate|]); [simpl in Hlen; lia|].
  assert (IH : forall s' chars' r',
             (List.length s' < List.length (c :: rest))%nat ->
             parseChars s' = Some (chars', r') ->
             (List.length r' < List.length s')%nat).
  { intros s' chars' r' Hs'. apply IHn. simpl in *. lia. }
  clear IHn Hlen.
  cbn [parseChars] in H.
  destruct (c =? 34)%N.
  { injection H as _ <-. simpl. lia. }
  destruct (c =? 92)%N.
  - destruct rest as [|e rest1]; [discriminate|].
    destruct (e =? 117)%N.
    + destruct rest1 as [|h1 [|h2 [|h3 [|h4 rest2]]]]; try discriminate.
      destruct (hexValue h1), (hexValue h2), (hexValue h3), (hexValue h4);
        try discriminate.
      apply consResult_Some in H. destruct H as (l' & H & _).
      apply IH in H; simpl in *; lia.
    + destruct (simpleEscape e); [|discriminate].
      apply consResult_Some in H. destruct H as (l' & H & _).
      apply IH in H; simpl in *; lia.
  - destruct (c <? 32)%N; [discriminate|].
    apply consResult_Some in H. destruct H as (l' & H & _).
    apply IH in H; simpl in *; lia.
Qed.

Lemma takeDigits_length (s ds r : jsstring) :
  takeDigits s = (ds, r) ->
  (List.length s = List.length ds + List.length r)%nat.
Proof.
  revert ds r. induction s as [|c s IH]; simpl; intros ds r H.
  - injection H as <- <-. reflexivity.
  - destruct (isDigit c).
    + destruct (takeDigits s) as [ds' r'] eqn:E. injection H as <- <-.
      simpl. rewrite (IH _ _ eq_refl). reflexivity.
    + injection H as <- <-. reflexivity.
Qed.

Lemma parseFraction_length (s frac r : jsstring) :
  parseFraction s = Some (frac, r) -> (List.length r <= List.length s)%nat.
Proof.
  unfold parseFraction. destruct s as [|c rest].
  - intros [= <- <-]. simpl. lia.
  - destruct (c =? 46)%N.
    + destruct (takeDigits rest) as [ds r'] eqn:E.
      apply takeDigits_length in E.
      destruct ds; [discriminate|]. intros [= <- <-]. simpl. lia.
    + intros [= <- <-]. lia.
Qed.

Lemma parseExponent_length (s ex r : jsstring) :
  parseExponent s = Some (ex, r) -> (List.length r <= List.length s)%nat.
Proof.
  unfold parseExponent. destruct s as [|c rest].
  - intros [= <- <-]. simpl. lia.
  - destruct ((c =? 101) || (c =? 69))%N.
    + destruct rest as [|d rest'].
      * simpl. discriminate.
      * destruct ((d =? 43) || (d =? 45))%N.
        -- destruct (takeDigits rest') as [ds r'] eqn:E.
           apply takeDigits_length in E.
           destruct ds; [discriminate|]. intros [= <- <-]. simpl. lia.
        -- destruct (takeDigits (d :: rest')) as [ds r'] eqn:E.
           apply takeDigits_length in E.
           destruct ds; [discriminate|]. intros [= <- <-]. simpl in *. lia.
    + intros [= <- <-]. lia.
Qed.

Lemma parseNumber_length (s r : jsstring) (v : json) :
  parseNumber s = Some (v, r) -> (List.length r < List.length s)%nat.
Proof.
  unfold parseNumber.
  set (p := match s with
            | [] => (false, s)
            | c :: rest => if (c =? 45)%N then (true, rest) else (false, s)
            end).
  assert (Hp : (List.length (snd p) <= List.length s)%nat).
  { unfold p. destruct s as [|c rest]; simpl; [lia|].
    destruct (c =? 45)%N; simpl; lia. }
  destruct p as [negative s1]. simpl in Hp.
  destruct (takeDigits s1) as [ds r0] eqn:E. apply takeDigits_length in E.
  destruct ds as [|d ds]; [discriminate|].
  destruct ((d =? 48)%N && negb match ds with [] => true | _ :: _ => false end);
    [discriminate|].
  destruct (parseFraction r0) as [[frac r1]|] eqn:Ef; [|discriminate].
  apply parseFraction_length in Ef.
  destruct (parseExponent r1) as [[ex r2]|] eqn:Ee; [|discriminate].
  apply parseExponent_length in Ee.
  simpl in E.
  destruct frac, ex; intros [= _ <-]; lia.
Qed.

Lemma expect_length (lit s r : jsstring) :
  expect lit s = Some r -> (List.length r <= List.length s)%nat.
Proof.
  revert s. induction lit as [|c lit IH]; simpl; intros s H.
  - injection H as <-. lia.
  - destruct s as [|d s']; [discriminate|].
    destruct (c =? d)%N; [|discriminate].
    apply IH in H. simpl. lia.
Qed.

(** A successful parse consumes at least one character. *)
Lemma parse_consumes (fuel : nat) :
  (forall s v r, parseValue fuel s = Some (v, r) ->
                 (List.length r < List.length s)%nat) /\
  (forall s vs r, parseElements fuel s = Some (vs, r) ->
                  (List.length r < List.length s)%nat) /\
  (forall s ms r, parseMembers fuel s = Some (ms, r) ->
                  (List.length r < List.length s)%nat).
Proof.
  induction fuel as [|fuel (IHv & IHe & IHm)].
  - repeat split; intros; discriminate.
  - repeat split.
    + intros s v r H. rewrite parseValue_S in H.
      pose proof (skipWs_length s) as Hs.
      destruct (skipWs s) as [|c rest]; [discriminate|]. simpl in Hs.
      destruct (c =? 34)%N.
      { destruct (parseChars rest) as [[chars r0]|] eqn:E; [|discriminate].
        apply parseChars_length in E. injection H as _ <-. lia. }
      destruct (c =? 91)%N.
      { pose proof (skipWs_length rest) as Hs'.
        destruct (skipWs rest) as [|d r0]; [discriminate|]. simpl in Hs'.
        destruct (d =? 93)%N.
        - injection H as _ <-. lia.
        - destruct (parseElements fuel rest) as [[vs r']|] eqn:E; [|discriminate].
          apply IHe in E. injection H as _ <-. lia. }
      destruct (c =? 123)%N.
      { pose proof (skipWs_length rest) as Hs'.
        destruct (skipWs rest) as [|d r0]; [discriminate|]. simpl in Hs'.
        destruct (d =? 125)%N.
        - injection H as _ <-. lia.
        - destruct (parseMembers fuel rest) as [[ms r']|] eqn:E; [|discriminate].
          apply IHm in E. injection H as _ <-. lia. }
      destruct (c =? 110)%N.
      { destruct (expect (str "ull") rest) as [r0|] eqn:E; [|discriminate].
        apply expect_length in E. injection H as _ <-. lia. }
      destruct (c =? 116)%N.
      { destruct (expect (str "rue") rest) as [r0|] eqn:E; [|discriminate].
        apply expect_length in E. injection H as _ <-. lia. }
      destruct (c =? 102)%N.
      { destruct (expect (str "alse") rest) as [r0|] eqn:E; [|discriminate].
        apply expect_length in E. injection H as _ <-. lia. }
      destruct ((c =? 45)%N || isDigit c); [|discriminate].
      apply parseNumber_length in H. simpl in H. lia.
    + intros s vs r H. rewrite parseElements_S in H.
      destruct (parseValue fuel s) as [[v r0]|] eqn:E; [|discriminate].
      apply IHv in E. pose proof (skipWs_length r0) as Hs.
      destruct (skipWs r0) as [|c r']; [discriminate|]. simpl in Hs.
      destruct (c =? 44)%N.
      * apply consResult_Some in H. destruct H as (l' & H & _).
        apply IHe in H. lia.
      * destruct (c =? 93)%N; [|discriminate]. injection H as _ <-. lia.
    + intros s ms r H. rewrite parseMembers_S in H.
      pose proof (skipWs_length s) as Hs.
      destruct (skipWs s) as [|c r0]; [discriminate|]. simpl in Hs.
      destruct (c =? 34)%N; [|discriminate].
      destruct (parseChars r0) as [[key r1]|] eqn:Ec; [|discriminate].
      apply parseChars_length in Ec.
      pose proof (skipWs_length r1) as Hs1.
      destruct (skipWs r1) as [|c1 r2]; [discriminate|]. simpl in Hs1.
      destruct (c1 =? 58)%N; [|discriminate].
      destruct (parseValue fuel r2) as [[v r3]|] eqn:E; [|discriminate].
      apply IHv in E. pose proof (skipWs_length r3) as Hs3.
      destruct (skipWs r3) as [|c3 r4]; [discriminate|]. simpl in Hs3.
      destruct (c3 =? 44)%N.
      * apply consResult_Some in H. destruct H as (l' & H & _).
        apply IHm in H. lia.
      * destruct (c3 =? 125)%N; [|discriminate]. injection H as _ <-. lia.
Qed.

(** A result obtained with some fuel is obtained with twice the number of
    characters consumed. *)
Lemma parse_fuel_enough (fuel : nat) :
  (forall s v r, parseValue fuel s = Some (v, r) ->
     forall f0, (2 * (List.length s - List.length r) <= f0)%nat ->
                parseValue f0 s = Some (v, r)) /\
  (forall s vs r, parseElements fuel s = Some (vs, r) ->
     forall f0, (2 * (List.length s - List.length r) - 1 <= f0)%nat ->
                parseElements f0 s = Some (vs, r)) /\
  (forall s ms r, parseMembers fuel s = Some (ms, r) ->
     forall f0, (2 * (List.length s - List.length r) - 1 <= f0)%nat ->
                parseMembers f0 s = Some (ms, r)).
Proof.
  induction fuel as [|fuel (IHv & IHe & IHm)].
  - repeat split; intros; discriminate.
  - destruct (parse_consumes fuel) as (Cv & Ce & Cm).
    destruct (parse_consumes (S fuel)) as (Cv' & Ce' & Cm').
    repeat split.
    + intros s v r H f0 Hf0. pose proof (Cv' _ _ _ H) as Hlen.
      destruct f0 as [|f1]; [lia|].
      rewrite parseValue_S in H. rewrite parseValue_S.
      pose proof (skipWs_length s) as Hs.
      destruct (skipWs s) as [|c rest]; [discriminate|]. simpl in Hs.
      destruct (c =? 34)%N; [exact H|].
      destruct (c =? 91)%N.
      { destruct (skipWs rest) as [|d r0]; [discriminate|].
        destruct (d =? 93)%N; [exact H|].
        destruct (parseElements fuel rest) as [[vs r']|] eqn:E; [|discriminate].
        pose proof (Ce _ _ _ E) as Hc. injection H as <- <-.
        rewrite (IHe _ _ _ E f1); [reflexivity|lia]. }
      destruct (c =? 123)%N.
      { destruct (skipWs rest) as [|d r0]; [discriminate|].
        destruct (d =? 125)%N; [exact H|].
        destruct (parseMembers fuel rest) as [[ms r']|] eqn:E; [|discriminate].
        pose proof (Cm _ _ _ E) as Hc. injection H as <- <-.
        rewrite (IHm _ _ _ E f1); [reflexivity|lia]. }
      exact H.
    + intros s vs r H f0 Hf0. pose proof (Ce' _ _ _ H) as Hlen.
      destruct f0 as [|f1]; [lia|].
      rewrite parseElements_S in H. rewrite parseElements_S.
      destruct (parseValue fuel s) as [[v r0]|] eqn:E; [|discriminate].
      pose proof (Cv _ _ _ E) as Hc. pose proof (skipWs_length r0) as Hs.
      destruct (skipWs r0) as [|c r'] eqn:Er0; [discriminate|]. simpl in Hs.
      assert (Hr : (List.length r <= List.length r')%nat).
      { destruct (c =? 44)%N.
        - apply consResult_Some in H. destruct H as (l' & H & _).
          apply Ce in H. lia.
        - destruct (c =? 93)%N; [|discriminate]. injection H as _ <-. lia. }
      rewrite (IHv _ _ _ E f1) by lia. rewrite Er0.
      destruct (c =? 44)%N; [|exact H].
      destruct vs as [|v' l']; apply consResult_Some in H;
        destruct H as (l'' & H & Hl); [discriminate|].
      injection Hl as <- <-.
      pose proof (Ce _ _ _ H) as Hc'.
      rewrite (IHe _ _ _ H f1) by lia. reflexivity.
    + intros s ms r H f0 Hf0. pose proof (Cm' _ _ _ H) as Hlen.
      destruct f0 as [|f1]; [lia|].
      rewrite parseMembers_S in H. rewrite parseMembers_S.
      pose proof (skipWs_length s) as Hs.
      destruct (skipWs s) as [|c r0]; [discriminate|]. simpl in Hs.
      destruct (c =? 34)%N; [|discriminate].
      destruct (parseChars r0) as [[key r1]|] eqn:Ec; [|discriminate].
      apply parseChars_length in Ec.
      pose proof (skipWs_length r1) as Hs1.
      destruct (skipWs r1) as [|c1 r2]; [discriminate|]. simpl in Hs1.
      destruct (c1 =? 58)%N; [|discriminate].
      destruct (parseValue fuel r2) as [[v r3]|] eqn:E; [|discriminate].
      pose proof (Cv _ _ _ E) as Hc. pose proof (skipWs_length r3) as Hs3.
      destruct (skipWs r3) as [|c3 r4] eqn:Er3; [discriminate|]. simpl in Hs3.
      assert (Hr : (List.length r <= List.length r4)%nat).
      { destruct (c3 =? 44)%N.
        - apply consResult_Some in H. destruct H as (l' & H & _).
          apply Cm in H. lia.
        - destruct (c3 =? 125)%N; [|discriminate]. injection H as _ <-. lia. }
      rewrite (IHv _ _ _ E f1) by lia. rewrite Er3.
      destruct (c3 =? 44)%N; [|exact H].
      destruct ms as [|m' l']; apply consResult_Some in H;
        destruct H as (l'' & H & Hl); [discriminate|].
      injection Hl as <- <-.
      pose proof (Cm _ _ _ H) as Hc'.
      rewrite (IHm _ _ _ H f1) by lia. reflexivity.
Qed.

Lemma parseValue_more_fuel (f f' : nat) (s : jsstring) (r : json * jsstring) :
  (f <= f')%nat -> parseValue f s = Some r -> parseValue f' s = Some r.
Proof.
  induction 1 as [|f' Hle IH]; intros H; [exact H|].
  apply (proj1 (parse_fuel_monotone f')). apply IH. exact H.
Qed.

(** The fuel [JSON_parse] gives is enough: no larger amount changes what the
    parser answers, whether a value or a syntax error. *)
Lemma JSON_parse_fuel (text : jsstring) (fuel : nat) :
  (2 * List.length text + 2 <= fuel)%nat ->
  parseValue fuel text = parseValue (2 * List.length text + 2) text.
Proof.
  intros Hle.
  destruct (parseValue fuel text) as [[v r]|] eqn:E.
  - symmetry. apply (proj1 (parse_fuel_enough fuel) _ _ _ E). lia.
  - destruct (parseValue (2 * List.length text + 2) text) as [res|] eqn:E';
      [|reflexivity].
    rewrite (parseValue_more_fuel _ fuel _ _ Hle E') in E. discriminate.
Qed.

(** ** More of the store *)

(** *** Loading *)

(** Every path through [initializeFromStorage]. *)
Lemma initializeFromStorage_cases (above0 : json -> option bool) (s : Store) :
  initializeFromStorage above0 s =
  if negb (hasWindow (world s)) then (Returned tt, s)
  else
    match cacheLengthAbove0 above0 s with
    | None => (Thrown TypeError, s)
    | Some true => (Returned tt, s)
    | Some false =>
        match getItem STORAGE_KEY (localStorage (world s)) with
        | None => (Returned tt, s)
        | Some text =>
            if truthy text then
              match JSON_parse text with
              | None => (Returned tt, logLoadError s)
              | Some v => assignTodosCache v s
              end
            else (Returned tt, s)
        end
    end.
Proof.
  unfold initializeFromStorage, bind, inWorld, windowUndefined, todosCacheNotEmpty,
    tryCatch, localStorage_getItem, parseTodos, logLoadError, throw, ret.
  destruct s as [w|v w]; cbn [world].
  - destruct (hasWindow w) eqn:Hw; cbn [negb]; [|reflexivity].
    destruct (cacheLengthAbove0 above0 (Typed w)) as [[|]|]; try reflexivity.
    rewrite Hw.
    destruct (getItem STORAGE_KEY (localStorage w)) as [text|]; [|reflexivity].
    destruct (truthy text); [|reflexivity].
    destruct (JSON_parse text) as [v|]; reflexivity.
  - destruct (hasWindow w) eqn:Hw; cbn [negb]; [|reflexivity].
    destruct (cacheLengthAbove0 above0 (Raw v w)) as [[|]|]; try reflexivity.
    rewrite Hw.
    destruct (getItem STORAGE_KEY (localStorage w)) as [text|]; [|reflexivity].
    destruct (truthy text); [|reflexivity].
    destruct (JSON_parse text) as [v'|]; reflexivity.
Qed.

(** X1.  Stored text that is not JSON is reported on the console and
    nothing else happens: the call returns, the collection stays empty. *)
Theorem corrupt_storage_is_logged_not_raised (above0 : json -> option bool)
    (w : World) (text : jsstring) :
  hasWindow w = true ->
  todosCache w = [] ->
  getItem STORAGE_KEY (localStorage w) = Some text ->
  text <> [] ->
  JSON_parse text = None ->
  initializeFromStorage above0 (Typed w) =
  (Returned tt,
   Typed {| todosCache := []; listeners := listeners w; hasWindow := true;
            localStorage := localStorage w;
            events := events w ++ [ConsoleError (str "Failed to load todos from localStorage:")
                                                SyntaxError] |}).
Proof.
  intros Hw Hc Hg Ht Hp. rewrite initializeFromStorage_cases.
  cbn [world cacheLengthAbove0]. rewrite Hw, Hc, Hg, Hp.
  destruct text; [congruence|]. cbn [negb List.length Nat.ltb Nat.leb truthy].
  unfold logLoadError, inWorld, console_error, emit. cbn [snd]. rewrite Hw, Hc.
  reflexivity.
Qed.

Lemma world_assignTodosCache (v : json) (s : Store) :
  let s' := snd (assignTodosCache v s) in
  listeners (world s') = listeners (world s) /\
  localStorage (world s') = localStorage (world s) /\
  hasWindow (world s') = hasWindow (world s) /\
  events (world s') = events (world s).
Proof.
  unfold assignTodosCache. cbn [snd].
  destruct (todosOfJson v); cbn [world setTodosCache snd listeners localStorage
    hasWindow events]; repeat split.
Qed.

Lemma cacheOf_assignTodosCache (v : json) (s s' : Store) :
  cacheOf (snd (assignTodosCache v s)) = cacheOf (snd (assignTodosCache v s')).
Proof.
  unfold assignTodosCache. cbn [snd]. destruct (todosOfJson v); reflexivity.
Qed.

Lemma world_logLoadError (s : Store) :
  listeners (world (logLoadError s)) = listeners (world s) /\
  localStorage (world (logLoadError s)) = localStorage (world s) /\
  hasWindow (world (logLoadError s)) = hasWindow (world s) /\
  events (world (logLoadError s))
  = events (world s) ++ [ConsoleError (str "Failed to load todos from localStorage:")
                                      SyntaxError] /\
  cacheOf (logLoadError s) = cacheOf s.
Proof.
  unfold logLoadError, inWorld, console_error, emit.
  destruct s as [w|v w]; cbn [snd world listeners localStorage hasWindow events cacheOf
    todosCache]; repeat split.
Qed.

(** The test on the length reads the cache and nothing else. *)
Lemma cacheLengthAbove0_cacheOf (above0 : json -> option bool) (s s' : Store) :
  cacheOf s = cacheOf s' ->
  cacheLengthAbove0 above0 s = cacheLengthAbove0 above0 s'.
Proof.
  destruct s as [w|v w], s' as [w'|v' w']; cbn [cacheOf]; intros E;
    try discriminate; injection E as E; cbn [cacheLengthAbove0].
  - rewrite E. reflexivity.
  - subst v'. reflexivity.
Qed.

(** X2.  Loading is silent and never overwrites: it leaves the listeners,
    the storage and the environment as they are, writes nothing and calls
    no subscriber.  The one exception it lets escape is the TypeError of
    the test [todosCache.length > 0], with the module untouched; with a list
    of todos in memory there is none, and with [null] in memory, which an
    earlier load of the text [null] leaves, every call in a browser throws.
    With a non-empty list of todos in memory, or without a window, it does
    nothing at all. *)
Theorem initializeFromStorage_is_silent (above0 : json -> option bool) (s : Store) :
  let s' := snd (initializeFromStorage above0 s) in
  listeners (world s') = listeners (world s) /\
  localStorage (world s') = localStorage (world s) /\
  hasWindow (world s') = hasWindow (world s) /\
  writes (addedIn (initializeFromStorage above0) s) = [] /\
  calls (addedIn (initializeFromStorage above0) s) = [] /\
  (forall e, fst (initializeFromStorage above0 s) = Thrown e ->
     e = TypeError /\ s' = s /\
     hasWindow (world s) = true /\ cacheLengthAbove0 above0 s = None) /\
  (forall w e, s = Typed w -> fst (initializeFromStorage above0 s) <> Thrown e) /\
  (forall w, s = Raw JNull w -> hasWindow w = true ->
     initializeFromStorage above0 s = (Thrown TypeError, s)) /\
  (forall w, s = Typed w -> todosCache w <> [] \/ hasWindow w = false ->
     initializeFromStorage above0 s = (Returned tt, s)).
Proof.
  intros s'.
  assert (Hsame : skipn (List.length (events (world s))) (events (world s)) = [])
    by apply skipn_all.
  assert (Hquiet : forall e, skipn (List.length (events (world s)))
                               (events (world s) ++ [ConsoleError e SyntaxError])
                             = [ConsoleError e SyntaxError]).
  { intros e. rewrite skipn_app, skipn_all, Nat.sub_diag. reflexivity. }
  assert (Htyped : forall w, s = Typed w ->
            cacheLengthAbove0 above0 s = Some (0 <? List.length (todosCache w))%nat).
  { intros w ->. reflexivity. }
  (* the four outcomes *)
  assert (Hcases :
    (initializeFromStorage above0 s = (Returned tt, s) /\
     (hasWindow (world s) = false \/ cacheLengthAbove0 above0 s <> None)) \/
    (initializeFromStorage above0 s = (Thrown TypeError, s) /\
     hasWindow (world s) = true /\ cacheLengthAbove0 above0 s = None) \/
    (initializeFromStorage above0 s = (Returned tt, logLoadError s) /\
     hasWindow (world s) = true /\ cacheLengthAbove0 above0 s = Some false) \/
    (exists v, initializeFromStorage above0 s = assignTodosCache v s /\
     hasWindow (world s) = true /\ cacheLengthAbove0 above0 s = Some false)).
  { rewrite initializeFromStorage_cases.
    destruct (hasWindow (world s)); cbn [negb]; [|left; auto].
    destruct (cacheLengthAbove0 above0 s) as [[|]|].
    - left. split; [reflexivity|right; discriminate].
    - destruct (getItem STORAGE_KEY (localStorage (world s))) as [text|];
        [|left; split; [reflexivity|right; discriminate]].
      destruct (truthy text); [|left; split; [reflexivity|right; discriminate]].
      destruct (JSON_parse text) as [v|].
      + right. right. right. exists v. auto.
      + right. right. left. auto.
    - right. left. auto. }
  assert (Hnever : forall w, s = Typed w -> cacheLengthAbove0 above0 s <> None).
  { intros w Hs. rewrite (Htyped w Hs). discriminate. }
  assert (Hidle : forall w, s = Typed w -> todosCache w <> [] \/ hasWindow w = false ->
                  initializeFromStorage above0 s = (Returned tt, s)).
  { intros w Hs H. rewrite initializeFromStorage_cases, (Htyped w Hs). subst s.
    cbn [world]. destruct (hasWindow w); cbn [negb]; [|reflexivity].
    destruct H as [H|H]; [|discriminate].
    destruct (todosCache w); [congruence|reflexivity]. }
  assert (Hnull : forall w, s = Raw JNull w -> hasWindow w = true ->
                  initializeFromStorage above0 s = (Thrown TypeError, s)).
  { intros w -> Hw. rewrite initializeFromStorage_cases. cbn [world]. rewrite Hw.
    reflexivity. }
  unfold s', addedIn.
  destruct Hcases as [[E Hd]|[(E & Hw & Hl)|[(E & Hw & Hl)|(v & E & Hw & Hl)]]];
    rewrite E; cbn [fst snd].
  - rewrite Hsame.
    split; [reflexivity|]. split; [reflexivity|]. split; [reflexivity|].
    split; [reflexivity|]. split; [reflexivity|].
    split; [intros e; discriminate|].
    split; [intros w e _; discriminate|].
    split; [intros w Hs Hw'; rewrite <- E; exact (Hnull w Hs Hw')|].
    intros w Hs H. reflexivity.
  - rewrite Hsame.
    split; [reflexivity|]. split; [reflexivity|]. split; [reflexivity|].
    split; [reflexivity|]. split; [reflexivity|].
    split; [intros e [= <-]; auto|].
    split; [intros w e Hs; destruct (Hnever w Hs Hl)|].
    split; [reflexivity|].
    intros w Hs. destruct (Hnever w Hs Hl).
  - destruct (world_logLoadError s) as (H1 & H2 & H3 & H4 & _).
    rewrite H4, Hquiet.
    split; [exact H1|]. split; [exact H2|]. split; [exact H3|].
    split; [reflexivity|]. split; [reflexivity|].
    split; [intros e; discriminate|].
    split; [intros w e _; discriminate|].
    split; [intros w Hs Hw'; rewrite <- E; exact (Hnull w Hs Hw')|].
    intros w Hs H. rewrite <- E. exact (Hidle w Hs H).
  - destruct (world_assignTodosCache v s) as (H1 & H2 & H3 & H4).
    rewrite H4, Hsame.
    split; [exact H1|]. split; [exact H2|]. split; [exact H3|].
    split; [reflexivity|]. split; [reflexivity|].
    split; [intros e; discriminate|].
    split; [intros w e _; discriminate|].
    split; [intros w Hs Hw'; rewrite <- E; exact (Hnull w Hs Hw')|].
    intros w Hs H. rewrite <- E. exact (Hidle w Hs H).
Qed.

(** X3.  Loading a second time changes nothing of what the first load left
    in memory, with one exception: when the first load left [null] there
    (the stored text was [null]; in general, when the test on the length of
    what it left throws), the second call throws that TypeError. *)
Theorem initializeFromStorage_twice (above0 : json -> option bool) (s : Store) :
  fst (initializeFromStorage above0 s) = Returned tt ->
  let s1 := snd (initializeFromStorage above0 s) in
  (forall w1, s1 = Typed w1 ->
     fst (initializeFromStorage above0 s1) = Returned tt /\
     cacheOf (snd (initializeFromStorage above0 s1)) = TodoList (todosCache w1)) /\
  (forall w1, s1 = Raw JNull w1 -> hasWindow w1 = true ->
     initializeFromStorage above0 s1 = (Thrown TypeError, s1)) /\
  (hasWindow (world s1) = true -> cacheLengthAbove0 above0 s1 = None ->
   initializeFromStorage above0 s1 = (Thrown TypeError, s1)) /\
  (hasWindow (world s1) = false \/ cacheLengthAbove0 above0 s1 <> None ->
   fst (initializeFromStorage above0 s1) = Returned tt /\
   cacheOf (snd (initializeFromStorage above0 s1)) = cacheOf s1).
Proof.
  intros Hret s1.
  assert (Hthrows : hasWindow (world s1) = true -> cacheLengthAbove0 above0 s1 = None ->
                    initializeFromStorage above0 s1 = (Thrown TypeError, s1)).
  { intros Hw Hl. rewrite initializeFromStorage_cases, Hw, Hl. reflexivity. }
  assert (Hsame : hasWindow (world s1) = false \/ cacheLengthAbove0 above0 s1 <> None ->
                  fst (initializeFromStorage above0 s1) = Returned tt /\
                  cacheOf (snd (initializeFromStorage above0 s1)) = cacheOf s1).
  { unfold s1 in *. clear s1 Hthrows. revert Hret.
    rewrite (initializeFromStorage_cases above0 s).
    destruct (hasWindow (world s)) eqn:Hw; cbn [negb].
    2:{ intros _ _. cbn [snd]. rewrite initializeFromStorage_cases, Hw. auto. }
    destruct (cacheLengthAbove0 above0 s) as [[|]|] eqn:Hl; [| |discriminate].
    { intros _ _. cbn [snd]. rewrite initializeFromStorage_cases, Hw, Hl. auto. }
    destruct (getItem STORAGE_KEY (localStorage (world s))) as [text|] eqn:Hg.
    2:{ intros _ _. cbn [snd]. rewrite initializeFromStorage_cases, Hw, Hl, Hg. auto. }
    destruct (truthy text) eqn:Ht.
    2:{ intros _ _. cbn [snd].
        rewrite initializeFromStorage_cases, Hw, Hl, Hg, Ht. auto. }
    destruct (JSON_parse text) as [v|] eqn:Hp.
    - intros _. destruct (world_assignTodosCache v s) as (_ & H2 & H3 & _).
      intros Hdom. rewrite initializeFromStorage_cases, H3, Hw. cbn [negb].
      destruct (cacheLengthAbove0 above0 (snd (assignTodosCache v s))) as [[|]|];
        [auto| |destruct Hdom as [H|H]; [rewrite H3, Hw in H; discriminate|congruence]].
      rewrite H2, Hg, Ht, Hp. split; [reflexivity|].
      apply cacheOf_assignTodosCache.
    - intros _ _. destruct (world_logLoadError s) as (_ & H2 & H3 & _ & H5).
      cbn [snd]. rewrite initializeFromStorage_cases, H3, Hw. cbn [negb].
      rewrite (cacheLengthAbove0_cacheOf above0 _ _ H5), Hl, H2, Hg, Ht, Hp.
      split; [reflexivity|]. cbn [snd].
      destruct (world_logLoadError (logLoadError s)) as (_ & _ & _ & _ & H6).
      exact H6. }
  split; [|split; [|split; [exact Hthrows|exact Hsame]]].
  - intros w1 Hs1.
    assert (Hdom : hasWindow (world s1) = false \/ cacheLengthAbove0 above0 s1 <> None).
    { right. rewrite Hs1. discriminate. }
    destruct (Hsame Hdom) as [Hr Hc]. split; [exact Hr|].
    rewrite Hc, Hs1. reflexivity.
  - intros w1 Hs1 Hw. apply Hthrows; rewrite Hs1; [exact Hw|reflexivity].
Qed.

(** *** Subscribing *)

Lemma calls_app (es1 es2 : list Event) : calls (es1 ++ es2) = calls es1 ++ calls es2.
Proof.
  induction es1 as [|e es1 IH]; simpl; [reflexivity|].
  destruct e; simpl; congruence.
Qed.

Lemma calls_map_Called (ls : list Listener) : calls (map Called ls) = ls.
Proof. induction ls; simpl; congruence. Qed.

Lemma calls_persistEvents (todos : list Todo) (w : World) :
  calls (persistEvents todos w) = listeners w.
Proof.
  unfold persistEvents. rewrite calls_app, calls_map_Called.
  destruct (hasWindow w); simpl; [destruct (setItem _ _ _)|]; reflexivity.
Qed.

Lemma timesCalled_calls (l : Listener) (es : list Event) :
  timesCalled l es = count_occ Nat.eq_dec (calls es) l.
Proof.
  induction es as [|e es IH]; simpl; [reflexivity|].
  destruct e; simpl; try exact IH.
  destruct (Nat.eqb_spec l listener) as [->|Hne].
  - destruct (Nat.eq_dec listener listener); congruence.
  - destruct (Nat.eq_dec listener l); congruence.
Qed.

Lemma setAdd_In (l x : Listener) (s : list Listener) :
  In x (setAdd l s) <-> x = l \/ In x s.
Proof.
  unfold setAdd. destruct (existsb (Nat.eqb l) s) eqn:E.
  - apply existsb_exists in E. destruct E as (y & Hy & Ey).
    apply Nat.eqb_eq in Ey. subst y. split; [auto|]. intros [->|H]; assumption.
  - rewrite in_app_iff. simpl. intuition.
Qed.

Lemma setAdd_idempotent (l : Listener) (s : list Listener) :
  setAdd l (setAdd l s) = setAdd l s.
Proof.
  unfold setAdd at 1.
  replace (existsb (Nat.eqb l) (setAdd l s)) with true; [reflexivity|].
  symmetry. apply existsb_exists. exists l. split.
  - apply setAdd_In. left. reflexivity.
  - apply Nat.eqb_refl.
Qed.

Lemma count_occ_setAdd_other (l x : Listener) (s : list Listener) :
  x <> l ->
  count_occ Nat.eq_dec (setAdd l s) x = count_occ Nat.eq_dec s x.
Proof.
  intros Hne. unfold setAdd. destruct (existsb (Nat.eqb l) s); [reflexivity|].
  rewrite count_occ_app. simpl. destruct (Nat.eq_dec l x); [congruence|apply Nat.add_0_r].
Qed.

(** X4.  Registering a callback that is already registered changes nothing,
    and a registered callback is called exactly once by every
    [persistToStorage]; the other subscribers are called as often as
    before. *)
Theorem subscribed_listener_called_once (l : Listener) (w : World) (todos : list Todo) :
  NoDup (listeners w) ->
  let w1 := snd (subscribe l w) in
  subscribe l w1 = (Returned tt, w1) /\
  timesCalled l (added (persistToStorage todos) w1) = 1%nat /\
  (forall l', l' <> l ->
     timesCalled l' (added (persistToStorage todos) w1)
     = timesCalled l' (added (persistToStorage todos) w)).
Proof.
  intros Hnd w1. unfold w1, subscribe, setListeners. cbn [snd listeners].
  split; [|split].
  - rewrite setAdd_idempotent. reflexivity.
  - rewrite added_persist, timesCalled_persistEvents. cbn [listeners].
    apply NoDup_count_occ'; [apply setAdd_NoDup; exact Hnd|].
    apply setAdd_In. left. reflexivity.
  - intros l' Hne. rewrite !added_persist, !timesCalled_persistEvents.
    cbn [listeners]. apply count_occ_setAdd_other. exact Hne.
Qed.

Lemma setDelete_not_In (l : Listener) (s : list Listener) : ~ In l (setDelete l s).
Proof.
  unfold setDelete. intros H. apply filter_In in H. destruct H as [_ H].
  rewrite Nat.eqb_refl in H. discriminate.
Qed.

Lemma setDelete_setAdd (l : Listener) (s : list Listener) :
  ~ In l s -> setDelete l (setAdd l s) = s.
Proof.
  intros Hn. unfold setAdd.
  replace (existsb (Nat.eqb l) s) with false.
  - unfold setDelete. rewrite filter_app. simpl. rewrite Nat.eqb_refl. simpl.
    rewrite app_nil_r. apply forallb_filter_id. apply forallb_forall.
    intros x Hx. apply negb_true_iff, Nat.eqb_neq. intros ->. tauto.
  - symmetry. apply not_true_is_false. intros E. apply existsb_exists in E.
    destruct E as (y & Hy & Ey). apply Nat.eqb_eq in Ey. subst y. tauto.
Qed.

(** X5.  After unsubscribing, a callback is no longer called; the remaining
    subscribers are called as before, in the same order; the call says
    whether the callback was registered; and unsubscribing right after a
    first subscription restores the set. *)
Theorem unsubscribed_listener_not_called (l : Listener) (w : World) (todos : list Todo) :
  let w1 := snd (unsubscribe l w) in
  timesCalled l (added (persistToStorage todos) w1) = 0%nat /\
  calls (added (persistToStorage todos) w1)
  = filter (fun x => negb (Nat.eqb l x)) (calls (added (persistToStorage todos) w)) /\
  (fst (unsubscribe l w) = Returned true <-> In l (listeners w)) /\
  (~ In l (listeners w) ->
   listeners (snd (unsubscribe l (snd (subscribe l w)))) = listeners w).
Proof.
  intros w1. unfold w1, unsubscribe, subscribe, setListeners. cbn [snd fst listeners].
  rewrite !added_persist. split; [|split; [|split]].
  - rewrite timesCalled_persistEvents. cbn [listeners].
    apply count_occ_not_In. apply setDelete_not_In.
  - rewrite !calls_persistEvents. reflexivity.
  - split.
    + intros [= E]. apply existsb_exists in E. destruct E as (y & Hy & Ey).
      apply Nat.eqb_eq in Ey. subst y. exact Hy.
    + intros Hin. f_equal. apply existsb_exists. exists l.
      split; [exact Hin|apply Nat.eqb_refl].
  - apply setDelete_setAdd.
Qed.

(** *** What every mutation does to the outside *)

Lemma added_nil {A} (a : A) (w : World) : added (fun w => (Returned a, w)) w = [].
Proof. unfold added. cbn [snd]. apply skipn_all. Qed.

(** An operation hands a collection to [persistToStorage] exactly when it is
    not a reorder that misses an id. *)
Lemma perform_persists (op : Operation) (w : World) :
  (exists todos, perform op w = persistToStorage todos w) \/
  (perform op w = (Returned tt, w) /\
   exists activeId overId,
     op = Reorder activeId overId /\
     (~ In activeId (ids (todosCache w)) \/ ~ In overId (ids (todosCache w)))).
Proof.
  destruct op as [env input|input|id'|id'|activeId overId].
  - left.
    exists (todosCache w ++
            [{| id := randomUUID env; title := c_title input; completed := false;
                dueDate := nullish (c_dueDate input);
                category := nullish (c_category input);
                priority := match c_priority input with
                            | Some p => p
                            | None => medium
                            end;
                createdAt := nowISO env; order := nowMs env |}]).
    simpl. unfold bind. rewrite addTodo_run. cbn [fst snd].
    rewrite !persistToStorage_run. reflexivity.
  - left. eexists. apply updateTodo_run.
  - left. eexists. apply deleteTodo_run.
  - left. eexists. apply toggleTodo_run.
  - simpl. destruct (position activeId (todosCache w)) as [i|] eqn:Pi;
      [destruct (position overId (todosCache w)) as [j|] eqn:Pj|].
    + left. destruct (position_Some _ _ _ Pi) as [(moved & Hm & _) _].
      eexists. apply (reorderTodos_found _ _ _ _ _ _ Pi Pj Hm).
    + right. split; [apply reorderTodos_not_found; auto|].
      exists activeId, overId. split; [reflexivity|].
      right. apply position_None. exact Pj.
    + right. split; [apply reorderTodos_not_found; auto|].
      exists activeId, overId. split; [reflexivity|].
      left. apply position_None. exact Pi.
Qed.

(** X6.  A mutation that changes anything writes first and notifies after:
    its events are one write of the new collection (in a browser), at most
    one logged error, then one call to each subscriber in the order of
    registration.  Only a reorder that misses an id produces no event. *)
Theorem mutation_writes_then_notifies (op : Operation) (w : World) :
  let es := added (perform op) w in
  (exists pre,
     es = pre ++ map Called (listeners w) /\
     calls pre = [] /\
     calls es = listeners w /\
     (List.length (errorsLogged pre) <= 1)%nat /\
     (hasWindow w = true ->
      writes es = [(STORAGE_KEY, JSON_stringify (todosCache (snd (perform op w))))]))
  \/
  (es = [] /\
   exists activeId overId,
     op = Reorder activeId overId /\
     (~ In activeId (ids (todosCache w)) \/ ~ In overId (ids (todosCache w)))).
Proof.
  intros es. unfold es, added.
  destruct (perform_persists op w) as [[todos ->]|[-> Hop]].
  - left. fold (added (persistToStorage todos) w). rewrite added_persist.
    rewrite persistToStorage_run. cbn [snd todosCache].
    unfold persistEvents.
    eexists. split; [reflexivity|].
    rewrite calls_app, calls_map_Called, writes_app, writes_map_Called, app_nil_r.
    destruct (hasWindow w); [destruct (setItem _ _ _)|]; simpl;
      repeat split; auto; discriminate.
  - right. cbn [snd]. rewrite skipn_all. split; [reflexivity|exact Hop].
Qed.

Lemma setItem_quota (key value : jsstring) (s s' : Storage) :
  setItem key value s = Some s' -> quota s' = quota s.
Proof.
  unfold setItem. destruct (storageSize _ <=? quota s)%N; [|discriminate].
  intros [= <-]. reflexivity.
Qed.

Lemma getItem_setItem_other (key key' value : jsstring) (s s' : Storage) :
  key' <> key ->
  setItem key value s = Some s' ->
  getItem key' s' = getItem key' s.
Proof.
  intros Hne. unfold setItem, getItem.
  destruct (storageSize _ <=? quota s)%N; [|discriminate].
  intros [= <-]. cbn [entries find fst].
  replace (streq key key') with false
    by (symmetry; apply streq_false; congruence).
  induction (entries s) as [|e es IH]; [reflexivity|].
  cbn [filter find]. destruct (streq (fst e) key) eqn:E; cbn [negb].
  - apply streq_true in E.
    replace (streq (fst e) key') with false
      by (symmetry; apply streq_false; congruence).
    exact IH.
  - cbn [find]. destruct (streq (fst e) key'); [reflexivity|exact IH].
Qed.

Lemma perform_keeps_window (op : Operation) (w : World) :
  hasWindow (snd (perform op w)) = hasWindow w.
Proof.
  destruct (perform_persists op w) as [[todos ->]|[-> _]]; [|reflexivity].
  rewrite persistToStorage_run. reflexivity.
Qed.

(** X7.  No mutation touches the set of subscribers, the environment, the
    room of the storage or any entry of the storage other than the one under
    the storage key. *)
Theorem mutation_leaves_the_rest (op : Operation) (w : World) :
  let w' := snd (perform op w) in
  listeners w' = listeners w /\
  hasWindow w' = hasWindow w /\
  quota (localStorage w') = quota (localStorage w) /\
  (forall key, key <> STORAGE_KEY ->
     getItem key (localStorage w') = getItem key (localStorage w)).
Proof.
  intros w'. unfold w'.
  destruct (perform_persists op w) as [[todos ->]|[-> _]];
    [|cbn [snd]; auto].
  rewrite persistToStorage_run. cbn [snd listeners hasWindow localStorage].
  unfold persistStorage.
  destruct (hasWindow w); [|auto].
  destruct (setItem STORAGE_KEY (JSON_stringify todos) (localStorage w))
    as [s'|] eqn:E; [|auto].
  repeat split; auto.
  - exact (setItem_quota _ _ _ _ E).
  - intros key Hk. exact (getItem_setItem_other _ _ _ _ _ Hk E).
Qed.

Lemma skipn_length_app {A} (l r : list A) : skipn (List.length l) (l ++ r) = r.
Proof. rewrite skipn_app, skipn_all, Nat.sub_diag. reflexivity. Qed.

Lemma added_performAll_cons (op : Operation) (rest : list Operation) (w : World) :
  added (performAll (op :: rest)) w
  = added (perform op) w ++ added (performAll rest) (snd (perform op w)).
Proof.
  assert (Hgrow : forall ops w0, exists es,
             events (snd (performAll ops w0)) = events w0 ++ es).
  { induction ops as [|o ops IH]; intros w0.
    - exists []. simpl. rewrite app_nil_r. reflexivity.
    - rewrite performAll_cons. destruct (IH (snd (perform o w0))) as [es Hes].
      rewrite Hes. rewrite (proj2 (perform_keeps_listeners o w0)).
      rewrite <- app_assoc. eexists. reflexivity. }
  pose proof (proj2 (perform_keeps_listeners op w)) as E1.
  destruct (Hgrow rest (snd (perform op w))) as [es Hes].
  assert (E2 : added (performAll rest) (snd (perform op w)) = es).
  { unfold added. rewrite Hes. apply skipn_length_app. }
  rewrite E2. unfold added at 1. rewrite performAll_cons, Hes, E1, <- app_assoc.
  apply skipn_length_app.
Qed.

Lemma perform_keeps_synced (op : Operation) (w : World) :
  hasWindow w = true ->
  synced w ->
  errorsLogged (added (perform op) w) = [] ->
  synced (snd (perform op w)).
Proof.
  intros Hw Hs Herr. unfold added in Herr. revert Herr.
  destruct (perform_persists op w) as [[todos ->]|[-> _]]; [|intros _; exact Hs].
  rewrite persistToStorage_run. cbn [snd events].
  rewrite skipn_app, skipn_all, Nat.sub_diag. cbn [skipn app].
  unfold synced, persistEvents, persistStorage. cbn [localStorage todosCache].
  rewrite Hw.
  destruct (setItem STORAGE_KEY (JSON_stringify todos) (localStorage w))
    as [s'|] eqn:E.
  - intros _. exact (getItem_setItem _ _ _ _ E).
  - simpl. discriminate.
Qed.

(** X8.  As long as no write fails, the storage tracks the memory: after any
    sequence of mutations that logs no error, the entry under the storage
    key is the serialization of the collection in memory. *)
Theorem storage_tracks_memory (ops : list Operation) (w : World) :
  hasWindow w = true ->
  synced w ->
  errorsLogged (added (performAll ops) w) = [] ->
  synced (snd (performAll ops w)).
Proof.
  revert w. induction ops as [|op ops IH]; intros w Hw Hs Herr.
  - exact Hs.
  - rewrite added_performAll_cons, errorsLogged_app in Herr.
    apply app_eq_nil in Herr. destruct Herr as [H1 H2].
    rewrite performAll_cons. apply IH.
    + rewrite perform_keeps_window. exact Hw.
    + apply perform_keeps_synced; assumption.
    + exact H2.
Qed.

(** *** How the mutations combine *)

Lemma nth_error_map_some {A B} (f : A -> B) (l : list A) (k : nat) (x : A) :
  nth_error l k = Some x -> nth_error (map f l) k = Some (f x).
Proof. intros H. rewrite nth_error_map, H. reflexivity. Qed.

(** X9.  A toggle flips [completed] on the items with the given id and
    changes nothing else, item by item; toggling twice gives the collection
    back. *)
Theorem toggleTodo_flips_only_completed (id' : jsstring) (w : World) :
  let after := todosCache (snd (toggleTodo id' w)) in
  List.length after = List.length (todosCache w) /\
  (forall k t,
     nth_error (todosCache w) k = Some t ->
     exists t',
       nth_error after k = Some t' /\
       id t' = id t /\ title t' = title t /\ dueDate t' = dueDate t /\
       category t' = category t /\ priority t' = priority t /\
       createdAt t' = createdAt t /\ order t' = order t /\
       completed t' = (if streq (id t) id' then negb (completed t) else completed t)) /\
  todosCache (snd (toggleTodo id' (snd (toggleTodo id' w)))) = todosCache w.
Proof.
  intros after. unfold after. rewrite !toggleTodo_run, !persistToStorage_run.
  cbn [snd todosCache]. split; [apply length_map|]. split.
  - intros k t Hk. eexists. split; [apply nth_error_map_some; exact Hk|].
    destruct (streq (id t) id'); repeat split; reflexivity.
  - rewrite map_map. rewrite <- (map_id (todosCache w)) at 2.
    apply map_ext. intros t. destruct (streq (id t) id') eqn:E.
    + cbn [id setCompleted]. rewrite E. destruct t as [i ti c d ca p cr o].
      cbn. rewrite negb_involutive. reflexivity.
    + rewrite E. reflexivity.
Qed.

(** X10.  An update changes only the items with the given id, only in the
    fields the input supplies, and never their id, creation stamp or manual
    order; an input that supplies no field leaves the collection as it
    was. *)
Theorem updateTodo_touches_only_supplied_fields (input : UpdateTodoInput) (w : World) :
  let after := todosCache (snd (updateTodo input w)) in
  List.length after = List.length (todosCache w) /\
  (forall k t,
     nth_error (todosCache w) k = Some t ->
     exists t',
       nth_error after k = Some t' /\
       id t' = id t /\ createdAt t' = createdAt t /\ order t' = order t /\
       (id t <> u_id input -> t' = t) /\
       (id t = u_id input ->
        title t' = match u_title input with Some v => v | None => title t end /\
        completed t' = match u_completed input with Some v => v | None => completed t end /\
        dueDate t' = match u_dueDate input with Some v => v | None => dueDate t end /\
        category t' = match u_category input with Some v => v | None => category t end /\
        priority t' = match u_priority input with Some v => v | None => priority t end)) /\
  (u_title input = None -> u_completed input = None -> u_dueDate input = None ->
   u_category input = None -> u_priority input = None ->
   after = todosCache w).
Proof.
  intros after. unfold after. rewrite updateTodo_run, persistToStorage_run.
  cbn [snd todosCache]. split; [apply length_map|]. split.
  - intros k t Hk. eexists. split; [apply nth_error_map_some; exact Hk|].
    destruct (streq (id t) (u_id input)) eqn:E.
    + apply streq_true in E.
      repeat split; try reflexivity; intros; congruence.
    + apply streq_false in E.
      repeat split; try reflexivity; intros; congruence.
  - intros U1 U2 U3 U4 U5. rewrite <- (map_id (todosCache w)) at 2.
    apply map_ext. intros t. destruct (streq (id t) (u_id input)); [|reflexivity].
    unfold applyUpdate. rewrite U1, U2, U3, U4, U5. destruct t; reflexivity.
Qed.

Lemma ids_filter_not (id' : jsstring) (todos : list Todo) :
  ~ In id' (ids (filter (fun todo => negb (streq (id todo) id')) todos)).
Proof.
  unfold ids. intros H. apply in_map_iff in H. destruct H as (t & Hid & Hin).
  apply filter_In in Hin. destruct Hin as [_ Hf].
  apply negb_true_iff, streq_false in Hf. congruence.
Qed.

Lemma filter_one_removed (id' : jsstring) (todos : list Todo) :
  NoDup (ids todos) -> In id' (ids todos) ->
  S (List.length (filter (fun todo => negb (streq (id todo) id')) todos))
  = List.length todos.
Proof.
  induction todos as [|t l IH]; simpl; intros Hnd Hin; [destruct Hin|].
  inversion Hnd as [|x xs Hnotin Hrest]; subst.
  destruct (streq (id t) id') eqn:E; cbn [negb].
  - apply streq_true in E. subst id'.
    rewrite filter_unknown_id by exact Hnotin. reflexivity.
  - apply streq_false in E. cbn [List.length]. f_equal. apply IH; [exact Hrest|].
    destruct Hin as [H|H]; [congruence|exact H].
Qed.

(** X11.  A delete removes every item that has the given id and no other
    item, keeps the others in their order, and deleting again changes
    nothing; when ids are unique and the id is present the collection
    shrinks by exactly one. *)
Theorem deleteTodo_removes_exactly (id' : jsstring) (w : World) :
  let after := todosCache (snd (deleteTodo id' w)) in
  (forall t, In t after <-> In t (todosCache w) /\ id t <> id') /\
  ~ In id' (ids after) /\
  filter (fun t => negb (streq (id t) id')) (todosCache w) = after /\
  todosCache (snd (deleteTodo id' (snd (deleteTodo id' w)))) = after /\
  (NoDup (ids (todosCache w)) -> In id' (ids (todosCache w)) ->
   S (List.length after) = List.length (todosCache w)).
Proof.
  intros after. unfold after. rewrite !deleteTodo_run, !persistToStorage_run.
  cbn [snd todosCache]. split; [|split; [|split; [|split]]].
  - intros t. rewrite filter_In, negb_true_iff, streq_false. reflexivity.
  - apply ids_filter_not.
  - reflexivity.
  - apply filter_unknown_id, ids_filter_not.
  - apply filter_one_removed.
Qed.

(** X12.  Creating an item under an id the collection does not hold and
    then deleting that id gives the collection back. *)
Theorem addTodo_then_deleteTodo (env : Env) (input : CreateTodoInput) (w : World) :
  ~ In (randomUUID env) (ids (todosCache w)) ->
  todosCache (snd (deleteTodo (randomUUID env) (snd (addTodo env input w))))
  = todosCache w.
Proof.
  intros Hfresh. rewrite deleteTodo_run, persistToStorage_run.
  cbn [snd todosCache]. rewrite addTodo_run. cbn [snd].
  rewrite persistToStorage_run. cbn [snd todosCache].
  rewrite filter_app. cbn [filter id]. rewrite streq_refl. cbn [negb].
  rewrite app_nil_r. apply filter_unknown_id. exact Hfresh.
Qed.

(** X13.  Only a reorder rewrites the manual order: after any other
    operation each item is the one just created, with the clock reading as
    its order, or has the id, the creation stamp and the order of an item
    that was there before. *)
Theorem only_reorder_rewrites_order (op : Operation) (w : World) :
  (forall activeId overId, op <> Reorder activeId overId) ->
  forall t',
    In t' (todosCache (snd (perform op w))) ->
    (exists env input, op = Create env input /\
                       id t' = randomUUID env /\ order t' = nowMs env) \/
    (exists t, In t (todosCache w) /\
               id t = id t' /\ createdAt t = createdAt t' /\ order t = order t').
Proof.
  intros Hop t'.
  destruct op as [env input|input|id'|id'|activeId overId]; simpl.
  - unfold bind. rewrite addTodo_run. cbn [fst snd].
    rewrite persistToStorage_run. unfold ret. cbn [snd todosCache].
    intros Hin. apply in_app_or in Hin. destruct Hin as [Hin|[<-|[]]].
    + right. exists t'. auto.
    + left. exists env, input. auto.
  - rewrite updateTodo_run, persistToStorage_run. cbn [snd todosCache].
    intros Hin. apply in_map_iff in Hin. destruct Hin as (t & <- & Hin).
    right. exists t. split; [exact Hin|].
    destruct (streq (id t) (u_id input)); auto.
  - rewrite deleteTodo_run, persistToStorage_run. cbn [snd todosCache].
    intros Hin. apply filter_In in Hin. right. exists t'. tauto.
  - rewrite toggleTodo_run, persistToStorage_run. cbn [snd todosCache].
    intros Hin. apply in_map_iff in Hin. destruct Hin as (t & <- & Hin).
    right. exists t. split; [exact Hin|].
    destruct (streq (id t) id'); auto.
  - destruct (Hop activeId overId eq_refl).
Qed.



(** ** More of the list *)

(** A list the comparator already finds in order is left as it is. *)
Lemma arraySort_fixed {A} (compareFn : A -> A -> option Z) (l : list A) :
  Sorted (fun a b => after compareFn a b = false) l ->
  arraySort compareFn l = l.
Proof.
  induction 1 as [|x l Hs IH Hhd]; [reflexivity|].
  cbn [arraySort fold_right]. fold (arraySort compareFn l). rewrite IH.
  destruct Hhd as [|y l' Hxy]; [reflexivity|].
  cbn [insertSorted]. rewrite Hxy. reflexivity.
Qed.

Section SortOptionsFacts.
Variable Date_getTime : jsstring -> option Z.

Lemma after_order (a b : Todo) :
  after (compareTodos Date_getTime SortOrder) a b = (order b <? order a).
Proof.
  unfold after, compareTodos.
  destruct (Z.ltb_spec 0 (order a - order b)), (Z.ltb_spec (order b) (order a));
    lia || reflexivity.
Qed.

Lemma after_createdAt (a b : Todo) :
  createdAtValid Date_getTime a -> createdAtValid Date_getTime b ->
  after (compareTodos Date_getTime SortCreatedAt) a b
  = (createdTime Date_getTime a <? createdTime Date_getTime b).
Proof.
  unfold createdAtValid, createdTime, after, compareTodos. intros Ha Hb.
  destruct (Date_getTime (createdAt a)) as [x|]; [|congruence].
  destruct (Date_getTime (createdAt b)) as [y|]; [|congruence].
  simpl. destruct (Z.ltb_spec 0 (y - x)), (Z.ltb_spec x y); lia || reflexivity.
Qed.

Lemma comparable_Forall (sortBy : SortOption) (todos : list Todo) :
  comparable Date_getTime sortBy todos <-> Forall (comparableItem Date_getTime sortBy) todos.
Proof.
  destruct sortBy; simpl; try reflexivity;
    (split; [intros _; apply Forall_forall; intros; exact I|auto]).
Qed.

(** On comparable items the comparator says "behind" exactly when the order
    of the option is strict the other way. *)
Lemma after_sortLe (sortBy : SortOption) (a b : Todo) :
  comparableItem Date_getTime sortBy a -> comparableItem Date_getTime sortBy b ->
  (after (compareTodos Date_getTime sortBy) a b = false <->
   sortLe Date_getTime sortBy a b) /\
  (after (compareTodos Date_getTime sortBy) a b = true ->
   sortLe Date_getTime sortBy b a).
Proof.
  destruct sortBy; simpl; intros Ha Hb.
  - rewrite after_order. rewrite Z.ltb_ge, Z.ltb_lt. lia.
  - rewrite (after_dueDate Date_getTime a b Ha Hb). unfold dueLe.
    destruct (falsy (dueDate a)), (falsy (dueDate b)); simpl;
      try (split; [split|]; intros; solve [auto | discriminate | tauto]).
    rewrite Z.ltb_ge, Z.ltb_lt. lia.
  - rewrite after_priority. unfold priorityLe. rewrite Z.ltb_ge, Z.ltb_lt. lia.
  - rewrite (after_createdAt a b Ha Hb). rewrite Z.ltb_ge, Z.ltb_lt. lia.
Qed.

Lemma sortLe_trans (sortBy : SortOption) (a b c : Todo) :
  sortLe Date_getTime sortBy a b -> sortLe Date_getTime sortBy b c ->
  sortLe Date_getTime sortBy a c.
Proof.
  destruct sortBy; simpl; try lia.
  - apply dueLe_trans.
  - unfold priorityLe. lia.
Qed.

Lemma sortTodos_sorted (sortBy : SortOption) (todos : list Todo) :
  comparable Date_getTime sortBy todos ->
  StronglySorted (sortLe Date_getTime sortBy) (sortTodos Date_getTime todos sortBy).
Proof.
  intros Hc. apply comparable_Forall in Hc. unfold sortTodos.
  apply (arraySort_sorted _ (sortLe Date_getTime sortBy) (comparableItem Date_getTime sortBy));
    [| | |exact Hc].
  - apply sortLe_trans.
  - intros a b Ha Hb H. apply (after_sortLe sortBy a b Ha Hb). exact H.
  - intros a b Ha Hb H. apply (after_sortLe sortBy a b Ha Hb). exact H.
Qed.

(** X15.  Sorting never loses, adds or edits an item, whatever the option
    and whatever the dates: the result is a rearrangement of the input. *)
Theorem sortTodos_rearranges (sortBy : SortOption) (todos : list Todo) :
  Permutation (sortTodos Date_getTime todos sortBy) todos /\
  List.length (sortTodos Date_getTime todos sortBy) = List.length todos /\
  (forall t, In t (sortTodos Date_getTime todos sortBy) <-> In t todos).
Proof.
  assert (Hp : Permutation (sortTodos Date_getTime todos sortBy) todos)
    by apply arraySort_Permutation.
  split; [exact Hp|]. split; [apply Permutation_length; exact Hp|].
  intros t. split; apply Permutation_in; [exact Hp|symmetry; exact Hp].
Qed.

(** X16.  Sorting by manual order puts the items in ascending [order];
    items with the same [order] keep their relative place. *)
Theorem sort_by_order (todos : list Todo) :
  let sorted := sortTodos Date_getTime todos SortOrder in
  (forall i j a b,
     (i < j)%nat ->
     nth_error sorted i = Some a -> nth_error sorted j = Some b ->
     order a <= order b) /\
  (forall k, filter (fun t => order t =? k) sorted
             = filter (fun t => order t =? k) todos).
Proof.
  intros sorted. split.
  - intros i j a b Hij Ha Hb.
    exact (StronglySorted_nth_error _ _ (sortTodos_sorted SortOrder todos I)
             i j a b Hij Ha Hb).
  - intros k. apply arraySort_filter. intros a b Ea Eb.
    rewrite after_order. apply Z.eqb_eq in Ea, Eb. apply Z.ltb_ge. lia.
Qed.

(** X17.  Sorting by creation date, a list whose creation stamps are valid
    date strings: newest first; items created at the same instant keep their
    relative place. *)
Theorem sort_by_createdAt (todos : list Todo) :
  Forall (createdAtValid Date_getTime) todos ->
  let sorted := sortTodos Date_getTime todos SortCreatedAt in
  (forall i j a b,
     (i < j)%nat ->
     nth_error sorted i = Some a -> nth_error sorted j = Some b ->
     createdTime Date_getTime b <= createdTime Date_getTime a) /\
  (forall k, filter (fun t => createdTime Date_getTime t =? k) sorted
             = filter (fun t => createdTime Date_getTime t =? k) todos).
Proof.
  intros Hv sorted. split.
  - intros i j a b Hij Ha Hb.
    exact (StronglySorted_nth_error _ _ (sortTodos_sorted SortCreatedAt todos Hv)
             i j a b Hij Ha Hb).
  - intros k. apply arraySort_filter. intros a b Ea Eb.
    unfold after, compareTodos, createdTime in *. apply Z.eqb_eq in Ea, Eb.
    destruct (Date_getTime (createdAt a)) as [x|],
             (Date_getTime (createdAt b)) as [y|]; simpl; try reflexivity.
    apply Z.ltb_ge. lia.
Qed.

(** X18.  Sorting a sorted view again changes nothing, for every option
    whose dates are valid. *)
Theorem sortTodos_twice (sortBy : SortOption) (todos : list Todo) :
  comparable Date_getTime sortBy todos ->
  sortTodos Date_getTime (sortTodos Date_getTime todos sortBy) sortBy
  = sortTodos Date_getTime todos sortBy.
Proof.
  intros Hc. pose proof (sortTodos_sorted sortBy todos Hc) as Hs.
  assert (Hok : Forall (comparableItem Date_getTime sortBy) (sortTodos Date_getTime todos sortBy)).
  { unfold sortTodos. rewrite arraySort_Permutation.
    apply comparable_Forall. exact Hc. }
  unfold sortTodos at 1. apply arraySort_fixed.
  induction Hs as [|x l Hs IH Hall]; [constructor|].
  inversion Hok as [|x' l' Hx Hl]; subst.
  constructor; [apply IH; exact Hl|].
  destruct l as [|y l']; constructor.
  inversion Hall as [|y' l'' Hxy _]; subst.
  inversion Hl as [|y' l'' Hy _]; subst.
  apply (after_sortLe sortBy x y Hx Hy). exact Hxy.
Qed.

Lemma filter_both {A} (f g : A -> bool) (l : list A) :
  filter g (filter f l) = filter (fun x => f x && g x) l.
Proof.
  induction l as [|x l IH]; [reflexivity|]. simpl.
  destruct (f x); simpl; [destruct (g x)|]; congruence.
Qed.

Lemma filter_all {A} (f : A -> bool) (l : list A) :
  (forall x, f x = true) -> filter f l = l.
Proof.
  intros H. induction l as [|x l IH]; simpl; [reflexivity|].
  rewrite H, IH. reflexivity.
Qed.

Lemma filter_passesFilters (categoryFilter : option Category)
    (completionFilter : CompletionFilter) (todos : list Todo) (sortBy : SortOption) :
  filteredAndSortedTodos Date_getTime todos categoryFilter completionFilter sortBy
  = sortTodos Date_getTime
      (filter (passesFilters categoryFilter completionFilter) todos) sortBy.
Proof.
  unfold filteredAndSortedTodos, passesFilters. f_equal.
  destruct categoryFilter as [c|], completionFilter; rewrite ?filter_both;
    try (apply filter_ext; intros t; rewrite ?andb_true_r; reflexivity).
  symmetry. apply filter_all. reflexivity.
Qed.

(** X19.  The view of the list shows exactly the items of the collection
    that pass both filters, each as often as the collection holds it, and
    with both filters on "all" it shows every item. *)
Theorem view_shows_the_filtered_items (todos : list Todo)
    (categoryFilter : option Category) (completionFilter : CompletionFilter)
    (sortBy : SortOption) :
  let view := filteredAndSortedTodos Date_getTime todos categoryFilter
                completionFilter sortBy in
  Permutation view (filter (passesFilters categoryFilter completionFilter) todos) /\
  (forall t, In t view <->
             In t todos /\ passesFilters categoryFilter completionFilter t = true) /\
  (categoryFilter = None -> completionFilter = FilterAll -> Permutation view todos).
Proof.
  intros view. unfold view. rewrite filter_passesFilters.
  assert (Hp : Permutation
                 (sortTodos Date_getTime
                    (filter (passesFilters categoryFilter completionFilter) todos) sortBy)
                 (filter (passesFilters categoryFilter completionFilter) todos))
    by apply arraySort_Permutation.
  split; [exact Hp|]. split.
  - intros t. rewrite <- filter_In.
    split; apply Permutation_in; [exact Hp|symmetry; exact Hp].
  - intros -> ->. rewrite Hp.
    rewrite filter_all; [reflexivity|]. reflexivity.
Qed.



End SortOptionsFacts.

(** ** The handlers of the components *)

Lemma reorderTodos_cache (activeId overId : jsstring) (w : World) :
  reorderTodos activeId overId w = (Returned tt, w) \/
  exists l, Permutation l (todosCache w) /\
            reorderTodos activeId overId w
            = persistToStorage (mapIndexed setOrder l) w.
Proof.
  destruct (position activeId (todosCache w)) as [i|] eqn:Pi;
    [destruct (position overId (todosCache w)) as [j|] eqn:Pj|].
  - destruct (position_Some _ _ _ Pi) as [(moved & Hm & _) _]. right.
    exists (insertAt j moved (removeAt i (todosCache w))). split.
    + apply move_Permutation. exact Hm.
    + apply (reorderTodos_found _ _ _ _ _ _ Pi Pj Hm).
  - left. apply reorderTodos_not_found. right. exact Pj.
  - left. apply reorderTodos_not_found. left. exact Pi.
Qed.

Lemma Forall_mapFrom_setOrder (P : Todo -> Prop) (i : Z) (l : list Todo) :
  (forall t k, P t -> P (setOrder t k)) ->
  Forall P l -> Forall P (mapFrom setOrder i l).
Proof.
  intros HP H. revert i. induction H as [|t l Ht _ IH]; intros i; cbn [mapFrom];
    constructor; [apply HP; exact Ht|apply IH].
Qed.


(** X22.  A submit with a title that does not trim to nothing appends
    exactly one item, made of the form's fields: the trimmed title, the
    picked date as an ISO string or [null], the chosen category and
    priority, not completed; and the form is reset. *)
Theorem handleSubmit_adds_the_form
    (Date_toISOString : Z -> jsstring) (env : Env) (form : FormState) (w : World) :
  trim (f_title form) <> [] ->
  exists t,
    handleSubmit Date_toISOString env form w
    = (Returned emptyForm, snd (persistToStorage (todosCache w ++ [t]) w)) /\
    todosCache (snd (handleSubmit Date_toISOString env form w)) = todosCache w ++ [t] /\
    id t = randomUUID env /\
    title t = trim (f_title form) /\
    trim (title t) = title t /\
    completed t = false /\
    dueDate t = option_map Date_toISOString (f_dueDate form) /\
    category t = f_category form /\
    priority t = f_priority form /\
    createdAt t = nowISO env /\
    order t = nowMs env.
Proof.
  intros Hne. unfold handleSubmit.
  destruct (truthy (trim (f_title form))) eqn:E;
    [|apply truthy_false in E; contradiction].
  cbn [negb]. unfold bind. rewrite addTodo_run. cbn [fst snd]. unfold ret.
  assert (Hn : forall A (x : option A), nullish (Some x) = x)
    by (intros A [v|]; reflexivity).
  cbn [c_title c_dueDate c_category c_priority]. rewrite !Hn.
  exists {| id := randomUUID env; title := trim (f_title form); completed := false;
            dueDate := option_map Date_toISOString (f_dueDate form);
            category := f_category form; priority := f_priority form;
            createdAt := nowISO env; order := nowMs env |}.
  split; [reflexivity|]. split; [rewrite persistToStorage_run; reflexivity|].
  cbn [id title completed dueDate category priority createdAt order].
  repeat split. apply trim_idempotent.
Qed.

Lemma handleSave_cases (todo : Todo) (st : ItemState) (w : World) :
  let trimmed := trim (editValue st) in
  (trimmed = [] \/ trimmed = title todo) /\
  handleSave todo handleUpdate st w
  = (Returned {| isEditing := false; editValue := title todo |}, w)
  \/
  (trimmed <> [] /\ trimmed <> title todo) /\
  handleSave todo handleUpdate st w
  = (Returned {| isEditing := false; editValue := editValue st |},
     snd (persistToStorage
            (map (fun t => if streq (id t) (id todo)
                           then {| id := id t; title := trimmed;
                                   completed := completed t; dueDate := dueDate t;
                                   category := category t; priority := priority t;
                                   createdAt := createdAt t; order := order t |}
                           else t)
                 (todosCache w)) w)).
Proof.
  intros trimmed. unfold handleSave. fold trimmed.
  destruct (truthy trimmed) eqn:Et; cbn [andb].
  - destruct (streq trimmed (title todo)) eqn:Es; cbn [negb].
    + left. apply streq_true in Es. split; [right; exact Es|reflexivity].
    + right. apply streq_false in Es. split.
      * split; [|exact Es]. intros H. rewrite H in Et. discriminate.
      * unfold bind, handleUpdate. rewrite updateTodo_run, !persistToStorage_run.
        reflexivity.
  - left. apply truthy_false in Et. split; [left; exact Et|reflexivity].
Qed.

(** X23.  Leaving the edit field commits only a real edit.  A value that
    trims to nothing, or to the title the item has, leaves the world as it
    was and puts the title back in the field; any other value becomes, once
    trimmed, the title of the items with that id, and nothing else of the
    collection changes. *)
Theorem handleSave_commits_only_real_edits (todo : Todo) (st : ItemState) (w : World) :
  let trimmed := trim (editValue st) in
  let after := todosCache (snd (handleSave todo handleUpdate st w)) in
  (trimmed = [] \/ trimmed = title todo ->
   handleSave todo handleUpdate st w
   = (Returned {| isEditing := false; editValue := title todo |}, w)) /\
  (trimmed <> [] -> trimmed <> title todo ->
   fst (handleSave todo handleUpdate st w)
   = Returned {| isEditing := false; editValue := editValue st |} /\
   List.length after = List.length (todosCache w) /\
   forall k t,
     nth_error (todosCache w) k = Some t ->
     exists t',
       nth_error after k = Some t' /\
       (id t <> id todo -> t' = t) /\
       (id t = id todo -> title t' = trimmed) /\
       id t' = id t /\ completed t' = completed t /\ dueDate t' = dueDate t /\
       category t' = category t /\ priority t' = priority t /\
       createdAt t' = createdAt t /\ order t' = order t).
Proof.
  intros trimmed after. unfold after.
  destruct (handleSave_cases todo st w) as [[Hc ->] | [[H1 H2] ->]]; fold trimmed.
  - split; [reflexivity|]. intros H1 H2. tauto.
  - fold trimmed in H1, H2. split; [intros [H|H]; contradiction|].
    intros _ _. rewrite persistToStorage_run. cbn [fst snd todosCache].
    split; [reflexivity|]. split; [apply length_map|].
    intros k t Hk. eexists. split; [apply nth_error_map_some; exact Hk|].
    destruct (streq (id t) (id todo)) eqn:E.
    + apply streq_true in E. repeat split; try reflexivity; intros; congruence.
    + apply streq_false in E. repeat split; try reflexivity; intros; congruence.
Qed.

(** X24.  A key press in the edit field reaches the store only when the
    key is Enter and the value, trimmed, is neither empty nor the title the
    item has: in every other case the world stays as it was.  Enter and
    Escape then put the title back in the field and end the editing; any
    other key leaves the field as it is. *)
Theorem handleKeyDown_writes_only_on_Enter
    (todo : Todo) (key : jsstring) (st : ItemState) (w : World) :
  key <> str "Enter" \/ trim (editValue st) = [] \/ trim (editValue st) = title todo ->
  exists st',
    handleKeyDown todo handleUpdate key st w = (Returned st', w) /\
    (key = str "Enter" \/ key = str "Escape" ->
     st' = {| isEditing := false; editValue := title todo |}) /\
    (key <> str "Enter" -> key <> str "Escape" -> st' = st).
Proof.
  intros H. unfold handleKeyDown.
  destruct (streq key (str "Enter")) eqn:EE.
  - apply streq_true in EE. destruct H as [H|H]; [contradiction|].
    destruct (handleSave_cases todo st w) as [[_ ->] | [[H1 H2] _]];
      [|destruct H; contradiction].
    eexists. split; [reflexivity|]. split; [reflexivity|].
    intros Hne. contradiction.
  - apply streq_false in EE. destruct (streq key (str "Escape")) eqn:ES.
    + eexists. split; [reflexivity|]. split; [reflexivity|].
      apply streq_true in ES. intros _ Hne. contradiction.
    + apply streq_false in ES. exists st. split; [reflexivity|].
      split; [intros [E|E]; contradiction|reflexivity].
Qed.

Section GestureFacts.
Variable Date_toISOString : Z -> jsstring.

Lemma titlesNotBlank_persist (todos : list Todo) (w : World) :
  titlesNotBlank todos ->
  titlesNotBlank (todosCache (snd (persistToStorage todos w))).
Proof. rewrite persistToStorage_run. intros H. exact H. Qed.

Lemma runGesture_step (g : Gesture) (w : World) :
  exists w',
    runGesture Date_toISOString g w = (Returned tt, w') /\
    (titlesNotBlank (todosCache w) -> titlesNotBlank (todosCache w')).
Proof.
  assert (Hsave : forall todo st,
            exists r w', handleSave todo handleUpdate st w = (Returned r, w') /\
              (titlesNotBlank (todosCache w) -> titlesNotBlank (todosCache w'))).
  { intros todo st.
    destruct (handleSave_cases todo st w) as [[_ ->] | [[H1 _] ->]].
    - eexists _, w. split; [reflexivity|auto].
    - eexists _, _. split; [reflexivity|]. intros Hinv.
      apply titlesNotBlank_persist. unfold titlesNotBlank in *.
      apply Forall_map. revert Hinv. apply Forall_impl. intros t Ht.
      destruct (streq (id t) (id todo)); [|exact Ht].
      cbn [title]. rewrite trim_idempotent. exact H1. }
  destruct g as [env form|todo st|todo st key|todo|todo|active over];
    cbn [runGesture].
  - unfold handleSubmit.
    destruct (truthy (trim (f_title form))) eqn:E; cbn [negb].
    + unfold bind. rewrite addTodo_run. cbn [fst snd].
      rewrite persistToStorage_run. unfold ret.
      eexists. split; [reflexivity|]. cbn [todosCache]. intros Hinv.
      apply Forall_app. split; [exact Hinv|]. constructor; [|constructor].
      cbn [title c_title]. rewrite trim_idempotent. intros H.
      rewrite H in E. discriminate.
    + exists w. split; [reflexivity|auto].
  - destruct (Hsave todo st) as (r & w' & Hr & Hinv).
    exists w'. unfold bind. rewrite Hr. split; [reflexivity|exact Hinv].
  - unfold handleKeyDown. destruct (streq key (str "Enter")).
    + destruct (Hsave todo st) as (r & w' & Hr & Hinv).
      exists w'. unfold bind. rewrite Hr. split; [reflexivity|exact Hinv].
    + exists w. destruct (streq key (str "Escape")); split; auto.
  - rewrite toggleTodo_run, persistToStorage_run. eexists. split; [reflexivity|].
    cbn [todosCache]. unfold titlesNotBlank. intros Hinv.
    apply Forall_map. revert Hinv. apply Forall_impl. intros t Ht.
    destruct (streq (id t) (id todo)); exact Ht.
  - rewrite deleteTodo_run, persistToStorage_run. eexists. split; [reflexivity|].
    cbn [todosCache]. unfold titlesNotBlank. intros Hinv.
    apply Forall_forall. intros t Hin. apply filter_In in Hin.
    exact (proj1 (Forall_forall _ _) Hinv t (proj1 Hin)).
  - unfold handleDragEnd. destruct over as [overId|]; [|exists w; split; auto].
    destruct (streq active overId); cbn [negb]; [exists w; split; auto|].
    destruct (reorderTodos_cache active overId w) as [-> | (l & Hp & ->)];
      [exists w; split; auto|].
    rewrite persistToStorage_run. eexists. split; [reflexivity|].
    cbn [todosCache]. unfold titlesNotBlank, mapIndexed. intros Hinv.
    apply Forall_mapFrom_setOrder; [intros t k Ht; exact Ht|].
    rewrite Hp. exact Hinv.
Qed.

(** X25.  Through the components no title ever becomes blank: when no title
    of the collection trims to nothing, none does after any sequence of
    submits, edits, key presses, toggles, deletions and drags; and every
    such sequence runs to its end without an exception. *)
Theorem titles_never_become_blank (gs : list Gesture) (w : World) :
  titlesNotBlank (todosCache w) ->
  fst (runGestures Date_toISOString gs w) = Returned tt /\
  titlesNotBlank (todosCache (snd (runGestures Date_toISOString gs w))).
Proof.
  revert w. induction gs as [|g gs IH]; intros w Hinv.
  - split; [reflexivity|exact Hinv].
  - cbn [runGestures]. unfold bind.
    destruct (runGesture_step g w) as (w' & -> & Hstep).
    apply IH, Hstep, Hinv.
Qed.
End GestureFacts.

(** ** The statements at concrete inputs *)

(** The scenario of the specification: A and B created in that order,
    then A dragged onto B. *)
Example reorder_scenario :
  let w0 := sampleWorld [] roomyStorage in
  let w1 := snd (addTodo (sampleEnv "A" 1714557600000) (sampleInput "a") w0) in
  let w2 := snd (addTodo (sampleEnv "B" 1714557600001) (sampleInput "b") w1) in
  let w3 := snd (reorderTodos (str "A") (str "B") w2) in
  map (fun t => (id t, order t)) (todosCache w3) = [(str "B", 0); (str "A", 1)].
Proof. vm_compute. reflexivity. Qed.

(** C4 on a collection of one item: deleting an id it does not hold. *)
Lemma unknown_id_is_noop_witness :
  let op := Delete (str "missing") in
  let w := sampleWorld [sampleTodo "a" 0] roomyStorage in
  lookedUp op = Some (str "missing") /\
  ~ In (str "missing") (ids (todosCache w)) /\
  fst (perform op w) = Returned tt /\
  todosCache (snd (perform op w)) = todosCache w.
Proof.
  intros op w.
  assert (H1 : lookedUp op = Some (str "missing")) by reflexivity.
  assert (H2 : ~ In (str "missing") (ids (todosCache w))).
  { vm_compute. intros [H|[]]. discriminate H. }
  exact (conj H1 (conj H2 (unknown_id_is_noop op (str "missing") w H1 H2))).
Defined.

(** C10 with two subscribers: toggling an id the collection does not hold. *)
Lemma unknown_id_still_persists_and_notifies_witness :
  let op := Toggle (str "missing") in
  let w := sampleWorld [sampleTodo "a" 0] roomyStorage in
  lookedUp op = Some (str "missing") /\
  ~ In (str "missing") (ids (todosCache w)) /\
  hasWindow w = true /\
  NoDup (listeners w) /\
  writes (added (perform op) w) = [(STORAGE_KEY, JSON_stringify (todosCache w))] /\
  timesCalled 1%nat (added (perform op) w) = 1%nat /\
  timesCalled 2%nat (added (perform op) w) = 1%nat.
Proof.
  intros op w.
  assert (H1 : lookedUp op = Some (str "missing")) by reflexivity.
  assert (H2 : ~ In (str "missing") (ids (todosCache w))).
  { vm_compute. intros [H|[]]. discriminate H. }
  assert (H3 : hasWindow w = true) by reflexivity.
  assert (H4 : NoDup (listeners w)).
  { simpl. repeat constructor; simpl; intuition lia. }
  destruct (unknown_id_still_persists_and_notifies op (str "missing") w H1 H2 H3 H4)
    as (_ & _ & Hwrites & Hin & _).
  exact (conj H1 (conj H2 (conj H3 (conj H4 (conj Hwrites
           (conj (Hin 1%nat (or_introl eq_refl))
                 (Hin 2%nat (or_intror (or_introl eq_refl))))))))).
Defined.

(** C8 with a storage that has no room: the created item is in memory
    though nothing was stored. *)
Lemma failed_write_keeps_mutation_witness :
  let op := Create (sampleEnv "id-1" 1714557600000) (sampleInput "first") in
  let w := sampleWorld [] fullStorage in
  let t := {| id := str "id-1"; title := str "first"; completed := false;
              dueDate := None; category := None; priority := medium;
              createdAt := str "2024-05-01T10:00:00.000Z";
              order := 1714557600000 |} in
  hasWindow w = true /\
  setItem STORAGE_KEY (JSON_stringify (mutated op (todosCache w)))
          (localStorage w) = None /\
  fst (perform op w) = Returned tt /\
  todosCache (snd (perform op w)) = [t] /\
  localStorage (snd (perform op w)) = localStorage w /\
  errorsLogged (added (perform op) w) = [QuotaExceededError].
Proof.
  intros op w t.
  assert (H1 : hasWindow w = true) by reflexivity.
  assert (H2 : setItem STORAGE_KEY (JSON_stringify (mutated op (todosCache w)))
                 (localStorage w) = None) by (vm_compute; reflexivity).
  assert (H3 : mutated op (todosCache w) = [t]) by reflexivity.
  assert (H4 : map (fun _ : jsstring * jsstring => QuotaExceededError)
                   (writes (added (perform op) w)) = [QuotaExceededError])
    by (vm_compute; reflexivity).
  destruct (failed_write_keeps_mutation op w H1 H2) as (Hr & Hc & _ & Hs & He).
  exact (conj H1 (conj H2 (conj Hr (conj (eq_trans Hc H3)
           (conj Hs (eq_trans He H4)))))).
Defined.

(** C5 on a run that creates, toggles, deletes, creates again under the
    deleted id, and renames. *)
Lemma ids_stay_unique_witness :
  let ops :=
    [ Create (sampleEnv "id-1" 1714557600000) (sampleInput "first");
      Create (sampleEnv "id-2" 1714557600000) (sampleInput "second");
      Toggle (str "id-1");
      Delete (str "id-1");
      Create (sampleEnv "id-1" 1714557600500) (sampleInput "third");
      Update {| u_id := str "id-2"; u_title := Some (str "renamed");
                u_dueDate := None; u_category := None; u_priority := None;
                u_completed := None |} ] in
  let w := sampleWorld [] roomyStorage in
  todosCache w = [] /\
  drawsFreshIds ops w /\
  NoDup (ids (todosCache (snd (performAll ops w)))).
Proof.
  intros ops w.
  assert (H1 : todosCache w = []) by reflexivity.
  assert (H2 : drawsFreshIds ops w).
  { vm_compute. repeat split; intros H;
      repeat (destruct H as [H|H]; [discriminate H|]); exact H. }
  destruct (ids_stay_unique ops w H1 H2) as (_ & Hnd & _).
  exact (conj H1 (conj H2 Hnd)).
Defined.


(** C9 on a collection of two items written to an empty storage. *)
Lemma reload_gives_back_collection_witness :
  let todos := [sampleTodo "a" 1714557600000; dueTodo "b" None high] in
  let w := sampleWorld [] roomyStorage in
  hasWindow w = true /\
  setItem STORAGE_KEY (JSON_stringify todos) (localStorage w) <> None /\
  cacheOf
    (snd (initializeFromStorage above0_plain
            (Typed (freshStore (localStorage (snd (persistToStorage todos w)))))))
  = TodoList todos.
Proof.
  intros todos w.
  assert (H1 : hasWindow w = true) by reflexivity.
  assert (H2 : setItem STORAGE_KEY (JSON_stringify todos) (localStorage w) <> None).
  { vm_compute. discriminate. }
  destruct (reload_gives_back_collection above0_plain todos w H1 H2) as (_ & _ & Hc).
  exact (conj H1 (conj H2 Hc)).
Defined.


(** C1, amended, on a form whose title is three spaces. *)
Lemma handleSubmit_rejects_blank_title_witness :
  let form := {| f_title := str "   "; f_dueDate := None; f_category := Some work;
                 f_priority := high |} in
  let w := sampleWorld [] roomyStorage in
  trim (f_title form) = [] /\
  handleSubmit (fun _ => str "2024-05-01T10:00:00.000Z")
               (sampleEnv "id-1" 1714557600000) form w
  = (Returned form, w).
Proof.
  intros form w.
  assert (H : trim (f_title form) = []) by reflexivity.
  split; [exact H|].
  exact (proj1 (handleSubmit_rejects_blank_title _ _ form w) H).
Defined.

(** X1 on a store whose saved text is cut short. *)
Lemma corrupt_storage_is_logged_not_raised_witness :
  let text := str "[{" in
  let w := freshStore {| entries := [(STORAGE_KEY, text)]; quota := 5000000 |} in
  hasWindow w = true /\
  todosCache w = [] /\
  getItem STORAGE_KEY (localStorage w) = Some text /\
  text <> [] /\
  JSON_parse text = None /\
  fst (initializeFromStorage above0_plain (Typed w)) = Returned tt /\
  cacheOf (snd (initializeFromStorage above0_plain (Typed w))) = TodoList [].
Proof.
  intros text w.
  assert (H1 : hasWindow w = true) by reflexivity.
  assert (H2 : todosCache w = []) by reflexivity.
  assert (H3 : getItem STORAGE_KEY (localStorage w) = Some text)
    by (vm_compute; reflexivity).
  assert (H4 : text <> []) by (vm_compute; discriminate).
  assert (H5 : JSON_parse text = None) by (vm_compute; reflexivity).
  pose proof (corrupt_storage_is_logged_not_raised above0_plain w text H1 H2 H3 H4 H5)
    as H.
  exact (conj H1 (conj H2 (conj H3 (conj H4 (conj H5
           (conj (f_equal fst H) (f_equal (fun r => cacheOf (snd r)) H))))))).
Defined.

(** X3 on a store whose saved text is [null]: the first load returns and
    leaves [null] in memory, the second throws. *)
Lemma initializeFromStorage_twice_witness :
  let saved := {| entries := [(STORAGE_KEY, str "null")]; quota := 5000000 |} in
  let s := Typed (freshStore saved) in
  let s1 := Raw JNull (freshStore saved) in
  fst (initializeFromStorage above0_plain s) = Returned tt /\
  snd (initializeFromStorage above0_plain s) = s1 /\
  initializeFromStorage above0_plain s1 = (Thrown TypeError, s1).
Proof.
  intros saved s s1.
  assert (H : fst (initializeFromStorage above0_plain s) = Returned tt)
    by (vm_compute; reflexivity).
  assert (H1 : snd (initializeFromStorage above0_plain s) = s1)
    by (vm_compute; reflexivity).
  pose proof (proj1 (proj2 (initializeFromStorage_twice above0_plain s H))
                (freshStore saved) H1 eq_refl) as H2.
  rewrite H1 in H2.
  exact (conj H (conj H1 H2)).
Defined.

(** X4 with a third subscriber beside the two of the sample world. *)
Lemma subscribed_listener_called_once_witness :
  let w := sampleWorld [] roomyStorage in
  let w1 := snd (subscribe 3%nat w) in
  NoDup (listeners w) /\
  subscribe 3%nat w1 = (Returned tt, w1) /\
  timesCalled 3%nat (added (persistToStorage []) w1) = 1%nat.
Proof.
  intros w w1.
  assert (H : NoDup (listeners w)).
  { simpl. repeat constructor; simpl; intuition lia. }
  destruct (subscribed_listener_called_once 3%nat w [] H) as (Ha & Hb & _).
  exact (conj H (conj Ha Hb)).
Defined.

(** X8 on a creation followed by a toggle, with room in the storage. *)
Lemma storage_tracks_memory_witness :
  let ops := [Create (sampleEnv "id-1" 1714557600000) (sampleInput "first");
              Toggle (str "id-1")] in
  let w := sampleWorld [] {| entries := [(STORAGE_KEY, str "[]")]; quota := 5000000 |} in
  hasWindow w = true /\
  synced w /\
  errorsLogged (added (performAll ops) w) = [] /\
  synced (snd (performAll ops w)).
Proof.
  intros ops w.
  assert (H1 : hasWindow w = true) by reflexivity.
  assert (H2 : synced w) by (vm_compute; reflexivity).
  assert (H3 : errorsLogged (added (performAll ops) w) = []) by (vm_compute; reflexivity).
  exact (conj H1 (conj H2 (conj H3 (storage_tracks_memory ops w H1 H2 H3)))).
Defined.

(** X12 on a collection of one item and a fresh id. *)
Lemma addTodo_then_deleteTodo_witness :
  let env := sampleEnv "id-1" 1714557600000 in
  let w := sampleWorld [sampleTodo "a" 0] roomyStorage in
  ~ In (randomUUID env) (ids (todosCache w)) /\
  todosCache (snd (deleteTodo (randomUUID env) (snd (addTodo env (sampleInput "first") w))))
  = todosCache w.
Proof.
  intros env w.
  assert (H : ~ In (randomUUID env) (ids (todosCache w))).
  { vm_compute. intros [E|[]]. discriminate E. }
  exact (conj H (addTodo_then_deleteTodo env (sampleInput "first") w H)).
Defined.

(** X13 on a toggle. *)
Lemma only_reorder_rewrites_order_witness :
  let op := Toggle (str "a") in
  let w := sampleWorld [sampleTodo "a" 7] roomyStorage in
  (forall activeId overId, op <> Reorder activeId overId) /\
  forall t',
    In t' (todosCache (snd (perform op w))) ->
    (exists env input, op = Create env input /\
                       id t' = randomUUID env /\ order t' = nowMs env) \/
    (exists t, In t (todosCache w) /\
               id t = id t' /\ createdAt t = createdAt t' /\ order t = order t').
Proof.
  intros op w.
  assert (H : forall activeId overId, op <> Reorder activeId overId)
    by (intros activeId overId; discriminate).
  exact (conj H (only_reorder_rewrites_order op w H)).
Defined.

(** X17 on two items created at the same instant. *)
Lemma sort_by_createdAt_witness :
  let todos := [sampleTodo "a" 0; sampleTodo "b" 1] in
  Forall (createdAtValid Date_getTime_iso) todos /\
  sortTodos Date_getTime_iso todos SortCreatedAt = todos.
Proof.
  intros todos.
  assert (H : Forall (createdAtValid Date_getTime_iso) todos).
  { repeat constructor; vm_compute; discriminate. }
  destruct (sort_by_createdAt Date_getTime_iso todos H) as [_ Hs].
  refine (conj H _).
  pose proof (Hs 1714557600000) as E. vm_compute in E. vm_compute. exact E.
Defined.

(** X18 on a list sorted by due date. *)
Lemma sortTodos_twice_witness :
  let todos := [dueTodo "a" None medium;
                dueTodo "b" (Some "2024-06-01T00:00:00.000Z"%string) low] in
  comparable Date_getTime_iso SortDueDate todos /\
  sortTodos Date_getTime_iso (sortTodos Date_getTime_iso todos SortDueDate) SortDueDate
  = sortTodos Date_getTime_iso todos SortDueDate.
Proof.
  intros todos.
  assert (H : comparable Date_getTime_iso SortDueDate todos).
  { repeat constructor; vm_compute; try reflexivity; try discriminate; auto. }
  exact (conj H (sortTodos_twice Date_getTime_iso SortDueDate todos H)).
Defined.


(** The move is computed on the stored sequence, not on the view: when the
    two differ, an item that was not dragged can change its place in the
    view.  Stored as a (5), b (9), c (7), the view is a, c, b; dragging a
    onto c leaves the view b, c, a. *)
Example reorder_of_unsorted_store :
  let w := sampleWorld [sampleTodo "a" 5; sampleTodo "b" 9; sampleTodo "c" 7]
                       roomyStorage in
  ids (sortTodos Date_getTime_iso (todosCache w) SortOrder)
  = [str "a"; str "c"; str "b"] /\
  ids (sortTodos Date_getTime_iso
         (todosCache (snd (reorderTodos (str "a") (str "c") w))) SortOrder)
  = [str "b"; str "c"; str "a"].
Proof. split; vm_compute; reflexivity. Qed.

(** X22 on a title with blanks around it. *)
Lemma handleSubmit_adds_the_form_witness :
  let form := {| f_title := str "  milk "; f_dueDate := None;
                 f_category := Some shopping; f_priority := high |} in
  let env := sampleEnv "id-1" 1714557600000 in
  let w := sampleWorld [] roomyStorage in
  trim (f_title form) <> [] /\
  exists t,
    todosCache (snd (handleSubmit (fun _ => []) env form w)) = [t] /\
    title t = str "milk".
Proof.
  intros form env w.
  assert (H : trim (f_title form) <> []) by (vm_compute; discriminate).
  destruct (handleSubmit_adds_the_form (fun _ => []) env form w H)
    as (t & _ & Hc & _ & Ht & _).
  exact (conj H (ex_intro _ t (conj Hc Ht))).
Defined.

(** X24 on Escape. *)
Lemma handleKeyDown_writes_only_on_Enter_witness :
  let todo := sampleTodo "a" 0 in
  let st := {| isEditing := true; editValue := str "other" |} in
  let w := sampleWorld [todo] roomyStorage in
  let key := str "Escape" in
  (key <> str "Enter" \/ trim (editValue st) = [] \/ trim (editValue st) = title todo) /\
  exists st', handleKeyDown todo handleUpdate key st w = (Returned st', w).
Proof.
  intros todo st w key.
  assert (H : key <> str "Enter" \/ trim (editValue st) = []
              \/ trim (editValue st) = title todo).
  { left. intros E. vm_compute in E. discriminate E. }
  destruct (handleKeyDown_writes_only_on_Enter todo key st w H) as (st' & Hr & _).
  exact (conj H (ex_intro _ st' Hr)).
Defined.

(** X25 on a submit of a blank title, a submit, an edit and a toggle. *)
Lemma titles_never_become_blank_witness :
  let todo := sampleTodo "a" 0 in
  let w := sampleWorld [todo] roomyStorage in
  let gs := [SubmitForm (sampleEnv "id-1" 1714557600000)
               {| f_title := str "   "; f_dueDate := None; f_category := None;
                  f_priority := medium |};
             SubmitForm (sampleEnv "id-2" 1714557600001)
               {| f_title := str " tea "; f_dueDate := None; f_category := None;
                  f_priority := low |};
             BlurEdit todo {| isEditing := true; editValue := str "  " |};
             ClickCheckbox todo] in
  titlesNotBlank (todosCache w) /\
  fst (runGestures (fun _ => []) gs w) = Returned tt /\
  titlesNotBlank (todosCache (snd (runGestures (fun _ => []) gs w))).
Proof.
  intros todo w gs.
  assert (H : titlesNotBlank (todosCache w)).
  { repeat constructor. vm_compute. discriminate. }
  exact (conj H (titles_never_become_blank (fun _ => []) gs w H)).
Defined.
